(** * RoachJS: radix-tree router and middleware chain

    A shallow embedding of [src/router.js] (class [Router]) and of
    [src/middleware.js] (class [MiddlewareChain]) together with the
    properties of the dispatch layer that are stated about them.

    Conventions of the embedding:
    - JavaScript strings are [string]s, [toUpperCase] acting on the ASCII
      letters; [Map]s and the [params] object are finite maps ([gmap])
      with string keys (the special property name [__proto__] of objects
      is not modelled);
    - function references (handlers, middleware) are identifiers ([Fn]);
    - a method that mutates the router and may throw returns the router as
      the call leaves it together with the thrown error, if any, so that
      whatever was mutated before a [throw] stays visible. *)

From Stdlib Require Import String Ascii List Bool Arith Lia.
From stdpp Require Import base option list gmap strings fin_maps.

Local Open Scope string_scope.
Local Open Scope list_scope.

(** ** JavaScript string primitives used by the router *)

Module Js.

(** [s.length] *)
Definition len (s : string) : nat := String.length s.

(** [s.slice(n)] *)
Fixpoint slice (n : nat) (s : string) : string :=
  match n, s with
  | 0, _ => s
  | S n', String _ s' => slice n' s'
  | S _, EmptyString => EmptyString
  end.

(** [s.slice(0, n)] *)
Fixpoint slice_to (n : nat) (s : string) : string :=
  match n, s with
  | S n', String c s' => String c (slice_to n' s')
  | _, _ => EmptyString
  end.

(** [s.startsWith(p)] *)
Fixpoint startsWith (p s : string) : bool :=
  match p, s with
  | EmptyString, _ => true
  | String a p', String b s' => Ascii.eqb a b && startsWith p' s'
  | String _ _, EmptyString => false
  end.

(** [s.endsWith("/")], the only use of [endsWith] in the sources *)
Fixpoint endsWithSlash (s : string) : bool :=
  match s with
  | EmptyString => false
  | String c EmptyString => Ascii.eqb c "/"
  | String _ s' => endsWithSlash s'
  end.

(** [s.slice(0, -1)] *)
Fixpoint dropLast (s : string) : string :=
  match s with
  | EmptyString => EmptyString
  | String _ EmptyString => EmptyString
  | String c s' => String c (dropLast s')
  end.

(** [s.includes(c)] for a one-character needle *)
Fixpoint includes (c : ascii) (s : string) : bool :=
  match s with
  | EmptyString => false
  | String x s' => Ascii.eqb x c || includes c s'
  end.

(** Truthiness of a string: [Boolean(s)] *)
Definition truthy (s : string) : bool :=
  match s with EmptyString => false | _ => true end.

(** [s.split(c)] for a one-character separator *)
Fixpoint split (c : ascii) (s : string) : list string :=
  match s with
  | EmptyString => [EmptyString]
  | String x s' =>
      if Ascii.eqb x c then EmptyString :: split c s'
      else match split c s' with
           | [] => [String x EmptyString]
           | w :: ws => String x w :: ws
           end
  end.

(** [xs.join("/")] *)
Fixpoint join (xs : list string) : string :=
  match xs with
  | [] => EmptyString
  | [x] => x
  | x :: rest => x +:+ "/" +:+ join rest
  end.

(** [c.toUpperCase()] on the ASCII letters *)
Definition upper_ascii (c : ascii) : ascii :=
  let n := nat_of_ascii c in
  if (97 <=? n)%nat && (n <=? 122)%nat then ascii_of_nat (n - 32) else c.

(** [s.toUpperCase()] *)
Fixpoint toUpperCase (s : string) : string :=
  match s with
  | EmptyString => EmptyString
  | String c s' => String (upper_ascii c) (toUpperCase s')
  end.

(** [obj[key] = value] for a string [value] on a plain object, one
    made by [{}] or by spreading, whose own properties are the keys of
    the map: the assignment creates or updates the own property [key],
    except that the name ["__proto__"], when the object has no own
    property of that name, reaches the setter inherited from
    [Object.prototype], which ignores a string and leaves the object as
    it is. *)
Definition assign (key value : string) (obj : gmap string string)
  : gmap string string :=
  if String.eqb key "__proto__" && bool_decide (obj !! key = None)
  then obj else <[key := value]> obj.

End Js.

(** ** The router ([src/router.js]) *)

(** Function references. *)
Definition Fn := nat.

(** The value stored per method at a node and in the static cache:
    [{ handler, middleware }]. *)
Record RouteEntry := mkEntry {
  handler : Fn;
  middleware : list Fn
}.

(** [class RadixNode] *)
#[local] Set Warnings "-register-all".
Inductive RadixNode := mkNode {
  label : string;
  children : list RadixNode;
  handlers : gmap string RouteEntry;
  paramName : option string;
  isWildcard : bool;
  paramChild : option RadixNode;
  wildcardChild : option RadixNode
}.

(** [new RadixNode(label)] *)
Definition newNode (l : string) : RadixNode :=
  mkNode l [] ∅ None false None None.

Definition setLabel (l : string) (n : RadixNode) : RadixNode :=
  mkNode l (children n) (handlers n) (paramName n) (isWildcard n)
         (paramChild n) (wildcardChild n).

Definition setChildren (cs : list RadixNode) (n : RadixNode) : RadixNode :=
  mkNode (label n) cs (handlers n) (paramName n) (isWildcard n)
         (paramChild n) (wildcardChild n).

Definition setHandlers (hs : gmap string RouteEntry) (n : RadixNode) : RadixNode :=
  mkNode (label n) (children n) hs (paramName n) (isWildcard n)
         (paramChild n) (wildcardChild n).

Definition setParamChild (c : RadixNode) (n : RadixNode) : RadixNode :=
  mkNode (label n) (children n) (handlers n) (paramName n) (isWildcard n)
         (Some c) (wildcardChild n).

Definition setWildcardChild (c : RadixNode) (n : RadixNode) : RadixNode :=
  mkNode (label n) (children n) (handlers n) (paramName n) (isWildcard n)
         (paramChild n) (Some c).

(** The parametric node created by [add] for a segment [":name"]. *)
Definition newParamNode (segment name : string) : RadixNode :=
  mkNode segment [] ∅ (Some name) false None None.

(** The wildcard node created by [add]. *)
Definition newWildcardNode : RadixNode :=
  mkNode "*" [] ∅ None true None None.

(** [class Router] *)
Record Router := mkRouter {
  root : RadixNode;
  staticRoutes : gmap string RouteEntry
}.

(** [new Router()] *)
Definition emptyRouter : Router := mkRouter (newNode "") ∅.

(** Why an [InvalidRouteError] was raised (its [reason] argument). *)
Inductive InvalidReason :=
| MustStartWithSlash
| EmptyParameterName
| WildcardNotLast.

(** The errors [add] throws. *)
Inductive RouteError :=
| InvalidRouteError (why : InvalidReason)
| RouteConflictError.

(** How a call ended: [None] is a normal return, [Some e] is [throw e]. *)
Definition Thrown := option RouteError.

(** [_splitPath(path)]: [path.split('/').filter(Boolean)] *)
Definition _splitPath (path : string) : list string :=
  List.filter Js.truthy (Js.split "/" path).

(** [_commonPrefixLength(a, b)] *)
Fixpoint _commonPrefixLength (a b : string) : nat :=
  match a, b with
  | String x a', String y b' =>
      if Ascii.eqb x y then S (_commonPrefixLength a' b') else 0
  | _, _ => 0
  end.

(** The [for] loop of [_insertStatic] over [parent.children], and the
    [push] that follows it.  [k] is the rest of the caller's work on the
    node that [_insertStatic] returns (see below); [rec] is the recursive
    call [this._insertStatic(child, ...)]. *)
Definition insertLoop (k : RadixNode → RadixNode * Thrown)
    (rec : RadixNode → string → RadixNode * Thrown) (segment : string)
  : list RadixNode → list RadixNode * Thrown :=
  fix loop (cs : list RadixNode) : list RadixNode * Thrown :=
    match cs with
    | [] =>
        let '(n, t) := k (newNode segment) in ([n], t)
    | child :: rest =>
        let commonLen := _commonPrefixLength (label child) segment in
        if (commonLen =? 0)%nat then
          let '(rest', t) := loop rest in (child :: rest', t)
        else if (commonLen =? Js.len (label child))%nat
                && (commonLen =? Js.len segment)%nat then
          let '(c, t) := k child in (c :: rest, t)
        else if (commonLen =? Js.len (label child))%nat then
          let '(c, t) := rec child (Js.slice commonLen segment) in
          (c :: rest, t)
        else if (commonLen <? Js.len (label child))%nat then
          let child' := setLabel (Js.slice commonLen (label child)) child in
          let splitNode :=
            setChildren [child'] (newNode (Js.slice_to commonLen (label child))) in
          if (commonLen =? Js.len segment)%nat then
            let '(s, t) := k splitNode in (s :: rest, t)
          else
            let '(n, t) := k (newNode (Js.slice commonLen segment)) in
            (setChildren [child'; n] splitNode :: rest, t)
        else
          let '(rest', t) := loop rest in (child :: rest', t)
    end.

(** [_insertStatic(parent, segment)].  The JavaScript method returns a
    reference to a node inside the tree and the caller goes on mutating
    the tree through it; here the rest of the caller's work is the
    continuation [k], applied to the node that the method returns, and the
    parent is rebuilt around the result. *)
Fixpoint _insertStatic (k : RadixNode → RadixNode * Thrown)
    (parent : RadixNode) (segment : string) {struct parent}
  : RadixNode * Thrown :=
  match parent with
  | mkNode lbl cs hs pn iw pc wc =>
      let '(cs', t) := insertLoop k (_insertStatic k) segment cs in
      (mkNode lbl cs' hs pn iw pc wc, t)
  end.

(** The node that [_insertStatic(parent, segment)] returns, as it is
    at the [return]: the child that spells the segment, the node made by
    a split, or a new node.  It is the argument that [_insertStatic]
    above hands to its continuation. *)
Definition returnLoop (rec : RadixNode → string → RadixNode)
    (segment : string) : list RadixNode → RadixNode :=
  fix loop (cs : list RadixNode) : RadixNode :=
    match cs with
    | [] => newNode segment
    | child :: rest =>
        let commonLen := _commonPrefixLength (label child) segment in
        if (commonLen =? 0)%nat then loop rest
        else if (commonLen =? Js.len (label child))%nat
                && (commonLen =? Js.len segment)%nat then child
        else if (commonLen =? Js.len (label child))%nat then
          rec child (Js.slice commonLen segment)
        else if (commonLen <? Js.len (label child))%nat then
          let child' := setLabel (Js.slice commonLen (label child)) child in
          let splitNode :=
            setChildren [child'] (newNode (Js.slice_to commonLen (label child))) in
          if (commonLen =? Js.len segment)%nat then splitNode
          else newNode (Js.slice commonLen segment)
        else loop rest
    end.

Fixpoint _insertStatic_returns (parent : RadixNode) (segment : string)
    {struct parent} : RadixNode :=
  match parent with
  | mkNode _ cs _ _ _ _ _ => returnLoop _insertStatic_returns segment cs
  end.

(** The body of [add] from the segment loop on: the loop over
    [segments], then the terminal check and [handlers.set]. *)
Fixpoint walk (method : string) (entry : RouteEntry)
    (segments : list string) (node : RadixNode) {struct segments}
  : RadixNode * Thrown :=
  match segments with
  | [] =>
      match handlers node !! method with
      | Some _ => (node, Some RouteConflictError)
      | None => (setHandlers (<[method := entry]> (handlers node)) node, None)
      end
  | segment :: rest =>
      if Js.startsWith ":" segment then
        let name := Js.slice 1 segment in
        if negb (Js.truthy name) then
          (node, Some (InvalidRouteError EmptyParameterName))
        else
          match paramChild node with
          | None =>
              let '(c, t) := walk method entry rest (newParamNode segment name) in
              (setParamChild c node, t)
          | Some pc =>
              if negb (bool_decide (paramName pc = Some name)) then
                (node, Some RouteConflictError)
              else
                let '(c, t) := walk method entry rest pc in
                (setParamChild c node, t)
          end
      else if String.eqb segment "*" then
        match rest with
        | _ :: _ => (node, Some (InvalidRouteError WildcardNotLast))
        | [] =>
            let wc := match wildcardChild node with
                      | None => newWildcardNode
                      | Some w => w
                      end in
            let '(c, t) := walk method entry rest wc in
            (setWildcardChild c node, t)
        end
      else
        _insertStatic (walk method entry rest) node segment
  end.

(** The key of the static cache: [`${method}:${path}`]. *)
Definition staticKey (method path : string) : string :=
  method +:+ ":" +:+ path.

(** [add(method, path, middleware, handler)] *)
Definition add (r : Router) (method path : string) (mw : list Fn) (h : Fn)
  : Router * Thrown :=
  let method := Js.toUpperCase method in
  if negb (Js.startsWith "/" path) then
    (r, Some (InvalidRouteError MustStartWithSlash))
  else
    let isStatic := negb (Js.includes ":" path) && negb (Js.includes "*" path) in
    let conflict :=
      isStatic && bool_decide (is_Some (staticRoutes r !! staticKey method path)) in
    if conflict then (r, Some RouteConflictError)
    else
      let cache :=
        if isStatic then <[staticKey method path := mkEntry h mw]> (staticRoutes r)
        else staticRoutes r in
      let '(root', t) := walk method (mkEntry h mw) (_splitPath path) (root r) in
      (mkRouter root' cache, t).

(** What [find] returns when it is not [null]. *)
Record MatchResult := mkMatch {
  m_handler : Fn;
  m_params : gmap string string;
  m_middleware : list Fn
}.

(** [_matchStatic(child, segments, segIdx)].  The pair
    [(segments, segIdx)] is represented by the segments still to match,
    [segments.slice(segIdx)]; the index answered, [segIdx + 1], by the
    segments after the first. *)
Definition _matchStatic (child : RadixNode) (remaining : list string)
  : option (list string) :=
  match remaining with
  | [] => None
  | segment :: rest =>
      if String.eqb (label child) segment then Some rest else None
  end.

(** The [for (const child of node.children)] loop of [_search];
    [rec] is the recursive call [this._search(child, ...)]. *)
Definition staticLoop
    (rec : RadixNode → list string → gmap string string
           → option MatchResult * gmap string string)
    (remaining : list string)
  : list RadixNode → gmap string string
    → option MatchResult * gmap string string :=
  fix loop (cs : list RadixNode) (params : gmap string string) :=
    match cs with
    | [] => (None, params)
    | child :: cs' =>
        match _matchStatic child remaining with
        | Some next =>
            match rec child next params with
            | (Some result, params') => (Some result, params')
            | (None, params') => loop cs' params'
            end
        | None => loop cs' params
        end
    end.

(** The [if (node.paramChild)] block of [_search]. *)
Definition paramStep
    (rec : RadixNode → list string → gmap string string
           → option MatchResult * gmap string string)
    (pc : option RadixNode) (segment : string) (rest : list string)
    (params : gmap string string)
  : option MatchResult * gmap string string :=
  match pc with
  | Some p =>
      let name := default "null" (paramName p) in
      match rec p rest (Js.assign name segment params) with
      | (Some result, params') => (Some result, params')
      | (None, params') => (None, delete name params')
      end
  | None => (None, params)
  end.

(** The [if (node.wildcardChild)] block of [_search]. *)
Definition wildcardStep (wc : option RadixNode) (remaining : list string)
    (params : gmap string string) (method : string)
  : option MatchResult * gmap string string :=
  match wc with
  | Some w =>
      let wildcardValue := Js.join remaining in
      let params' := Js.assign "*" wildcardValue params in
      match handlers w !! method with
      | Some route =>
          (Some (mkMatch (handler route) params' (middleware route)), params')
      | None => (None, delete "*" params')
      end
  | None => (None, params)
  end.

(** [_search(node, segments, segIdx, params, method)].  [params] is one
    object mutated along the whole search: it is threaded through, and
    the result comes with the object as the call leaves it. *)
Fixpoint _search (method : string) (node : RadixNode) (remaining : list string)
    (params : gmap string string) {struct node}
  : option MatchResult * gmap string string :=
  match node with
  | mkNode _ cs hs _ _ pc wc =>
      match remaining with
      | [] =>
          match hs !! method with
          | Some route =>
              (Some (mkMatch (handler route) params (middleware route)), params)
          | None => (None, params)
          end
      | segment :: rest =>
          match staticLoop (_search method) remaining cs params with
          | (Some result, params1) => (Some result, params1)
          | (None, params1) =>
              match paramStep (_search method) pc segment rest params1 with
              | (Some result, params2) => (Some result, params2)
              | (None, params2) => wildcardStep wc remaining params2 method
              end
          end
      end
  end.

(** The tree-walk part of [find]: split the path and search from the
    root with fresh [params]. *)
Definition treeWalk (r : Router) (method path : string) : option MatchResult :=
  fst (_search method (root r) (_splitPath path) ∅).

(** [find(method, path)] *)
Definition find (r : Router) (method path : string) : option MatchResult :=
  let method := Js.toUpperCase method in
  match staticRoutes r !! staticKey method path with
  | Some staticMatch =>
      Some (mkMatch (handler staticMatch) ∅ (middleware staticMatch))
  | None => treeWalk r method path
  end.

(** ** The middleware chain ([src/middleware.js]) *)

Module MiddlewareChain.

(** [MiddlewareLayer]: [{ path, fn }], [path] being [null] for a global
    layer. *)
Record MiddlewareLayer := mkLayer {
  path : option string;
  fn : Fn
}.

(** The two normalisation steps of [add] on a non-null [path]. *)
Definition normalize (p : string) : string :=
  let p1 := if Js.truthy p && negb (Js.startsWith "/" p) then "/" +:+ p else p in
  if Js.truthy p1 && Js.endsWithSlash p1 && (1 <? Js.len p1)%nat
  then Js.dropLast p1 else p1.

(** [add(path, fn)] on [this.layers]. *)
Definition add (layers : list MiddlewareLayer) (p : option string) (f : Fn)
  : list MiddlewareLayer :=
  layers ++ [mkLayer (normalize <$> p) f].

(** The test of the first loop of [resolve]. *)
Definition applies (requestPath : string) (layer : MiddlewareLayer) : bool :=
  match path layer with
  | None => true
  | Some p => String.eqb requestPath p || Js.startsWith (p +:+ "/") requestPath
  end.

(** [resolve(requestPath, routeMiddleware)]: both loops [push] onto
    [applicable]. *)
Definition resolve (layers : list MiddlewareLayer) (requestPath : string)
    (routeMiddleware : list Fn) : list Fn :=
  let applicable :=
    fold_left (λ acc layer,
                 if applies requestPath layer then acc ++ [fn layer] else acc)
              layers [] in
  fold_left (λ acc f, acc ++ [f]) routeMiddleware applicable.

(** *** [execute]

    The functions handed to [execute] are callbacks; what [execute]
    does depends on what they do with [res] and [next].  A callback is
    described by the sequence of things it does during its call and by
    how the call ends. *)

(** A value passed to [next] or thrown: [if (err)] looks at its
    truthiness only; [ident] tells values apart. *)
Record JsValue := mkValue {
  truthy : bool;
  ident : nat
}.

(** [next()] passes [undefined]. *)
Definition undefined : JsValue := mkValue false 0.

(** What a middleware function does, step by step: call [next(err)],
    send the response (which sets [res.sent]), or [await], which ends
    the synchronous part of the call and leaves the rest to run from
    the event loop. *)
Inductive Action :=
| CallNext (err : JsValue)
| Send
| Await.

(** How a call ends: it returns (a value that is not a rejected
    promise), it throws, or it returns a promise that rejects. *)
Inductive Completion :=
| Returns
| Throws (e : JsValue)
| Rejects (e : JsValue).

(** A middleware function [(req, res, next) => ...]. *)
Record Middleware := mkMiddleware {
  body : list Action;
  completion : Completion
}.

(** The route handler [(req, res) => ...]: it has no [next]. *)
Record Handler := mkHandler {
  h_sends : bool;
  h_completion : Completion
}.

(** The arguments of [execute].  The error handler is described by
    whether it sends the response for a given error, and is taken to
    return normally; [initiallySent] is [res.sent] when [execute] is
    called.  [res.sent] is only ever set, by sending. *)
Record Config := mkConfig {
  middlewareFns : list Middleware;
  routeHandler : Handler;
  errorHandler : JsValue → bool;
  initiallySent : bool
}.

(** What [execute] invokes. *)
Inductive Event :=
| EvMiddleware (i : nat)
| EvHandler
| EvError (e : JsValue).

(** A middleware call in progress: what is left of its body, how it
    will end, and whether it has passed an [await] (after which a
    [throw] is a rejection of the promise it returned). *)
Record Frame := mkFrame {
  todo : list Action;
  ending : Completion;
  resumed : bool
}.

(** Callbacks waiting on the event loop: the rest of a middleware
    after an [await], the [result.catch(...)] callback of a middleware
    (which calls [next(asyncErr)]), and that of the handler (which
    calls [errorHandler]). *)
Inductive Task :=
| Resume (f : Frame)
| MiddlewareRejected (e : JsValue)
| HandlerRejected (e : JsValue).

(** The state of one [execute] call: the closure variable [idx],
    [res.sent], the calls in progress (innermost first), the pending
    callbacks, and the invocations so far (oldest first). *)
Record State := mkState {
  idx : nat;
  sent : bool;
  stack : list Frame;
  queue : list Task;
  trace : list Event
}.

(** [errorHandler(err, req, res)] *)
Definition callErrorHandler (cfg : Config) (e : JsValue) (st : State) : State :=
  mkState (idx st) (sent st || errorHandler cfg e) (stack st) (queue st)
          (trace st ++ [EvError e]).

(** The [try { handler(req, res) ... } catch ...] block of [next]. *)
Definition callHandler (cfg : Config) (st : State) : State :=
  let st1 :=
    mkState (idx st) (sent st || h_sends (routeHandler cfg)) (stack st)
            (queue st) (trace st ++ [EvHandler]) in
  match h_completion (routeHandler cfg) with
  | Returns => st1
  | Throws e => callErrorHandler cfg e st1
  | Rejects e =>
      mkState (idx st1) (sent st1) (stack st1)
              (queue st1 ++ [HandlerRejected e]) (trace st1)
  end.

(** The closure [next(err)], up to the point where it has called
    [errorHandler], returned, called [handler], or entered
    [middlewareFns[idx++]]. *)
Definition next (cfg : Config) (err : JsValue) (st : State) : State :=
  if truthy err then callErrorHandler cfg err st
  else if sent st then st
  else if (length (middlewareFns cfg) <=? idx st)%nat then callHandler cfg st
  else
    match middlewareFns cfg !! idx st with
    | Some f =>
        mkState (S (idx st)) (sent st)
                (mkFrame (body f) (completion f) false :: stack st)
                (queue st) (trace st ++ [EvMiddleware (idx st)])
    | None => st
    end.

(** [execute(middlewareFns, req, res, handler, errorHandler)]:
    [idx = 0] and the first [next()]. *)
Definition execute (cfg : Config) : State :=
  next cfg undefined (mkState 0 (initiallySent cfg) [] [] []).

Definition popFrame (st : State) (rest : list Frame) : State :=
  mkState (idx st) (sent st) rest (queue st) (trace st).

Definition enqueue (t : Task) (st : State) : State :=
  mkState (idx st) (sent st) (stack st) (queue st ++ [t]) (trace st).

(** One step of the innermost call in progress. *)
Definition stepFrame (cfg : Config) (f : Frame) (rest : list Frame)
    (st : State) : State :=
  match todo f with
  | CallNext err :: acts =>
      next cfg err (popFrame st (mkFrame acts (ending f) (resumed f) :: rest))
  | Send :: acts =>
      mkState (idx st) true (mkFrame acts (ending f) (resumed f) :: rest)
              (queue st) (trace st)
  | Await :: acts =>
      enqueue (Resume (mkFrame acts (ending f) true)) (popFrame st rest)
  | [] =>
      match ending f with
      | Returns => popFrame st rest
      | Throws e =>
          if resumed f then enqueue (MiddlewareRejected e) (popFrame st rest)
          else next cfg e (popFrame st rest)
      | Rejects e => enqueue (MiddlewareRejected e) (popFrame st rest)
      end
  end.

(** Running one pending callback once the calls in progress are over. *)
Definition runTask (cfg : Config) (t : Task) (others : list Task)
    (st : State) : State :=
  let st' := mkState (idx st) (sent st) (stack st) others (trace st) in
  match t with
  | Resume f => mkState (idx st') (sent st') [f] (queue st') (trace st')
  | MiddlewareRejected e => next cfg e st'
  | HandlerRejected e => callErrorHandler cfg e st'
  end.

(** The steps of an execution.  The event loop may run the pending
    callbacks in any order. *)
Inductive step (cfg : Config) : State → State → Prop :=
| step_frame st f rest :
    stack st = f :: rest →
    step cfg st (stepFrame cfg f rest st)
| step_task st pre t post :
    stack st = [] →
    queue st = pre ++ t :: post →
    step cfg st (runTask cfg t (pre ++ post) st).

(** The states an [execute] call goes through. *)
Inductive reachable (cfg : Config) : State → Prop :=
| reach_execute : reachable cfg (execute cfg)
| reach_step st st' : reachable cfg st → step cfg st st' → reachable cfg st'.

(** The same steps as a function, the pending callbacks being run in
    the order in which they were queued; [None] when nothing is left
    to do. *)
Definition stepFifo (cfg : Config) (st : State) : option State :=
  match stack st with
  | f :: rest => Some (stepFrame cfg f rest st)
  | [] =>
      match queue st with
      | t :: others => Some (runTask cfg t others st)
      | [] => None
      end
  end.

(** [n] steps from [st], stopping early when nothing is left to do. *)
Fixpoint runFifo (cfg : Config) (n : nat) (st : State) : State :=
  match n with
  | 0 => st
  | S n' =>
      match stepFifo cfg st with
      | Some st' => runFifo cfg n' st'
      | None => st
      end
  end.

(** The invocations made by [execute] within [n] steps. *)
Definition traceAfter (cfg : Config) (n : nat) : list Event :=
  trace (runFifo cfg n (execute cfg)).

End MiddlewareChain.

(** * Specification vocabulary and reasoning principles *)

(** Induction on a node with the hypothesis available for the static
    children, the parametric child and the wildcard child. *)
Section RadixNode_induction.
Variable P : RadixNode → Prop.
Hypothesis node_case :
  ∀ l cs hs pn iw pc wc,
    Forall P cs →
    (∀ p, pc = Some p → P p) →
    (∀ w, wc = Some w → P w) →
    P (mkNode l cs hs pn iw pc wc).

Fixpoint RadixNode_nested_ind (n : RadixNode) : P n :=
  match n with
  | mkNode l cs hs pn iw pc wc =>
      node_case l cs hs pn iw pc wc
        ((fix all (cs : list RadixNode) : Forall P cs :=
            match cs with
            | [] => @ListDef.Forall_nil RadixNode P
            | c :: cs' =>
                @ListDef.Forall_cons RadixNode P c cs' (RadixNode_nested_ind c) (all cs')
            end) cs)
        (match pc as o return ∀ p, o = Some p → P p with
         | Some p0 => λ p H, eq_ind p0 P (RadixNode_nested_ind p0) p (f_equal (default p0) H)
         | None => λ p H, False_ind _ (eq_ind None (λ o, match o with Some _ => False | None => True end) I _ H)
         end)
        (match wc as o return ∀ w, o = Some w → P w with
         | Some w0 => λ w H, eq_ind w0 P (RadixNode_nested_ind w0) w (f_equal (default w0) H)
         | None => λ w H, False_ind _ (eq_ind None (λ o, match o with Some _ => False | None => True end) I _ H)
         end)
  end.
End RadixNode_induction.


(** Values bound to parameters are non-empty strings. *)
Definition nonempty (s : string) : Prop := s ≠ "".

Definition values_nonempty (params : gmap string string) : Prop :=
  map_Forall (λ _ v, nonempty v) params.

Definition result_nonempty (out : option MatchResult * gmap string string) : Prop :=
  values_nonempty out.2 ∧
  match out.1 with Some res => values_nonempty (m_params res) | None => True end.

(** *** Matching precedence, as a specification

    The precedence rule in words: at every node, for the segments still
    to match, an exact static match is preferred, then the parametric
    child, then the wildcard child.  [precedence] follows these words
    without any mutable [params] object: it answers the registered entry
    together with the bindings made along the path that succeeded, from
    the node downwards. *)

Definition firstStatic
    (rec : RadixNode → list string → option (RouteEntry * list (string * string)))
    (segment : string) (rest : list string)
  : list RadixNode → option (RouteEntry * list (string * string)) :=
  fix first (cs : list RadixNode) :=
    match cs with
    | [] => None
    | child :: cs' =>
        if String.eqb (label child) segment then
          match rec child rest with
          | Some found => Some found
          | None => first cs'
          end
        else first cs'
    end.

Fixpoint precedence (method : string) (node : RadixNode) (remaining : list string)
    {struct node} : option (RouteEntry * list (string * string)) :=
  match node with
  | mkNode _ cs hs _ _ pc wc =>
      match remaining with
      | [] =>
          match hs !! method with
          | Some e => Some (e, [])
          | None => None
          end
      | segment :: rest =>
          match firstStatic (precedence method) segment rest cs with
          | Some found => Some found
          | None =>
              let viaParam :=
                match pc with
                | Some p =>
                    match precedence method p rest with
                    | Some (e, bound) =>
                        Some (e, (default "null" (paramName p), segment) :: bound)
                    | None => None
                    end
                | None => None
                end in
              match viaParam with
              | Some found => Some found
              | None =>
                  match wc with
                  | Some w =>
                      match handlers w !! method with
                      | Some e => Some (e, [("*", Js.join remaining)])
                      | None => None
                      end
                  | None => None
                  end
              end
          end
      end
  end.

(** What it means for a call of [_search], started with the [params]
    object holding [before], to follow the precedence rule: on success it
    answers the entry the rule selects and its [params] hold nothing but
    bindings of the successful path (or what was there before); on
    failure the rule selects nothing and the [params] object is left
    with no binding that was not there before. *)
Definition follows_precedence (before : gmap string string)
    (out : option MatchResult * gmap string string)
    (expected : option (RouteEntry * list (string * string))) : Prop :=
  match out.1, expected with
  | Some res, Some (e, bound) =>
      m_handler res = handler e ∧ m_middleware res = middleware e ∧
      out.2 = m_params res ∧
      ∀ k v, m_params res !! k = Some v → (k, v) ∈ bound ∨ before !! k = Some v
  | None, None => out.2 ⊆ before
  | _, _ => False
  end.

(** Registering a list of routes in order, keeping the router whatever
    each call answers. *)
Definition registerAll (routes : list (string * string * list Fn * Fn))
    (r : Router) : Router :=
  fold_left (λ r '(method, path, mw, h), (add r method path mw h).1) routes r.

(** The routes [/users/me] (handler 1) and [/users/:id] (handler 2),
    both for GET. *)
Definition usersRoutes : list (string * string * list Fn * Fn) :=
  [("GET", "/users/me", [], 1); ("GET", "/users/:id", [], 2)].

(** The routes of [usersRoutes] followed by the static route
    [/users/m] (handler 3), whose registration splits the edge ["me"]. *)
Definition usersRoutesSplit : list (string * string * list Fn * Fn) :=
  usersRoutes ++ [("GET", "/users/m", [], 3)].

(** The parametric route [/files/:name] (handler 1) and the catch-all
    [/*] (handler 2), both for GET. *)
Definition catchAllRoutes : list (string * string * list Fn * Fn) :=
  [("GET", "/files/:name", [], 1); ("GET", "/*", [], 2)].

(** The same followed by the static route [/fil] (handler 3), whose
    registration splits the edge ["files"]. *)
Definition catchAllRoutesSplit : list (string * string * list Fn * Fn) :=
  catchAllRoutes ++ [("GET", "/fil", [], 3)].

(** The routes [/apple] (handler 1) and [/app] (handler 2), both for
    GET: the second registration splits the edge of the first. *)
Definition appleRoutes : list (string * string * list Fn * Fn) :=
  [("GET", "/apple", [], 1); ("GET", "/app", [], 2)].

(** The routes [/files/*] (handler 1) and [/files/:name] (handler 2),
    both for GET. *)
Definition filesRoutes : list (string * string * list Fn * Fn) :=
  [("GET", "/files/*", [], 1); ("GET", "/files/:name", [], 2)].

(** Every registration of the list returns normally when made in order
    from [r]. *)
Fixpoint allSucceed (routes : list (string * string * list Fn * Fn))
    (r : Router) : bool :=
  match routes with
  | [] => true
  | (method, path, mw, h) :: rest =>
      match add r method path mw h with
      | (r', None) => allSucceed rest r'
      | (_, Some _) => false
      end
  end.

(** *** Malformed route patterns, in words

    A parameter segment with an empty name is the segment [":"]; a
    wildcard segment that is not last is a segment ["*"] followed by at
    least one more segment. *)
Definition offendingAt (segment : string) (after : list string) : Prop :=
  segment = ":" ∨ (segment = "*" ∧ after ≠ []).

Definition malformed (segments : list string) : Prop :=
  ∃ before segment after,
    segments = before ++ segment :: after ∧ offendingAt segment after.

(** Whether the walk of [add] over [segments], from [node], meets a
    parameter segment at a node that already has a parametric child of
    another name, before it meets a parameter segment with an empty name
    or a ["*"]. *)
Fixpoint clashes (segments : list string) (node : RadixNode) : bool :=
  match segments with
  | [] => false
  | segment :: rest =>
      if Js.startsWith ":" segment then
        if Js.truthy (Js.slice 1 segment) then
          match paramChild node with
          | Some pc =>
              if bool_decide (paramName pc = Some (Js.slice 1 segment))
              then clashes rest pc else true
          | None => clashes rest (newParamNode segment (Js.slice 1 segment))
          end
        else false
      else if String.eqb segment "*" then false
      else clashes rest (_insertStatic_returns node segment)
  end.

Definition isInvalidRoute (t : Thrown) : Prop :=
  ∃ why, t = Some (InvalidRouteError why).

Definition isRouteError (t : Thrown) : Prop :=
  isInvalidRoute t ∨ t = Some RouteConflictError.

(** *** Where a registered route sits in the tree

    A route pattern, segment by segment, as [add] reads it. *)
Inductive PatternStep :=
| Static (segment : string)
| Param (name : string)
| Wild.

(** The steps of a well-formed list of segments; [None] for the lists
    on which [add] throws [InvalidRouteError]. *)
Fixpoint classify (segments : list string) : option (list PatternStep) :=
  match segments with
  | [] => Some []
  | segment :: rest =>
      if Js.startsWith ":" segment then
        if Js.truthy (Js.slice 1 segment) then
          cons (Param (Js.slice 1 segment)) <$> classify rest
        else None
      else if String.eqb segment "*" then
        match rest with
        | [] => Some [Wild]
        | _ :: _ => None
        end
      else cons (Static segment) <$> classify rest
  end.

(** Following a static segment down the compressed edges without
    changing anything: the property [Q] holds of the node at which the
    segment ends. *)
Definition reachLoop (Q : RadixNode → Prop) (rec : RadixNode → string → Prop)
    (segment : string) : list RadixNode → Prop :=
  fix loop (cs : list RadixNode) : Prop :=
    match cs with
    | [] => False
    | child :: rest =>
        let commonLen := _commonPrefixLength (label child) segment in
        if (commonLen =? 0)%nat then loop rest
        else if (commonLen =? Js.len (label child))%nat
                && (commonLen =? Js.len segment)%nat then Q child
        else if (commonLen =? Js.len (label child))%nat then
          rec child (Js.slice commonLen segment)
        else False
    end.

Fixpoint reachStatic (Q : RadixNode → Prop) (parent : RadixNode)
    (segment : string) {struct parent} : Prop :=
  match parent with
  | mkNode _ cs _ _ _ _ _ => reachLoop Q (reachStatic Q) segment cs
  end.

(** [holds method e steps node]: following [steps] from [node] ends at
    a node whose entry for [method] is [e]. *)
Fixpoint holds (method : string) (e : RouteEntry) (steps : list PatternStep)
    (node : RadixNode) {struct steps} : Prop :=
  match steps with
  | [] => handlers node !! method = Some e
  | Static segment :: rest => reachStatic (holds method e rest) node segment
  | Param name :: rest =>
      ∃ pc, paramChild node = Some pc ∧ paramName pc = Some name
            ∧ holds method e rest pc
  | Wild :: rest =>
      ∃ w, wildcardChild node = Some w ∧ holds method e rest w
  end.

(** *** Middleware resolution, in words

    The layers that apply to a request path, in registration order,
    followed by the route-level middleware. *)
Definition resolved (layers : list MiddlewareChain.MiddlewareLayer)
    (requestPath : string) (routeMiddleware : list Fn) : list Fn :=
  (MiddlewareChain.fn <$>
     List.filter (MiddlewareChain.applies requestPath) layers)
  ++ routeMiddleware.

(** A sequence of [add] calls on a new [MiddlewareChain]. *)
Definition addAll (calls : list (option string * Fn))
  : list MiddlewareChain.MiddlewareLayer :=
  fold_left (λ layers '(p, f), MiddlewareChain.add layers p f) calls [].

(** A layer is global, or scoped to a prefix that is the request path
    or is followed by ["/"] in it. *)
Definition inScope (requestPath : string)
    (layer : MiddlewareChain.MiddlewareLayer) : Prop :=
  match MiddlewareChain.path layer with
  | None => True
  | Some prefix =>
      requestPath = prefix ∨ ∃ more, requestPath = prefix +:+ "/" +:+ more
  end.

(** *** Chain execution, in words *)

Definition isError (ev : MiddlewareChain.Event) : Prop :=
  ∃ e, ev = MiddlewareChain.EvError e.

(** How many more times a middleware call in progress will call its
    continuation: the [next(...)] calls left in its body, and one more
    if it ends by throwing or by rejecting, since [execute] then calls
    [next] with what was thrown. *)
Definition callsLeft (f : MiddlewareChain.Frame) : nat :=
  length (List.filter (λ a, match a with
                            | MiddlewareChain.CallNext _ => true
                            | _ => false
                            end) (MiddlewareChain.todo f))
  + match MiddlewareChain.ending f with
    | MiddlewareChain.Returns => 0
    | _ => 1
    end.

Definition taskCallsLeft (t : MiddlewareChain.Task) : nat :=
  match t with
  | MiddlewareChain.Resume f => callsLeft f
  | MiddlewareChain.MiddlewareRejected _ => 1
  | MiddlewareChain.HandlerRejected _ => 0
  end.

Definition sumOf {A} (f : A → nat) (l : list A) : nat :=
  fold_right (λ x n, f x + n) 0 l.

(** The continuation calls still to come in a state. *)
Definition callsPending (st : MiddlewareChain.State) : nat :=
  sumOf callsLeft (MiddlewareChain.stack st)
  + sumOf taskCallsLeft (MiddlewareChain.queue st).

(** The rejections of the handler's promise still to be delivered. *)
Definition handlerRejections (st : MiddlewareChain.State) : nat :=
  sumOf (λ t, match t with
              | MiddlewareChain.HandlerRejected _ => 1
              | _ => 0
              end) (MiddlewareChain.queue st).

(** No middleware function calls its continuation more than once. *)
Definition callsOnce (cfg : MiddlewareChain.Config) : Prop :=
  Forall (λ m, callsLeft (MiddlewareChain.mkFrame (MiddlewareChain.body m)
                            (MiddlewareChain.completion m) false) ≤ 1)%nat
         (MiddlewareChain.middlewareFns cfg).

(** How far a chain has got: still in the middleware functions, stopped
    by an error, past the handler, past the handler and its failure. *)
Inductive Progress :=
| Running
| Errored (e : MiddlewareChain.JsValue)
| Done
| DoneErrored (e : MiddlewareChain.JsValue).

(** What has been invoked after the middleware functions. *)
Definition afterMiddleware (p : Progress) : list MiddlewareChain.Event :=
  match p with
  | Running => []
  | Errored e => [MiddlewareChain.EvError e]
  | Done => [MiddlewareChain.EvHandler]
  | DoneErrored e => [MiddlewareChain.EvHandler; MiddlewareChain.EvError e]
  end.

(** The invocations of a chain whose first [n] middleware functions
    have been entered and that has got as far as [p]. *)
Definition invocations (n : nat) (p : Progress) : list MiddlewareChain.Event :=
  (MiddlewareChain.EvMiddleware <$> seq 0 n) ++ afterMiddleware p.

(** The handler's failure, when the chain is past it. *)
Definition genuine (cfg : MiddlewareChain.Config) (p : Progress) : Prop :=
  match p with
  | DoneErrored e =>
      MiddlewareChain.h_completion (MiddlewareChain.routeHandler cfg)
        = MiddlewareChain.Throws e
      ∨ MiddlewareChain.h_completion (MiddlewareChain.routeHandler cfg)
        = MiddlewareChain.Rejects e
  | _ => True
  end.

(** The invariant of an execution in which no middleware calls its
    continuation more than once. *)
Definition orderly (cfg : MiddlewareChain.Config) (st : MiddlewareChain.State)
  : Prop :=
  ∃ p,
    MiddlewareChain.trace st = invocations (MiddlewareChain.idx st) p
    ∧ genuine cfg p
    ∧ (∀ e, In (MiddlewareChain.HandlerRejected e) (MiddlewareChain.queue st) →
            MiddlewareChain.h_completion (MiddlewareChain.routeHandler cfg)
              = MiddlewareChain.Rejects e)
    ∧ match p with
      | Running => (callsPending st ≤ 1)%nat ∧ handlerRejections st = 0
      | Done => callsPending st = 0 ∧ (handlerRejections st ≤ 1)%nat
      | Errored _ | DoneErrored _ =>
          callsPending st = 0 ∧ handlerRejections st = 0
      end.

(** A truthy value to throw or to pass to [next]. *)
Definition boom : MiddlewareChain.JsValue := MiddlewareChain.mkValue true 1.

(** No middleware, a handler that throws, an error handler that does
    not send. *)
Definition throwingHandler : MiddlewareChain.Config :=
  MiddlewareChain.mkConfig []
    (MiddlewareChain.mkHandler false (MiddlewareChain.Throws boom))
    (λ _, false) false.

(** One middleware that calls [next(err)] and then [next()], a handler
    that returns, an error handler that does not send. *)
Definition callsTwice : MiddlewareChain.Config :=
  MiddlewareChain.mkConfig
    [MiddlewareChain.mkMiddleware
       [MiddlewareChain.CallNext boom;
        MiddlewareChain.CallNext MiddlewareChain.undefined]
       MiddlewareChain.Returns]
    (MiddlewareChain.mkHandler false MiddlewareChain.Returns)
    (λ _, false) false.

(** One middleware that calls [next()] once, a handler that sends and
    then returns a promise that rejects, an error handler that sends. *)
Definition wellBehaved : MiddlewareChain.Config :=
  MiddlewareChain.mkConfig
    [MiddlewareChain.mkMiddleware
       [MiddlewareChain.CallNext MiddlewareChain.undefined]
       MiddlewareChain.Returns]
    (MiddlewareChain.mkHandler true (MiddlewareChain.Rejects boom))
    (λ _, true) false.

(** A first middleware that sends the response and then calls
    [next()], a second middleware, a handler. *)
Definition sendsThenContinues : MiddlewareChain.Config :=
  MiddlewareChain.mkConfig
    [MiddlewareChain.mkMiddleware
       [MiddlewareChain.Send;
        MiddlewareChain.CallNext MiddlewareChain.undefined]
       MiddlewareChain.Returns;
     MiddlewareChain.mkMiddleware
       [MiddlewareChain.CallNext MiddlewareChain.undefined]
       MiddlewareChain.Returns]
    (MiddlewareChain.mkHandler true MiddlewareChain.Returns)
    (λ _, true) false.



(** * Further vocabulary *)

(** A path segment as [_splitPath] answers them: not empty and without
    ["/"]. *)
Definition isSegment (s : string) : Prop :=
  s ≠ "" ∧ Js.includes "/" s = false.

(** A prefix written without a slash at either end, such as ["api"] or
    ["api/v1"]. *)
Definition bareprefix (s : string) : Prop :=
  s ≠ "" ∧ Js.startsWith "/" s = false ∧ Js.endsWithSlash s = false.

(** The entry [e] is stored for [method] at the node or somewhere
    below it. *)
Inductive stored (method : string) (e : RouteEntry) : RadixNode → Prop :=
| stored_here n :
    handlers n !! method = Some e → stored method e n
| stored_static n c :
    In c (children n) → stored method e c → stored method e n
| stored_param n c :
    paramChild n = Some c → stored method e c → stored method e n
| stored_wildcard n c :
    wildcardChild n = Some c → stored method e c → stored method e n.

(** A call of [add], by its arguments. *)
Definition registers (call : string * string * list Fn * Fn)
    (method : string) (e : RouteEntry) : Prop :=
  let '(m, _, mw, h) := call in Js.toUpperCase m = method ∧ e = mkEntry h mw.

Definition caches (call : string * string * list Fn * Fn)
    (key : string) (e : RouteEntry) : Prop :=
  let '(m, p, mw, h) := call in
  key = staticKey (Js.toUpperCase m) p ∧ e = mkEntry h mw.

(** Everything the router holds was given to one of the [calls]. *)
Definition holdsOnly (calls : list (string * string * list Fn * Fn))
    (r : Router) : Prop :=
  (∀ key e, staticRoutes r !! key = Some e →
            ∃ call, In call calls ∧ caches call key e)
  ∧ (∀ method e, stored method e (root r) →
                 ∃ call, In call calls ∧ registers call method e).

(** Labels no two of which begin alike. *)
Fixpoint apart (labels : list string) : Prop :=
  match labels with
  | [] => True
  | l :: rest => Forall (λ x, _commonPrefixLength l x = 0%nat) rest ∧ apart rest
  end.

(** The shape that [add] keeps the tree in: below every node the
    static children have non-empty labels no two of which share a
    prefix; the parametric child is named after its label [":name"], its
    name not empty; the wildcard child is labelled ["*"] and flagged. *)
Inductive compact : RadixNode → Prop :=
| compact_node n :
    Forall compact (children n) →
    Forall (λ c, label c ≠ "") (children n) →
    apart (label <$> children n) →
    (∀ p, paramChild n = Some p → compact p) →
    (∀ p, paramChild n = Some p →
          ∃ name, name ≠ "" ∧ paramName p = Some name ∧ label p = ":" +:+ name) →
    (∀ w, wildcardChild n = Some w → compact w) →
    (∀ w, wildcardChild n = Some w → label w = "*" ∧ isWildcard w = true) →
    compact n.

(** Matching the segments of a request path against the steps of one
    route pattern, from the [params] given: a static step takes the same
    segment, a parameter step takes any segment and binds it to its
    name, a final wildcard step takes all the segments left, at least
    one, and binds them joined by ["/"] to ["*"]. *)
Fixpoint bind (steps : list PatternStep) (segments : list string)
    (params : gmap string string) : option (gmap string string) :=
  match steps, segments with
  | [], [] => Some params
  | Static s :: steps', segment :: rest =>
      if String.eqb s segment then bind steps' rest params else None
  | Param name :: steps', segment :: rest =>
      bind steps' rest (<[name := segment]> params)
  | [Wild], segment :: rest =>
      Some (<["*" := Js.join (segment :: rest)]> params)
  | _, _ => None
  end.

(** A node as [new RadixNode(...)] leaves it, whatever its label. *)
Definition bare (n : RadixNode) : Prop :=
  children n = [] ∧ handlers n = ∅ ∧ paramChild n = None ∧ wildcardChild n = None.

(** The middleware functions entered, by index, in the order of a
    trace. *)
Definition entered (tr : list MiddlewareChain.Event) : list nat :=
  flat_map (λ ev, match ev with
                  | MiddlewareChain.EvMiddleware i => [i]
                  | _ => []
                  end) tr.

(** How often the handler was invoked in a trace. *)
Definition handlerRuns (tr : list MiddlewareChain.Event) : nat :=
  length (List.filter (λ ev, match ev with
                             | MiddlewareChain.EvHandler => true
                             | _ => false
                             end) tr).

(** What every state of an execution satisfies, whatever the callbacks
    do: the index never passes the array, the functions entered are the
    first [idx] ones in order, and the handler has run only if all of
    them were entered. *)
Definition inOrder (cfg : MiddlewareChain.Config)
    (st : MiddlewareChain.State) : Prop :=
  MiddlewareChain.idx st <= length (MiddlewareChain.middlewareFns cfg)
  ∧ entered (MiddlewareChain.trace st) = seq 0 (MiddlewareChain.idx st)
  ∧ (0 < handlerRuns (MiddlewareChain.trace st) →
     MiddlewareChain.idx st = length (MiddlewareChain.middlewareFns cfg)).

Section ChainShapes.
Import MiddlewareChain.

(** A middleware function that passes control on without an error:
    it calls [next()], or [next(v)] with a falsy [v], and returns; or it
    throws a falsy value, which [execute] catches and hands to [next]. *)
Definition passesOn (m : Middleware) : Prop :=
  ∃ v, truthy v = false
       ∧ ((body m = [CallNext v] ∧ completion m = Returns)
          ∨ (body m = [] ∧ completion m = Throws v)).

(** What the error handler is invoked with on account of how the
    handler's call ends. *)
Definition reported (c : Completion) : list Event :=
  match c with
  | Returns => []
  | Throws e => [EvError e]
  | Rejects e => [EvError e]
  end.

(** A call that has nothing left to do but return. *)
Definition returning : Frame := mkFrame [] Returns false.

(** The call of the middleware function at index [k]. *)
Definition callOf (cfg : Config) (k : nat) : Frame :=
  match middlewareFns cfg !! k with
  | Some m => mkFrame (body m) (completion m) false
  | None => returning
  end.

(** The state in which the function at index [k] has just been
    entered, [j] of the calls before it being still in progress. *)
Definition entering (cfg : Config) (j k : nat) : State :=
  mkState (S k) false (callOf cfg k :: replicate j returning) []
          (EvMiddleware <$> seq 0 (S k)).

(** The state in which the handler has just been called, [j] of the
    calls of the middleware functions being still in progress. *)
Definition handling (cfg : Config) (j : nat) : State :=
  callHandler cfg
    (mkState (length (middlewareFns cfg)) false (replicate j returning) []
             (EvMiddleware <$> seq 0 (length (middlewareFns cfg)))).

(** What holds throughout an execution in which the function at index
    [k] never calls its continuation and no function calls it twice. *)
Definition haltedAt (k : nat) (st : State) : Prop :=
  idx st <= S k
  ∧ callsPending st <= 1
  ∧ (idx st = S k → callsPending st = 0)
  ∧ handlerRuns (trace st) = 0.

(** A middleware function that calls [next()], one that throws
    [undefined], and a handler whose promise rejects. *)
Definition throwsNothing : Config :=
  mkConfig
    [mkMiddleware [CallNext undefined] Returns;
     mkMiddleware [] (Throws undefined)]
    (mkHandler true (Rejects boom))
    (λ _, true) false.

(** Three middleware functions, the second of which answers the request
    itself and does not call [next]. *)
Definition answersItself : Config :=
  mkConfig
    [mkMiddleware [CallNext undefined] Returns;
     mkMiddleware [Send] Returns;
     mkMiddleware [CallNext undefined] Returns]
    (mkHandler true Returns)
    (λ _, true) false.

End ChainShapes.


(** * Properties of the string helpers *)

(** ** [_splitPath] *)

Lemma split_no_separator c path :
  Forall (λ s, Js.includes c s = false) (Js.split c path).
Proof.
  induction path as [|x path IH]; simpl.
  - by constructor.
  - destruct (Ascii.eqb x c) eqn:Hx.
    + by constructor.
    + destruct (Js.split c path) as [|w ws].
      { constructor; [simpl; by rewrite Hx | constructor]. }
      apply Forall_cons_1 in IH as [Hw Hws].
      constructor; [|done]. simpl. by rewrite Hx, Hw.
Qed.

(** X1. Every segment that [_splitPath] answers is non-empty and has
    no ["/"] in it, whatever the path: leading, trailing and doubled
    slashes give no segment. *)
Theorem _splitPath_segments path : Forall isSegment (_splitPath path).
Proof.
  unfold _splitPath. apply List.Forall_forall. intros s Hs.
  apply List.filter_In in Hs as [Hin Hs]. split.
  - intros ->. discriminate.
  - pose proof (split_no_separator "/" path) as H.
    rewrite List.Forall_forall in H. by apply H.
Qed.

Lemma split_without_separator c s :
  Js.includes c s = false → Js.split c s = [s].
Proof.
  induction s as [|x s IH]; simpl; [done|].
  intros H. apply orb_false_iff in H as [Hx Hs].
  by rewrite Hx, (IH Hs).
Qed.

Lemma split_separator c rest :
  Js.split c (String c rest) = "" :: Js.split c rest.
Proof. simpl. by rewrite Ascii.eqb_refl. Qed.

Lemma split_append c s rest :
  Js.includes c s = false →
  Js.split c (s +:+ String c rest) = s :: Js.split c rest.
Proof.
  induction s as [|x s IH]; intros H.
  - change ("" +:+ String c rest) with (String c rest). simpl.
    by rewrite Ascii.eqb_refl.
  - simpl in H. apply orb_false_iff in H as [Hx Hs].
    change (String x s +:+ String c rest) with (String x (s +:+ String c rest)).
    simpl. by rewrite Hx, (IH Hs).
Qed.

Lemma split_join segments :
  segments ≠ [] → Forall isSegment segments →
  Js.split "/" (Js.join segments) = segments.
Proof.
  induction segments as [|s [|s' rest] IH]; intros Hne Hall; [done| |].
  - apply Forall_cons_1 in Hall as [[_ Hs] _]. simpl.
    by apply split_without_separator.
  - apply Forall_cons_1 in Hall as [[_ Hs] Hrest].
    change (Js.join (s :: s' :: rest))
      with (s +:+ String "/" (Js.join (s' :: rest))).
    rewrite split_append by done. f_equal. by apply IH.
Qed.

(** X2. Joining segments with ["/"] behind a leading ["/"] and
    splitting the path again gives the segments back, for any list of
    non-empty segments without ["/"]; a trailing ["/"] changes nothing. *)
Theorem _splitPath_join segments :
  Forall isSegment segments →
  _splitPath ("/" +:+ Js.join segments) = segments
  ∧ _splitPath ("/" +:+ Js.join segments +:+ "/") = segments.
Proof.
  intros Hall.
  assert (List.filter Js.truthy segments = segments) as Hkeep.
  { clear -Hall. induction Hall as [|s rest [Hs _] _ IH]; [done|].
    simpl. destruct s; [done|]. simpl. by rewrite IH. }
  destruct segments as [|s rest]; [by split|].
  unfold _splitPath. split.
  - change ("/" +:+ Js.join (s :: rest)) with (String "/" (Js.join (s :: rest))).
    rewrite split_separator, split_join by done.
    change (List.filter Js.truthy ("" :: s :: rest))
      with (List.filter Js.truthy (s :: rest)). exact Hkeep.
  - change ("/" +:+ Js.join (s :: rest) +:+ "/")
      with (String "/" (Js.join (s :: rest) +:+ "/")).
    rewrite split_separator.
    assert (Js.split "/" (Js.join (s :: rest) +:+ "/") = (s :: rest) ++ [""])
      as ->.
    { clear Hkeep. revert s Hall.
      induction rest as [|s' rest IH]; intros s Hall.
      - apply Forall_cons_1 in Hall as [[_ Hs] _].
        change (Js.join [s] +:+ "/") with (s +:+ String "/" "").
        by rewrite split_append.
      - apply Forall_cons_1 in Hall as [[_ Hs] Hrest].
        change (Js.join (s :: s' :: rest))
          with (s +:+ String "/" (Js.join (s' :: rest))).
        assert (∀ a b c : string, (a +:+ b) +:+ c = a +:+ (b +:+ c)) as Hassoc.
        { intros a b c. induction a as [|x a IHa]; [done|].
          change (String x ((a +:+ b) +:+ c) = String x (a +:+ (b +:+ c))).
          by f_equal. }
        rewrite Hassoc.
        change (String "/" (Js.join (s' :: rest)) +:+ "/")
          with (String "/" (Js.join (s' :: rest) +:+ "/")).
        rewrite split_append by done. by rewrite (IH s' Hrest). }
    change (List.filter Js.truthy ("" :: (s :: rest) ++ [""]))
      with (List.filter Js.truthy ((s :: rest) ++ [""])).
    rewrite List.filter_app. change (List.filter Js.truthy [""]) with (@nil string).
    rewrite app_nil_r. exact Hkeep.
Qed.

Lemma _splitPath_join_witness :
  Forall isSegment ["users"; "42"; "posts"]
  ∧ _splitPath ("/" +:+ Js.join ["users"; "42"; "posts"]) = ["users"; "42"; "posts"].
Proof.
  assert (Forall isSegment ["users"; "42"; "posts"]) as H.
  { repeat constructor; discriminate. }
  split; [exact H|]. apply (_splitPath_join ["users"; "42"; "posts"] H).
Defined.

(** ** [_commonPrefixLength] *)

Lemma commonPrefix_agrees a b :
  Js.slice_to (_commonPrefixLength a b) a = Js.slice_to (_commonPrefixLength a b) b.
Proof.
  revert b. induction a as [|x a IH]; intros [|y b]; simpl; try done.
  destruct (Ascii.eqb_spec x y) as [->|]; [|done]. simpl. by rewrite IH.
Qed.

Lemma commonPrefix_longest a b m :
  (m ≤ Js.len a)%nat → (m ≤ Js.len b)%nat →
  Js.slice_to m a = Js.slice_to m b →
  (m ≤ _commonPrefixLength a b)%nat.
Proof.
  revert a b. induction m as [|m IH]; intros a b Ha Hb Heq; [lia|].
  destruct a as [|x a], b as [|y b]; unfold Js.len in *; simpl in *; try lia.
  injection Heq as -> Heq. rewrite Ascii.eqb_refl.
  apply le_n_S. apply IH; unfold Js.len; try lia. done.
Qed.

Lemma commonPrefix_sym a b : _commonPrefixLength a b = _commonPrefixLength b a.
Proof.
  revert b. induction a as [|x a IH]; intros [|y b]; simpl; try done.
  rewrite (Ascii.eqb_sym y x). destruct (Ascii.eqb x y); [|done]. by rewrite IH.
Qed.

(** X3. [_commonPrefixLength(a, b)] is the length of the longest
    common prefix: it is at most both lengths, the two strings agree on
    that many first characters, they agree on no more, and the order of
    the arguments does not matter. *)
Theorem _commonPrefixLength_longest a b :
  (_commonPrefixLength a b ≤ Js.len a)%nat
  ∧ (_commonPrefixLength a b ≤ Js.len b)%nat
  ∧ Js.slice_to (_commonPrefixLength a b) a = Js.slice_to (_commonPrefixLength a b) b
  ∧ (∀ m, (m ≤ Js.len a)%nat → (m ≤ Js.len b)%nat →
          Js.slice_to m a = Js.slice_to m b →
          (m ≤ _commonPrefixLength a b)%nat)
  ∧ _commonPrefixLength a b = _commonPrefixLength b a.
Proof.
  assert (∀ a b, (_commonPrefixLength a b ≤ Js.len a)%nat) as Hle.
  { clear. intros a. induction a as [|x a IH]; intros [|y b]; simpl; try lia.
    destruct (Ascii.eqb x y); [specialize (IH b)|]; unfold Js.len in *; simpl; lia. }
  repeat split.
  - apply Hle.
  - rewrite commonPrefix_sym. apply Hle.
  - apply commonPrefix_agrees.
  - apply commonPrefix_longest.
  - apply commonPrefix_sym.
Qed.

(** ** The prefix normalisation of [MiddlewareChain.add] *)

Lemma endsWithSlash_cons c s :
  s ≠ "" → Js.endsWithSlash (String c s) = Js.endsWithSlash s.
Proof. by destruct s. Qed.

Lemma dropLast_cons c s :
  s ≠ "" → Js.dropLast (String c s) = String c (Js.dropLast s).
Proof. by destruct s. Qed.

Lemma endsWithSlash_append s : Js.endsWithSlash (s +:+ "/") = true.
Proof.
  induction s as [|c s IH]; [done|].
  change (String c s +:+ "/") with (String c (s +:+ "/")).
  rewrite endsWithSlash_cons; [done|]. by destruct s.
Qed.

Lemma dropLast_append s : Js.dropLast (s +:+ "/") = s.
Proof.
  induction s as [|c s IH]; [done|].
  change (String c s +:+ "/") with (String c (s +:+ "/")).
  rewrite dropLast_cons; [by rewrite IH|]. by destruct s.
Qed.

Lemma normalize_slashed s :
  Js.endsWithSlash s = false → s ≠ "" →
  MiddlewareChain.normalize (String "/" s) = String "/" s
  ∧ MiddlewareChain.normalize (String "/" (s +:+ "/")) = String "/" s.
Proof.
  intros Hend Hne. unfold MiddlewareChain.normalize. split.
  - change (Js.startsWith "/" (String "/" s)) with true. cbn [negb andb Js.truthy].
    by rewrite endsWithSlash_cons, Hend.
  - change (Js.startsWith "/" (String "/" (s +:+ "/"))) with true.
    cbn [negb andb Js.truthy].
    assert (s +:+ "/" ≠ "") as Hne' by (by destruct s).
    rewrite endsWithSlash_cons, endsWithSlash_append by done.
    rewrite dropLast_cons, dropLast_append by done.
    destruct s; [done|]. reflexivity.
Qed.

Lemma cut_keeps_slash q :
  Js.startsWith "/" q = true →
  Js.startsWith "/"
    (if Js.truthy q && Js.endsWithSlash q && (1 <? Js.len q)%nat
     then Js.dropLast q else q) = true.
Proof.
  intros H. destruct q as [|c [|d q]]; [done| |].
  - change ((1 <? Js.len (String c ""))%nat) with false.
    by rewrite andb_false_r.
  - destruct (_ && _ && _); [|done]. by rewrite dropLast_cons.
Qed.

(** The four ways of writing a prefix come to the same. *)
Lemma normalize_spellings p :
  bareprefix p →
  MiddlewareChain.normalize p = "/" +:+ p
  ∧ MiddlewareChain.normalize ("/" +:+ p) = "/" +:+ p
  ∧ MiddlewareChain.normalize (p +:+ "/") = "/" +:+ p
  ∧ MiddlewareChain.normalize ("/" +:+ p +:+ "/") = "/" +:+ p.
Proof.
  intros (Hne & Hstart & Hend).
  destruct (normalize_slashed p Hend Hne) as [H1 H2].
  repeat split; try done.
  - unfold MiddlewareChain.normalize at 1. rewrite Hstart.
    destruct p as [|c p]; [done|]. cbn [negb andb Js.truthy]. exact H1.
  - unfold MiddlewareChain.normalize at 1.
    assert (Js.startsWith "/" (p +:+ "/") = false) as ->.
    { destruct p as [|c p]; [done|]. exact Hstart. }
    assert (Js.truthy (p +:+ "/") = true) as -> by (by destruct p).
    cbn [negb andb]. exact H2.
Qed.

(** X4. The prefix that [add] stores for a scoped layer: a prefix
    written [p], ["/" p], [p "/"] or ["/" p "/"], with [p] free of slashes at
    its ends, is stored as ["/" p], and the root ["/"] as itself; every
    non-empty prefix is stored with a leading ["/"]; the empty string is
    stored as it is; and only one trailing ["/"] is taken off, so that a
    prefix given with two keeps one. *)
Theorem add_normalizes_prefix :
  (∀ p, bareprefix p →
        MiddlewareChain.normalize p = "/" +:+ p
        ∧ MiddlewareChain.normalize ("/" +:+ p) = "/" +:+ p
        ∧ MiddlewareChain.normalize (p +:+ "/") = "/" +:+ p
        ∧ MiddlewareChain.normalize ("/" +:+ p +:+ "/") = "/" +:+ p)
  ∧ MiddlewareChain.normalize "/" = "/"
  ∧ MiddlewareChain.normalize "" = ""
  ∧ (∀ p, p ≠ "" → Js.startsWith "/" (MiddlewareChain.normalize p) = true)
  ∧ (∀ p, p ≠ "" → Js.endsWithSlash p = true →
          Js.endsWithSlash (MiddlewareChain.normalize (p +:+ "/")) = true).
Proof.
  split; [|split; [|split; [|split]]]; try reflexivity.
  - apply normalize_spellings.
  - intros p Hne. unfold MiddlewareChain.normalize. apply cut_keeps_slash.
    destruct p as [|c p]; [done|].
    change (Js.truthy (String c p)) with true. cbn [andb].
    by destruct (Js.startsWith "/" (String c p)) eqn:Hstart.
  - intros p Hne Hend.
    assert (p +:+ "/" ≠ "") as Hne' by (by destruct p).
    assert (∀ q, q ≠ "" → Js.endsWithSlash q = true →
                 Js.endsWithSlash
                   (if Js.truthy (String "/" (q +:+ "/"))
                       && Js.endsWithSlash (String "/" (q +:+ "/"))
                       && (1 <? Js.len (String "/" (q +:+ "/")))%nat
                    then Js.dropLast (String "/" (q +:+ "/"))
                    else String "/" (q +:+ "/")) = true) as Hcut.
    { intros q Hq Hqend.
      assert (q +:+ "/" ≠ "") as Hq' by (by destruct q).
      rewrite endsWithSlash_cons, endsWithSlash_append by done.
      cbn [Js.truthy andb].
      assert ((1 <? Js.len (String "/" (q +:+ "/")))%nat = true) as ->.
      { destruct q; [done|]. reflexivity. }
      rewrite dropLast_cons, dropLast_append by done.
      by rewrite endsWithSlash_cons. }
    unfold MiddlewareChain.normalize.
    assert (Js.truthy (p +:+ "/") = true) as -> by (by destruct p).
    destruct (Js.startsWith "/" (p +:+ "/")) eqn:Hstart; cbn [negb andb].
    + destruct p as [|c p]; [done|].
      change (String c p +:+ "/") with (String c (p +:+ "/")) in *.
      assert (c = "/"%char) as ->.
      { unfold Js.startsWith in Hstart. apply andb_true_iff in Hstart as [Hc _].
        symmetry. by apply Ascii.eqb_eq. }
      destruct p as [|d p].
      * reflexivity.
      * apply (Hcut (String d p)); [done|].
        by rewrite endsWithSlash_cons in Hend.
    + change ("/" +:+ p +:+ "/") with (String "/" (p +:+ "/")).
      by apply Hcut.
Qed.
(** * Properties *)

(** The equations of [_search]. *)
Lemma _search_exhausted method node params :
  _search method node [] params =
  match handlers node !! method with
  | Some route => (Some (mkMatch (handler route) params (middleware route)), params)
  | None => (None, params)
  end.
Proof. destruct node; reflexivity. Qed.

Lemma _search_segment method node segment rest params :
  _search method node (segment :: rest) params =
  match staticLoop (_search method) (segment :: rest) (children node) params with
  | (Some result, params1) => (Some result, params1)
  | (None, params1) =>
      match paramStep (_search method) (paramChild node) segment rest params1 with
      | (Some result, params2) => (Some result, params2)
      | (None, params2) =>
          wildcardStep (wildcardChild node) (segment :: rest) params2 method
      end
  end.
Proof. destruct node; reflexivity. Qed.

(** ** Assignment to the [params] object *)

Lemma assign_star value obj : Js.assign "*" value obj = <["*" := value]> obj.
Proof. reflexivity. Qed.

Lemma assign_ordinary key value obj :
  key ≠ "__proto__" → Js.assign key value obj = <[key := value]> obj.
Proof.
  intros Hkey. unfold Js.assign.
  destruct (String.eqb_spec key "__proto__"); [done|reflexivity].
Qed.

(** An assignment binds the key, or leaves the object alone. *)
Lemma assign_cases key value obj :
  Js.assign key value obj = <[key := value]> obj
  ∨ (Js.assign key value obj = obj ∧ obj !! key = None).
Proof.
  unfold Js.assign. destruct (String.eqb key "__proto__"); [|by left].
  case_bool_decide; [by right | by left].
Qed.

Lemma assign_Forall (P : string → string → Prop) key value obj :
  P key value → map_Forall P obj → map_Forall P (Js.assign key value obj).
Proof.
  intros Hkv Hobj. destruct (assign_cases key value obj) as [->|[-> _]];
    [by apply map_Forall_insert_2 | done].
Qed.

Lemma lookup_assign_Some key value obj k v :
  Js.assign key value obj !! k = Some v →
  (k = key ∧ v = value) ∨ obj !! k = Some v.
Proof.
  destruct (assign_cases key value obj) as [->|[-> _]]; [|by right].
  intros H. apply lookup_insert_Some in H as [[<- <-]|[_ H]]; auto.
Qed.

(** Taking the key off again leaves nothing that was not there. *)
Lemma delete_assign_subseteq key value obj after before :
  after ⊆ Js.assign key value obj → obj ⊆ before → delete key after ⊆ before.
Proof.
  intros Hafter Hobj. apply map_subseteq_spec. intros k v Hk.
  apply lookup_delete_Some in Hk as [Hne Hk].
  eapply lookup_weaken in Hk; [|exact Hafter].
  apply lookup_assign_Some in Hk as [[-> _]|Hk]; [done|].
  by eapply lookup_weaken.
Qed.

(** ** Values bound by a search are never empty *)

Lemma _splitPath_nonempty path : Forall nonempty (_splitPath path).
Proof.
  unfold _splitPath. apply List.Forall_forall. intros s Hs.
  apply List.filter_In in Hs as [_ Hs]. intros ->. discriminate.
Qed.

Lemma join_nonempty segment rest : nonempty segment → nonempty (Js.join (segment :: rest)).
Proof.
  intros H. destruct segment as [|c s]; [contradiction|].
  destruct rest; simpl; discriminate.
Qed.

Lemma staticLoop_nonempty rec remaining cs :
  Forall (λ c, ∀ segs params, Forall nonempty segs → values_nonempty params →
                              result_nonempty (rec c segs params)) cs →
  ∀ params, Forall nonempty remaining → values_nonempty params →
            result_nonempty (staticLoop rec remaining cs params).
Proof.
  induction 1 as [|c cs Hc _ IH]; intros params Hsegs Hp; simpl.
  - split; [exact Hp | exact I].
  - unfold _matchStatic. destruct remaining as [|segment rest]; [simpl; by apply IH|].
    destruct (String.eqb (label c) segment); [|simpl; by apply IH].
    pose proof Hsegs as Hsegs'. apply Forall_cons_1 in Hsegs' as [_ Hrest].
    specialize (Hc rest params Hrest Hp).
    destruct (rec c rest params) as [[res|] params'].
    + exact Hc.
    + apply IH; [exact Hsegs | apply Hc].
Qed.

Lemma _search_nonempty method node :
  ∀ segs params, Forall nonempty segs → values_nonempty params →
                 result_nonempty (_search method node segs params).
Proof.
  induction node as [l cs hs pn iw pc wc IHcs IHpc IHwc] using RadixNode_nested_ind.
  intros [|segment rest] params Hsegs Hp.
  - rewrite _search_exhausted. simpl.
    destruct (hs !! method); split; simpl; auto.
  - rewrite _search_segment. simpl.
    pose proof (staticLoop_nonempty (_search method) (segment :: rest) cs IHcs
                  params Hsegs Hp) as Hs.
    destruct (staticLoop _ _ cs params) as [[res|] params1]; [exact Hs|].
    destruct Hs as [Hp1 _]. simpl in Hp1.
    apply Forall_cons_1 in Hsegs as [Hseg Hrest].
    assert (Hpar : result_nonempty
                     (paramStep (_search method) pc segment rest params1)).
    { unfold paramStep. destruct pc as [p|]; [|split; simpl; auto].
      specialize (IHpc p eq_refl rest
                    (Js.assign (default "null" (paramName p)) segment params1)
                    Hrest).
      destruct (_search method p rest _) as [[res|] params2].
      - apply IHpc. by apply assign_Forall.
      - split; [|exact I]. simpl. apply map_Forall_delete.
        apply IHpc. by apply assign_Forall. }
    destruct (paramStep _ pc segment rest params1) as [[res|] params2]; [exact Hpar|].
    destruct Hpar as [Hp2 _]. simpl in Hp2.
    unfold wildcardStep. rewrite assign_star.
    destruct wc as [w|]; [|split; simpl; auto].
    assert (values_nonempty (<["*" := Js.join (segment :: rest)]> params2)).
    { apply map_Forall_insert_2; [by apply join_nonempty | exact Hp2]. }
    destruct (handlers w !! method); split; simpl; auto.
    by apply map_Forall_delete.
Qed.

(** C10. With no segment left, [_search] answers from the current
    node's own handlers and never consults the wildcard child; so the
    wildcard route [/files/*] does not match [/files], and in every
    result of [find] the value bound to ["*"] is non-empty. *)
Theorem wildcard_never_matches_empty_remainder :
  (∀ method node w params,
      _search method (setWildcardChild w node) [] params =
      _search method node [] params)
  ∧ (∀ method mw h,
        find (add emptyRouter method "/files/*" mw h).1 method "/files" = None)
  ∧ (∀ r method path res v,
        find r method path = Some res →
        m_params res !! "*" = Some v →
        v ≠ "").
Proof.
  split; [|split].
  - intros. rewrite !_search_exhausted. reflexivity.
  - intros method mw h. unfold find, add. simpl.
    rewrite lookup_empty. unfold treeWalk. simpl.
    rewrite lookup_empty. simpl. reflexivity.
  - intros r method path res v Hfind Hv. unfold find in Hfind.
    destruct (staticRoutes r !! _) as [e|].
    + inversion Hfind; subst. simpl in Hv. by rewrite lookup_empty in Hv.
    + unfold treeWalk in Hfind.
      pose proof (_search_nonempty (Js.toUpperCase method) (root r)
                    (_splitPath path) ∅ (_splitPath_nonempty path)
                    (map_Forall_empty _)) as [_ H].
      rewrite Hfind in H. exact (H "*" v Hv).
Qed.

(** ** Matching precedence and parameter roll-back *)

Lemma precedence_exhausted method node :
  precedence method node [] =
  match handlers node !! method with Some e => Some (e, []) | None => None end.
Proof. destruct node; reflexivity. Qed.

Lemma precedence_segment method node segment rest :
  precedence method node (segment :: rest) =
  match firstStatic (precedence method) segment rest (children node) with
  | Some found => Some found
  | None =>
      match
        match paramChild node with
        | Some p =>
            match precedence method p rest with
            | Some (e, bound) =>
                Some (e, (default "null" (paramName p), segment) :: bound)
            | None => None
            end
        | None => None
        end
      with
      | Some found => Some found
      | None =>
          match wildcardChild node with
          | Some w =>
              match handlers w !! method with
              | Some e => Some (e, [("*", Js.join (segment :: rest))])
              | None => None
              end
          | None => None
          end
      end
  end.
Proof. destruct node; reflexivity. Qed.

Lemma follows_precedence_weaken before before' out expected :
  before ⊆ before' →
  follows_precedence before out expected →
  follows_precedence before' out expected.
Proof.
  unfold follows_precedence. intros Hsub.
  destruct out.1 as [res|], expected as [[e bound]|]; try done.
  - intros (? & ? & ? & H). repeat split; try done.
    intros k v Hk. destruct (H k v Hk) as [?|Hb]; [by left|right].
    by eapply lookup_weaken.
  - intros H. by etrans.
Qed.

Lemma staticLoop_follows method segment rest cs :
  Forall (λ c, ∀ segs params,
            follows_precedence params (_search method c segs params)
                               (precedence method c segs)) cs →
  ∀ params,
    follows_precedence params
      (staticLoop (_search method) (segment :: rest) cs params)
      (firstStatic (precedence method) segment rest cs).
Proof.
  induction 1 as [|c cs Hc _ IH]; intros params; simpl.
  - unfold follows_precedence. simpl. done.
  - destruct (String.eqb (label c) segment); [|apply IH].
    specialize (Hc rest params). unfold follows_precedence in Hc.
    destruct (_search method c rest params) as [[res|] params'];
      destruct (precedence method c rest) as [[e bound]|]; simpl in Hc; try done.
    eapply follows_precedence_weaken; [exact Hc | apply IH].
Qed.

Lemma paramStep_follows method pc segment rest params :
  (∀ p, pc = Some p → ∀ segs params,
      follows_precedence params (_search method p segs params)
                         (precedence method p segs)) →
  follows_precedence params
    (paramStep (_search method) pc segment rest params)
    (match pc with
     | Some p =>
         match precedence method p rest with
         | Some (e, bound) =>
             Some (e, (default "null" (paramName p), segment) :: bound)
         | None => None
         end
     | None => None
     end).
Proof.
  intros IHpc.
  unfold paramStep. destruct pc as [p|]; [|unfold follows_precedence; by simpl].
  specialize (IHpc p eq_refl rest
                (Js.assign (default "null" (paramName p)) segment params)).
  unfold follows_precedence in IHpc |- *.
  destruct (_search method p rest _) as [[res|] params2];
    destruct (precedence method p rest) as [[e bound]|];
    simpl in IHpc |- *; try done.
  - destruct IHpc as (? & ? & ? & H). repeat split; try done.
    intros k v Hk. destruct (H k v Hk) as [?|Hb]; [left; by right|].
    apply lookup_assign_Some in Hb as [[-> ->]|Hb];
      [left; by left | by right].
  - by eapply delete_assign_subseteq.
Qed.

Lemma _search_follows_precedence method node :
  ∀ segs params,
    follows_precedence params (_search method node segs params)
                       (precedence method node segs).
Proof.
  induction node as [l cs hs pn iw pc wc IHcs IHpc IHwc] using RadixNode_nested_ind.
  intros [|segment rest] params.
  - rewrite _search_exhausted, precedence_exhausted. simpl.
    unfold follows_precedence. destruct (hs !! method); simpl; [|done].
    repeat split; try done. intros k v Hk. by right.
  - rewrite _search_segment, precedence_segment.
    cbn [children paramChild wildcardChild handlers].
    pose proof (staticLoop_follows method segment rest cs IHcs params) as Hs.
    unfold follows_precedence in Hs.
    destruct (staticLoop _ _ cs params) as [[res|] params1];
      destruct (firstStatic _ segment rest cs) as [[e bound]|];
      simpl in Hs; try done.
    (* the static children failed: the parametric child *)
    pose proof (paramStep_follows method pc segment rest params1 IHpc) as Hpar.
    unfold follows_precedence in Hpar.
    destruct (paramStep _ pc segment rest params1) as [[res|] params2];
      destruct (match pc with Some _ => _ | None => _ end) as [[e bound]|];
      simpl in Hpar; try done.
    { eapply follows_precedence_weaken; [exact Hs|]. unfold follows_precedence.
      simpl. exact Hpar. }
    (* the parametric child failed: the wildcard child *)
    assert (Hsub : params2 ⊆ params) by (by etrans).
    unfold wildcardStep, follows_precedence. rewrite assign_star.
    destruct wc as [w|]; simpl; [|done].
    destruct (handlers w !! method) as [e|]; simpl.
    + repeat split; try done. intros k v Hk.
      apply lookup_insert_Some in Hk as [[<- <-]|[_ Hk]].
      * left. by left.
      * right. by eapply lookup_weaken.
    + apply map_subseteq_spec. intros k v Hk.
      apply lookup_delete_Some in Hk as [Hne Hk].
      rewrite lookup_insert_ne in Hk by done. by eapply lookup_weaken.
Qed.

(** X13. At every node [_search] follows the precedence exact static
    match, then parametric match, then wildcard match, whatever the
    [params] object holds; a search that fails leaves in [params] no
    binding that it made, so that the [params] of a result hold only
    bindings of the successful path; a fully static route found in the
    cache is answered before any parametric or wildcard route; and with
    [/users/me] and [/users/:id] registered for GET in either order,
    [/users/me] finds the static handler and [/users/42] the parametric
    one with [id] bound to ["42"]. *)
Theorem matching_precedence_and_rollback :
  (∀ method node segs params,
      follows_precedence params (_search method node segs params)
                         (precedence method node segs))
  ∧ (∀ r method path e,
        staticRoutes r !! staticKey (Js.toUpperCase method) path = Some e →
        find r method path = Some (mkMatch (handler e) ∅ (middleware e)))
  ∧ (∀ r method path,
        staticRoutes r !! staticKey (Js.toUpperCase method) path = None →
        match find r method path,
              precedence (Js.toUpperCase method) (root r) (_splitPath path) with
        | Some res, Some (e, bound) =>
            m_handler res = handler e ∧ m_middleware res = middleware e ∧
            ∀ k v, m_params res !! k = Some v → (k, v) ∈ bound
        | None, None => True
        | _, _ => False
        end)
  ∧ (∀ r, r = registerAll usersRoutes emptyRouter
          ∨ r = registerAll (rev usersRoutes) emptyRouter →
          find r "GET" "/users/me" = Some (mkMatch 1 ∅ [])
          ∧ find r "GET" "/users/42" = Some (mkMatch 2 {["id" := "42"]} [])).
Proof.
  split; [|split; [|split]].
  - intros. apply _search_follows_precedence.
  - intros r method path e He. unfold find. by rewrite He.
  - intros r method path Hmiss. unfold find, treeWalk. rewrite Hmiss.
    pose proof (_search_follows_precedence (Js.toUpperCase method) (root r)
                  (_splitPath path) ∅) as H.
    unfold follows_precedence in H.
    destruct (_search _ (root r) (_splitPath path) ∅) as [[res|] params'];
      destruct (precedence _ (root r) (_splitPath path)) as [[e bound]|];
      simpl in H |- *; try done.
    destruct H as (? & ? & _ & H). repeat split; try done.
    intros k v Hk. destruct (H k v Hk) as [?|Hb]; [done|].
    by rewrite lookup_empty in Hb.
  - intros r [-> | ->]; split; vm_compute; reflexivity.
Qed.

(** C4 (the more specific route is lost after an edge split).  With
    GET [/users/me] and GET [/users/:id] registered, [/users/me/] is
    answered by the static route; once the static route [/users/m] is
    registered as well, which splits the edge ["me"] into ["m"] and
    ["e"], the same path is answered by the parametric route with [id]
    bound to ["me"]: the static route no longer wins.  Likewise, with
    GET [/files/:name] and GET [/*] registered, [/files/a] is answered
    by the parametric route; once [/fil] is registered, which splits
    the edge ["files"], it is answered by the wildcard route.  Every
    registration returns normally. *)
Theorem specific_route_lost_after_split :
  allSucceed usersRoutesSplit emptyRouter = true
  ∧ find (registerAll usersRoutes emptyRouter) "GET" "/users/me/"
    = Some (mkMatch 1 ∅ [])
  ∧ find (registerAll usersRoutesSplit emptyRouter) "GET" "/users/me/"
    = Some (mkMatch 2 {["id" := "me"]} [])
  ∧ allSucceed catchAllRoutesSplit emptyRouter = true
  ∧ find (registerAll catchAllRoutes emptyRouter) "GET" "/files/a"
    = Some (mkMatch 1 {["name" := "a"]} [])
  ∧ find (registerAll catchAllRoutesSplit emptyRouter) "GET" "/files/a"
    = Some (mkMatch 2 {["*" := "files/a"]} []).
Proof. repeat split; vm_compute; reflexivity. Qed.

(** ** The static cache and the tree *)

(** C1 (the tree does not keep up with the cache).  After the two
    successful registrations of GET [/apple] and GET [/app], the static
    cache holds [/apple] with handler 1, and [find] answers it from the
    cache, but the search of the tree for GET [/apple] finds nothing:
    [_insertStatic] has split the edge ["apple"] into ["app"] and
    ["le"], and [_matchStatic] compares a whole segment with one edge
    label. *)
Theorem static_cache_disagrees_with_tree :
  let r := registerAll appleRoutes emptyRouter in
  allSucceed appleRoutes emptyRouter = true
  ∧ staticRoutes r !! staticKey "GET" "/apple" = Some (mkEntry 1 [])
  ∧ find r "GET" "/apple" = Some (mkMatch 1 ∅ [])
  ∧ treeWalk r "GET" "/apple" = None
  ∧ (label <$> children (root r)) = ["app"]
  ∧ (children (root r) ≫= λ c, label <$> children c) = ["le"].
Proof. vm_compute. repeat split; reflexivity. Qed.

(** ** Wildcard routes *)

Lemma staticLoop_none method segment rest cs :
  Forall (λ c, ∀ segs params,
            follows_precedence params (_search method c segs params)
                               (precedence method c segs)) cs →
  firstStatic (precedence method) segment rest cs = None →
  ∀ params, ∃ params',
    staticLoop (_search method) (segment :: rest) cs params = (None, params')
    ∧ params' ⊆ params.
Proof.
  intros Hcs Hnone params.
  pose proof (staticLoop_follows method segment rest cs Hcs params) as H.
  rewrite Hnone in H. unfold follows_precedence in H.
  destruct (staticLoop _ _ cs params) as [[res|] params']; simpl in H; [done|].
  by exists params'.
Qed.

(** The counterexample to C8 as stated: with [/files/*] and
    [/files/:name] both registered for GET, the path [/files/a] (the
    prefix followed by one segment) is answered by the parametric route,
    not by the wildcard route. *)
Lemma wildcard_loses_to_parametric :
  let r := registerAll filesRoutes emptyRouter in
  allSucceed filesRoutes emptyRouter = true
  ∧ find r "GET" "/files/a" = Some (mkMatch 2 {["name" := "a"]} [])
  ∧ ¬ ∃ res, find r "GET" "/files/a" = Some res
             ∧ m_handler res = 1 ∧ m_params res !! "*" = Some "a".
Proof.
  vm_compute. repeat split; try reflexivity.
  intros (res & Hres & Hh & _). inversion Hres; subst. discriminate.
Qed.

(** C8, amended.  When the search stands at the parent of a wildcard
    node with at least one segment left, the wildcard node holds an entry
    for the method, and neither a static child nor the parametric child
    leads to a match for the segments left, the search answers the
    wildcard's entry with ["*"] bound to the segments left joined by
    ["/"], next to bindings that [params] already held; nothing below
    the wildcard node is looked at (any wildcard node with the same
    entry gives the same answer).  With only
    [/files/*] registered, every path made of [files] and at least one
    more segment is answered that way, [/files/a/b/c.txt] with
    ["a/b/c.txt"]. *)
Theorem wildcard_binds_remaining_segments :
  (∀ method node w e segment rest params,
      wildcardChild node = Some w →
      handlers w !! method = Some e →
      firstStatic (precedence method) segment rest (children node) = None →
      (∀ p, paramChild node = Some p → precedence method p rest = None) →
      ∃ kept, kept ⊆ params ∧
        (_search method node (segment :: rest) params).1 =
        Some (mkMatch (handler e) (<["*" := Js.join (segment :: rest)]> kept)
                      (middleware e)))
  ∧ (∀ method mw h path segment rest,
        _splitPath path = "files" :: segment :: rest →
        find (add emptyRouter method "/files/*" mw h).1 method path =
        Some (mkMatch h {["*" := Js.join (segment :: rest)]} mw))
  ∧ find (add emptyRouter "GET" "/files/*" [] 1).1 "GET" "/files/a/b/c.txt" =
    Some (mkMatch 1 {["*" := "a/b/c.txt"]} []).
Proof.
  split; [|split].
  - intros method node w e segment rest params Hw He Hstatic Hparam.
    rewrite _search_segment.
    destruct (staticLoop_none method segment rest (children node)) with (params := params)
      as (params1 & -> & Hsub1); [|exact Hstatic|].
    { apply List.Forall_forall. intros c _ segs ps.
      apply _search_follows_precedence. }
    pose proof (paramStep_follows method (paramChild node) segment rest params1
                  (λ p _, _search_follows_precedence method p)) as Hpar.
    assert (match paramChild node with
            | Some p =>
                match precedence method p rest with
                | Some (e, bound) =>
                    Some (e, (default "null" (paramName p), segment) :: bound)
                | None => None
                end
            | None => None
            end = None) as Hnone.
    { destruct (paramChild node) as [p|]; [|done]. by rewrite (Hparam p eq_refl). }
    rewrite Hnone in Hpar. unfold follows_precedence in Hpar.
    destruct (paramStep _ _ segment rest params1) as [[res|] params2];
      simpl in Hpar; [done|].
    exists params2. split; [by etrans|].
    unfold wildcardStep. rewrite Hw, He. reflexivity.
  - intros method mw h path segment rest Hsplit.
    unfold find, add, treeWalk. cbn -[Js.join].
    rewrite lookup_empty, Hsplit. cbn -[Js.join].
    rewrite lookup_insert_eq. reflexivity.
  - vm_compute. reflexivity.
Qed.

(** ** What [add] throws *)

Lemma _insertStatic_unfold k parent segment :
  _insertStatic k parent segment =
  let '(cs', t) := insertLoop k (_insertStatic k) segment (children parent) in
  (setChildren cs' parent, t).
Proof. destruct parent; reflexivity. Qed.

(** Whatever the continuation throws on every node is what
    [_insertStatic] throws: the method itself never throws. *)
Lemma insertLoop_thrown (P : Thrown → Prop) k rec segment cs :
  (∀ n, P (k n).2) →
  Forall (λ c, ∀ s, P (rec c s).2) cs →
  P (insertLoop k rec segment cs).2.
Proof.
  intros Hk. induction 1 as [|c cs Hc _ IH]; simpl.
  - specialize (Hk (newNode segment)). by destruct (k (newNode segment)).
  - repeat case_match; simpl in *; subst;
      try match goal with
          | H : k ?n = (_, ?t) |- P ?t => by (specialize (Hk n); rewrite H in Hk)
          | H : rec c ?s = (_, ?t) |- P ?t => by (specialize (Hc s); rewrite H in Hc)
          end; done.
Qed.

Lemma _insertStatic_thrown (P : Thrown → Prop) k :
  (∀ n, P (k n).2) →
  ∀ parent segment, P (_insertStatic k parent segment).2.
Proof.
  intros Hk parent.
  induction parent as [l cs hs pn iw pc wc IHcs _ _] using RadixNode_nested_ind.
  intros segment. rewrite _insertStatic_unfold. simpl.
  pose proof (insertLoop_thrown P k (_insertStatic k) segment cs Hk IHcs) as H.
  by destruct (insertLoop _ _ segment cs).
Qed.

Lemma walk_nil method entry node :
  walk method entry [] node =
  match handlers node !! method with
  | Some _ => (node, Some RouteConflictError)
  | None => (setHandlers (<[method := entry]> (handlers node)) node, None)
  end.
Proof. reflexivity. Qed.

Lemma walk_cons method entry segment rest node :
  walk method entry (segment :: rest) node =
  if Js.startsWith ":" segment then
    let name := Js.slice 1 segment in
    if negb (Js.truthy name) then
      (node, Some (InvalidRouteError EmptyParameterName))
    else
      match paramChild node with
      | None =>
          let '(c, t) := walk method entry rest (newParamNode segment name) in
          (setParamChild c node, t)
      | Some pc =>
          if negb (bool_decide (paramName pc = Some name)) then
            (node, Some RouteConflictError)
          else
            let '(c, t) := walk method entry rest pc in
            (setParamChild c node, t)
      end
  else if String.eqb segment "*" then
    match rest with
    | _ :: _ => (node, Some (InvalidRouteError WildcardNotLast))
    | [] =>
        let wc := match wildcardChild node with
                  | None => newWildcardNode
                  | Some w => w
                  end in
        let '(c, t) := walk method entry rest wc in
        (setWildcardChild c node, t)
    end
  else
    _insertStatic (walk method entry rest) node segment.
Proof. reflexivity. Qed.

Lemma walk_malformed (P : Thrown → Prop) method entry before segment after :
  (∀ why, P (Some (InvalidRouteError why))) →
  offendingAt segment after →
  Forall (λ s, Js.startsWith ":" s = false ∨ P (Some RouteConflictError)) before →
  ∀ node, P (walk method entry (before ++ segment :: after) node).2.
Proof.
  intros Hinv Hbad. induction 1 as [|s before Hs _ IH]; intros node.
  - destruct Hbad as [-> | [-> Hafter]]; simpl.
    + apply Hinv.
    + destruct after; [done|]. apply Hinv.
  - change ((s :: before) ++ segment :: after)
      with (s :: (before ++ segment :: after)).
    rewrite walk_cons. cbv zeta. destruct (Js.startsWith ":" s) eqn:Hcolon.
    + destruct Hs as [?|Hconf]; [done|].
      destruct (negb (Js.truthy (Js.slice 1 s))); [apply Hinv|].
      destruct (paramChild node) as [pc|].
      * destruct (negb (bool_decide (paramName pc = Some (Js.slice 1 s))));
          [exact Hconf|].
        specialize (IH pc). by destruct (walk _ _ _ pc).
      * specialize (IH (newParamNode s (Js.slice 1 s))).
        by destruct (walk _ _ _ (newParamNode _ _)).
    + destruct (String.eqb s "*").
      * destruct (before ++ segment :: after) eqn:E; [by destruct before|].
        apply Hinv.
      * by apply _insertStatic_thrown.
Qed.

(** What [_insertStatic] throws is what its continuation throws on the
    node it returns. *)
Lemma insertLoop_returns k rec rec' segment cs :
  Forall (λ c, ∀ s, (rec c s).2 = (k (rec' c s)).2) cs →
  (insertLoop k rec segment cs).2 = (k (returnLoop rec' segment cs)).2.
Proof.
  induction 1 as [|c cs Hc _ IH]; simpl.
  - by destruct (k (newNode segment)).
  - destruct (_ =? 0)%nat.
    { by destruct (insertLoop k rec segment cs). }
    destruct (_ && _).
    { by destruct (k c). }
    destruct (_ =? Js.len (label c))%nat.
    { rewrite <- Hc. by destruct (rec c _). }
    destruct (_ <? Js.len (label c))%nat.
    + destruct (_ =? Js.len segment)%nat.
      * by destruct (k (setChildren _ _)).
      * by destruct (k (newNode _)).
    + by destruct (insertLoop k rec segment cs).
Qed.

Lemma _insertStatic_returned k :
  ∀ parent segment,
    (_insertStatic k parent segment).2
    = (k (_insertStatic_returns parent segment)).2.
Proof.
  intros parent.
  induction parent as [l cs hs pn iw pc wc IHcs _ _] using RadixNode_nested_ind.
  intros segment. rewrite _insertStatic_unfold. simpl.
  rewrite <- (insertLoop_returns k (_insertStatic k) _ segment cs IHcs).
  by destruct (insertLoop _ _ segment cs).
Qed.

Lemma malformed_cons segment rest :
  malformed (segment :: rest) → offendingAt segment rest ∨ malformed rest.
Proof.
  intros ([|s before] & bad & after & Hsplit & Hbad).
  - injection Hsplit as -> ->. by left.
  - injection Hsplit as -> ->. right. by exists before, bad, after.
Qed.

(** On a malformed list of segments the walk throws, and which error
    it throws is told by [clashes]. *)
Lemma walk_rejects method entry segments :
  ∀ node,
    malformed segments →
    if clashes segments node
    then (walk method entry segments node).2 = Some RouteConflictError
    else isInvalidRoute (walk method entry segments node).2.
Proof.
  induction segments as [|segment rest IH]; intros node Hbad.
  - destruct Hbad as ([|? ?] & ? & ? & ? & _); done.
  - rewrite walk_cons. cbv zeta. cbn [clashes].
    apply malformed_cons in Hbad.
    destruct (Js.startsWith ":" segment) eqn:Hcolon.
    + destruct (Js.truthy (Js.slice 1 segment)) eqn:Hname; cbn [negb];
        [|by eexists].
      assert (malformed rest) as Hrest.
      { destruct Hbad as [[-> | [-> _]]|?]; done. }
      destruct (paramChild node) as [pc|].
      * case_bool_decide; cbn [negb]; [|done].
        specialize (IH pc Hrest). by destruct (walk _ _ _ pc).
      * specialize (IH (newParamNode segment (Js.slice 1 segment)) Hrest).
        by destruct (walk _ _ _ (newParamNode _ _)).
    + destruct (String.eqb_spec segment "*") as [->|Hstar].
      * destruct rest as [|s rest]; [|by eexists].
        destruct Hbad as [[? | [_ ?]]|([|? ?] & ? & ? & ? & _)]; done.
      * assert (malformed rest) as Hrest.
        { destruct Hbad as [[-> | [-> _]]|?]; done. }
        rewrite _insertStatic_returned. apply IH, Hrest.
Qed.

(** Below a node with neither static nor parametric children nothing
    clashes. *)
Lemma clashes_leaf segments :
  ∀ node, children node = [] → paramChild node = None →
          clashes segments node = false.
Proof.
  induction segments as [|segment rest IH]; intros node Hcs Hpc; [done|].
  cbn [clashes]. rewrite Hpc.
  destruct (Js.startsWith ":" segment).
  - destruct (Js.truthy _); [|done]. by apply IH.
  - destruct (String.eqb segment "*"); [done|].
    apply IH; destruct node; simpl in *; by subst.
Qed.

(** A character of a segment is a character of the path. *)
Lemma includes_split c path s :
  In s (Js.split "/" path) → Js.includes c s = true → Js.includes c path = true.
Proof.
  revert s. induction path as [|x path IH]; intros s Hin Hc; simpl in *.
  - destruct Hin as [<-|[]]. done.
  - destruct (Ascii.eqb x "/") eqn:Hx.
    + destruct Hin as [<-|Hin]; [done|].
      rewrite (IH s Hin Hc). apply orb_true_r.
    + destruct (Js.split "/" path) as [|w ws] eqn:E.
      * destruct Hin as [<-|[]]. simpl in Hc. rewrite orb_false_r in Hc.
        by rewrite Hc.
      * destruct Hin as [<-|Hin].
        -- simpl in Hc. apply orb_true_iff in Hc as [->|Hc]; [done|].
           rewrite (IH w (or_introl eq_refl) Hc). apply orb_true_r.
        -- rewrite (IH s (or_intror Hin) Hc). apply orb_true_r.
Qed.

Lemma malformed_not_static path :
  malformed (_splitPath path) →
  negb (Js.includes ":" path) && negb (Js.includes "*" path) = false.
Proof.
  intros (before & segment & after & Hsplit & Hbad).
  assert (In segment (Js.split "/" path)) as Hin.
  { assert (In segment (_splitPath path)) as H
      by (rewrite Hsplit; apply in_elt).
    unfold _splitPath in H. by apply List.filter_In in H as [H _]. }
  destruct Hbad as [-> | [-> _]].
  - by rewrite (includes_split ":" path ":" Hin eq_refl).
  - rewrite (includes_split "*" path "*" Hin eq_refl). apply andb_false_r.
Qed.

Lemma add_malformed (P : Thrown → Prop) r method path mw h before segment after :
  (∀ why, P (Some (InvalidRouteError why))) →
  Js.startsWith "/" path = true →
  _splitPath path = before ++ segment :: after →
  offendingAt segment after →
  Forall (λ s, Js.startsWith ":" s = false ∨ P (Some RouteConflictError)) before →
  P (add r method path mw h).2.
Proof.
  intros Hinv Hslash Hsplit Hbad Hbefore. unfold add.
  rewrite Hslash. simpl.
  rewrite malformed_not_static
    by (exists before, segment, after; by rewrite Hsplit).
  simpl. rewrite Hsplit.
  pose proof (walk_malformed P (Js.toUpperCase method) (mkEntry h mw)
                before segment after Hinv Hbad Hbefore (root r)) as H.
  by destruct (walk _ _ _ (root r)).
Qed.

(** The counterexample to C6 as stated: once [/:x] is registered,
    registering [/:y/:], whose second segment is a parameter with an
    empty name, and registering [/:y/*/more], whose wildcard is not
    last, throw [RouteConflictError]: the name conflict of the first
    segment is met first. *)
Lemma malformed_path_throws_conflict :
  let r := (add emptyRouter "GET" "/:x" [] 1).1 in
  (add emptyRouter "GET" "/:x" [] 1).2 = None
  ∧ malformed (_splitPath "/:y/:")
  ∧ (add r "GET" "/:y/:" [] 2).2 = Some RouteConflictError
  ∧ malformed (_splitPath "/:y/*/more")
  ∧ (add r "GET" "/:y/*/more" [] 2).2 = Some RouteConflictError
  ∧ ¬ (∀ r method path mw h,
         malformed (_splitPath path) → isInvalidRoute (add r method path mw h).2).
Proof.
  assert (malformed (_splitPath "/:y/:")) as Hbad.
  { exists [":y"], ":", []. split; [reflexivity | by left]. }
  repeat split; try (vm_compute; reflexivity); try done.
  - exists [":y"], "*", ["more"]. split; [reflexivity | by right].
  - intros H.
    destruct (H (add emptyRouter "GET" "/:x" [] 1).1 "GET" "/:y/:" [] 2 Hbad)
      as [why Hwhy].
    vm_compute in Hwhy. discriminate.
Qed.

(** C6, amended.  [add] throws [InvalidRouteError] whenever the path
    does not start with ["/"].  When the path starts with ["/"] and has
    a parameter segment with an empty name or a ["*"] segment that is
    not last, [add] always throws, and which error is decided by the
    segments before the first such segment: [RouteConflictError] when
    the walk meets among them a parameter segment at a node that already
    has a parametric child of another name, and [InvalidRouteError]
    otherwise; so it is [InvalidRouteError] when no parameter segment
    comes before the offending segment, and always on a new router.  In
    every router state, [/files/*/more], [/users/:] and [users] throw
    [InvalidRouteError]. *)
Theorem malformed_routes_are_rejected :
  (∀ r method path mw h,
      Js.startsWith "/" path = false →
      (add r method path mw h).2 = Some (InvalidRouteError MustStartWithSlash))
  ∧ (∀ r method path mw h,
        Js.startsWith "/" path = true →
        malformed (_splitPath path) →
        isRouteError (add r method path mw h).2)
  ∧ (∀ r method path mw h,
        Js.startsWith "/" path = true →
        malformed (_splitPath path) →
        if clashes (_splitPath path) (root r)
        then (add r method path mw h).2 = Some RouteConflictError
        else isInvalidRoute (add r method path mw h).2)
  ∧ (∀ r method path mw h before segment after,
        Js.startsWith "/" path = true →
        _splitPath path = before ++ segment :: after →
        offendingAt segment after →
        Forall (λ s, Js.startsWith ":" s = false) before →
        isInvalidRoute (add r method path mw h).2)
  ∧ (∀ method path mw h,
        Js.startsWith "/" path = true →
        malformed (_splitPath path) →
        isInvalidRoute (add emptyRouter method path mw h).2)
  ∧ (∀ r method mw h,
        (add r method "/files/*/more" mw h).2 = Some (InvalidRouteError WildcardNotLast)
        ∧ (add r method "/users/:" mw h).2 = Some (InvalidRouteError EmptyParameterName)
        ∧ (add r method "users" mw h).2 = Some (InvalidRouteError MustStartWithSlash)).
Proof.
  assert (∀ r method path mw h,
            Js.startsWith "/" path = true →
            malformed (_splitPath path) →
            if clashes (_splitPath path) (root r)
            then (add r method path mw h).2 = Some RouteConflictError
            else isInvalidRoute (add r method path mw h).2) as Hexact.
  { intros r method path mw h Hslash Hbad. unfold add.
    rewrite Hslash. cbn [negb]. rewrite (malformed_not_static path Hbad).
    cbn [andb].
    pose proof (walk_rejects (Js.toUpperCase method) (mkEntry h mw)
                  (_splitPath path) (root r) Hbad) as H.
    by destruct (walk _ _ _ (root r)). }
  split; [|split; [|split; [|split; [|split]]]].
  - intros r method path mw h Hslash. unfold add. by rewrite Hslash.
  - intros r method path mw h Hslash (before & segment & after & Hsplit & Hbad).
    apply (add_malformed isRouteError r method path mw h before segment after);
      try done.
    + intros why. left. by exists why.
    + apply List.Forall_forall. intros s _. right. by right.
  - exact Hexact.
  - intros r method path mw h before segment after Hslash Hsplit Hbad Hbefore.
    apply (add_malformed isInvalidRoute r method path mw h before segment after);
      try done.
    + intros why. by exists why.
    + eapply List.Forall_impl; [|exact Hbefore]. intros s Hs. by left.
  - intros method path mw h Hslash Hbad.
    specialize (Hexact emptyRouter method path mw h Hslash Hbad).
    by rewrite clashes_leaf in Hexact.
  - intros r method mw h. split; [|split].
    + unfold add. cbn [Js.startsWith Ascii.eqb Bool.eqb negb andb].
      change (_splitPath "/files/*/more") with ["files"; "*"; "more"].
      change (negb (Js.includes ":" "/files/*/more")
              && negb (Js.includes "*" "/files/*/more")) with false.
      cbn [andb]. rewrite walk_cons.
      change (Js.startsWith ":" "files") with false.
      change (String.eqb "files" "*") with false. cbv iota.
      pose proof (_insertStatic_thrown
                    (λ t, t = Some (InvalidRouteError WildcardNotLast))
                    (walk (Js.toUpperCase method) (mkEntry h mw) ["*"; "more"])
                    (λ n, eq_refl) (root r) "files") as H.
      by destruct (_insertStatic _ (root r) "files").
    + unfold add. cbn [Js.startsWith Ascii.eqb Bool.eqb negb andb].
      change (_splitPath "/users/:") with ["users"; ":"].
      change (negb (Js.includes ":" "/users/:")
              && negb (Js.includes "*" "/users/:")) with false.
      cbn [andb]. rewrite walk_cons.
      change (Js.startsWith ":" "users") with false.
      change (String.eqb "users" "*") with false. cbv iota.
      pose proof (_insertStatic_thrown
                    (λ t, t = Some (InvalidRouteError EmptyParameterName))
                    (walk (Js.toUpperCase method) (mkEntry h mw) [":"])
                    (λ n, eq_refl) (root r) "users") as H.
      by destruct (_insertStatic _ (root r) "users").
    + reflexivity.
Qed.

(** ** Registrations that throw *)

Lemma add_keeps_cached r method path mw h key e :
  staticRoutes r !! key = Some e →
  staticRoutes (add r method path mw h).1 !! key = Some e.
Proof.
  intros Hkey. unfold add.
  destruct (negb (Js.startsWith "/" path)); [done|].
  destruct (negb (Js.includes ":" path) && negb (Js.includes "*" path)); simpl.
  - case_bool_decide as Hc; simpl; [done|].
    destruct (walk _ _ _ (root r)) as [root' t]. simpl.
    rewrite lookup_insert_ne; [done|]. intros <-. apply Hc. by exists e.
  - by destruct (walk _ _ _ (root r)) as [root' t].
Qed.

(** The counterexample to C2 as stated.  With GET [/a/b] registered,
    registering GET [/a/b/] throws [RouteConflictError] at the terminal
    node, after the static cache has taken the new entry: [find] on
    [/a/b/] answered handler 1 before the call and answers handler 2
    after it.  And registering [/users/:] on a new router throws
    [InvalidRouteError] after the node ["users"] has been added to the
    tree. *)
Lemma failed_registration_is_visible :
  let r := (add emptyRouter "GET" "/a/b" [] 1).1 in
  (add emptyRouter "GET" "/a/b" [] 1).2 = None
  ∧ (add r "GET" "/a/b/" [] 2).2 = Some RouteConflictError
  ∧ find r "GET" "/a/b/" = Some (mkMatch 1 ∅ [])
  ∧ find (add r "GET" "/a/b/" [] 2).1 "GET" "/a/b/" = Some (mkMatch 2 ∅ [])
  ∧ (add emptyRouter "GET" "/users/:" [] 3).2 =
    Some (InvalidRouteError EmptyParameterName)
  ∧ children (root emptyRouter) = []
  ∧ (label <$> children (root (add emptyRouter "GET" "/users/:" [] 3).1)) = ["users"]
  ∧ ¬ (∀ r method path mw h,
         (add r method path mw h).2 ≠ None → (add r method path mw h).1 = r).
Proof.
  repeat split; try (vm_compute; reflexivity).
  intros H.
  specialize (H emptyRouter "GET" "/users/:" [] 3).
  assert (children (root (add emptyRouter "GET" "/users/:" [] 3).1) = []) as Hc.
  { rewrite H; [reflexivity|]. vm_compute. discriminate. }
  vm_compute in Hc. discriminate.
Qed.

(** C2, amended.  A call of [add] that throws before the tree walk
    starts, because the path does not start with ["/"] or because the
    static cache already holds the method and path of a fully static
    route, leaves the router as it was.  Every call of [add], whether it
    throws or not, keeps every entry that the static cache held, so that
    [find] answers the same for every cached method and path. *)
Theorem add_atomic_before_walk :
  (∀ r method path mw h,
      Js.startsWith "/" path = false →
      add r method path mw h = (r, Some (InvalidRouteError MustStartWithSlash)))
  ∧ (∀ r method path mw h,
        Js.startsWith "/" path = true →
        Js.includes ":" path = false →
        Js.includes "*" path = false →
        is_Some (staticRoutes r !! staticKey (Js.toUpperCase method) path) →
        add r method path mw h = (r, Some RouteConflictError))
  ∧ (∀ r method path mw h key e,
        staticRoutes r !! key = Some e →
        staticRoutes (add r method path mw h).1 !! key = Some e)
  ∧ (∀ r method path mw h method' path',
        is_Some (staticRoutes r !! staticKey (Js.toUpperCase method') path') →
        find (add r method path mw h).1 method' path' = find r method' path').
Proof.
  split; [|split; [|split]].
  - intros r method path mw h Hslash. unfold add. by rewrite Hslash.
  - intros r method path mw h Hslash Hcolon Hstar Hcached. unfold add.
    rewrite Hslash, Hcolon, Hstar. simpl. by rewrite bool_decide_eq_true_2.
  - intros. by apply add_keeps_cached.
  - intros r method path mw h method' path' [e He]. unfold find.
    by rewrite (add_keeps_cached r method path mw h _ e He), He.
Qed.

(** ** Registered routes stay where they are *)

(** *** Common prefixes *)

Local Open Scope nat_scope.

Lemma cpl_le_l a b : _commonPrefixLength a b ≤ Js.len a.
Proof.
  revert b. induction a as [|x a IH]; intros [|y b]; simpl; try lia.
  destruct (Ascii.eqb x y); [specialize (IH b)|]; unfold Js.len in *; simpl; lia.
Qed.

Lemma cpl_le_r a b : _commonPrefixLength a b ≤ Js.len b.
Proof.
  revert b. induction a as [|x a IH]; intros [|y b]; simpl; try lia.
  destruct (Ascii.eqb x y); [specialize (IH b)|]; unfold Js.len in *; simpl; lia.
Qed.

Lemma cpl_refl s : _commonPrefixLength s s = Js.len s.
Proof.
  induction s as [|x s IH]; simpl; [done|].
  rewrite Ascii.eqb_refl. unfold Js.len in *. simpl. by rewrite IH.
Qed.

Lemma len_slice n s : Js.len (Js.slice n s) = Js.len s - n.
Proof.
  revert s. induction n as [|n IH]; intros [|x s]; simpl;
    try (unfold Js.len; simpl; lia).
  rewrite IH. unfold Js.len. simpl. lia.
Qed.

Lemma len_slice_to n s : n ≤ Js.len s → Js.len (Js.slice_to n s) = n.
Proof.
  revert s. induction n as [|n IH]; intros [|x s]; unfold Js.len; simpl;
    try done; try lia.
  intros H. f_equal. apply IH. unfold Js.len. lia.
Qed.

Lemma slice_slice a b s : Js.slice b (Js.slice a s) = Js.slice (a + b) s.
Proof.
  revert s. induction a as [|a IH]; intros s; simpl; [done|].
  destruct s as [|x s]; [by destruct b|]. apply IH.
Qed.

(** The common prefix with a prefix of the label. *)
Lemma cpl_slice_to n l s :
  n ≤ _commonPrefixLength l s → _commonPrefixLength (Js.slice_to n l) s = n.
Proof.
  revert l s. induction n as [|n IH]; intros l s H.
  - by destruct l.
  - destruct l as [|x l], s as [|y s]; simpl in *; try lia.
    destruct (Ascii.eqb x y); [|lia]. f_equal. apply IH. lia.
Qed.

Lemma cpl_slice_to_0 n l s :
  _commonPrefixLength l s = 0 → _commonPrefixLength (Js.slice_to n l) s = 0.
Proof.
  destruct n, l as [|x l], s as [|y s]; simpl; try done.
  by destruct (Ascii.eqb x y).
Qed.

(** Past the common prefix the two strings differ at once. *)
Lemma cpl_slice_cpl l s :
  _commonPrefixLength (Js.slice (_commonPrefixLength l s) l)
                      (Js.slice (_commonPrefixLength l s) s) = 0.
Proof.
  revert s. induction l as [|x l IH]; intros [|y s]; simpl; try done.
  destruct (Ascii.eqb x y) eqn:E; simpl; [apply IH | by rewrite E].
Qed.

(** When the label is a prefix of the segment, so is what is left of it
    after [n] characters. *)
Lemma cpl_slice_prefix n l s :
  _commonPrefixLength l s = Js.len l → n ≤ Js.len l →
  _commonPrefixLength (Js.slice n l) (Js.slice n s) = Js.len l - n.
Proof.
  revert l s. induction n as [|n IH]; intros l s H Hn; simpl.
  - rewrite H. lia.
  - destruct l as [|x l], s as [|y s]; unfold Js.len in *; simpl in *; try lia.
    destruct (Ascii.eqb x y); [|lia]. apply IH; lia.
Qed.

(** *** What [_insertStatic] and [walk] leave untouched *)

#[local] Arguments Js.slice : simpl never.
#[local] Arguments Js.slice_to : simpl never.
#[local] Arguments Js.startsWith : simpl never.

Lemma reachStatic_unfold Q parent segment :
  reachStatic Q parent segment =
  reachLoop Q (reachStatic Q) segment (children parent).
Proof. destruct parent; reflexivity. Qed.

Lemma _insertStatic_shell k parent segment :
  let parent' := (_insertStatic k parent segment).1 in
  label parent' = label parent ∧ handlers parent' = handlers parent
  ∧ paramName parent' = paramName parent
  ∧ paramChild parent' = paramChild parent
  ∧ wildcardChild parent' = wildcardChild parent.
Proof.
  rewrite _insertStatic_unfold.
  by destruct (insertLoop _ _ segment (children parent)).
Qed.

Lemma walk_shell method entry segments :
  ∀ node,
    label (walk method entry segments node).1 = label node
    ∧ paramName (walk method entry segments node).1 = paramName node.
Proof.
  destruct segments as [|segment rest]; intros node.
  - rewrite walk_nil. by destruct (handlers node !! method).
  - rewrite walk_cons. cbv zeta.
    repeat case_match; simpl; try done.
    by destruct (_insertStatic_shell (walk method entry rest) node segment)
      as (? & _ & ? & _).
Qed.

(** *** Registering again what the tree holds *)

Lemma insertLoop_conflict Q k segment cs :
  (∀ n, Q n → k n = (n, Some RouteConflictError)) →
  Forall (λ c, ∀ s, reachStatic Q c s →
                    _insertStatic k c s = (c, Some RouteConflictError)) cs →
  reachLoop Q (reachStatic Q) segment cs →
  insertLoop k (_insertStatic k) segment cs = (cs, Some RouteConflictError).
Proof.
  intros Hk. induction 1 as [|c cs Hc _ IH]; simpl; [done|].
  intros Hreach.
  destruct (_commonPrefixLength (label c) segment =? 0).
  { by rewrite IH. }
  destruct ((_commonPrefixLength (label c) segment =? Js.len (label c))
            && (_commonPrefixLength (label c) segment =? Js.len segment)).
  { by rewrite Hk. }
  destruct (_commonPrefixLength (label c) segment =? Js.len (label c)); [|done].
  by rewrite Hc.
Qed.

Lemma _insertStatic_conflict Q k :
  (∀ n, Q n → k n = (n, Some RouteConflictError)) →
  ∀ parent segment,
    reachStatic Q parent segment →
    _insertStatic k parent segment = (parent, Some RouteConflictError).
Proof.
  intros Hk parent.
  induction parent as [l cs hs pn iw pc wc IHcs _ _] using RadixNode_nested_ind.
  intros segment Hreach. rewrite reachStatic_unfold in Hreach.
  rewrite _insertStatic_unfold. simpl in *.
  by rewrite (insertLoop_conflict Q k segment cs Hk IHcs Hreach).
Qed.

Lemma classify_cons segment rest :
  classify (segment :: rest) =
  if Js.startsWith ":" segment then
    if Js.truthy (Js.slice 1 segment) then
      cons (Param (Js.slice 1 segment)) <$> classify rest
    else None
  else if String.eqb segment "*" then
    match rest with
    | [] => Some [Wild]
    | _ :: _ => None
    end
  else cons (Static segment) <$> classify rest.
Proof. reflexivity. Qed.

Lemma walk_conflict method e0 entry segments :
  ∀ steps node,
    classify segments = Some steps →
    holds method e0 steps node →
    walk method entry segments node = (node, Some RouteConflictError).
Proof.
  induction segments as [|segment rest IH]; intros steps node Hcl Hholds.
  - simpl in Hcl. injection Hcl as <-. simpl in Hholds.
    by rewrite walk_nil, Hholds.
  - rewrite walk_cons. cbv zeta. rewrite classify_cons in Hcl.
    destruct (Js.startsWith ":" segment).
    + destruct (Js.truthy (Js.slice 1 segment)); [|done]. simpl.
      destruct (classify rest) as [steps'|] eqn:Hrest; [|done].
      injection Hcl as <-. destruct Hholds as (pc & Hpc & Hname & Hholds).
      rewrite Hpc, bool_decide_eq_true_2 by done. simpl.
      rewrite (IH steps' pc eq_refl Hholds). by destruct node; simpl in *; subst.
    + destruct (String.eqb segment "*").
      * destruct rest; [|done]. injection Hcl as <-.
        destruct Hholds as (w & Hw & Hholds). rewrite Hw.
        rewrite (IH [] w eq_refl Hholds). by destruct node; simpl in *; subst.
      * destruct (classify rest) as [steps'|] eqn:Hrest; [|done].
        injection Hcl as <-.
        apply (_insertStatic_conflict (holds method e0 steps')); [|done].
        intros n Hn. by apply (IH steps').
Qed.

(** *** A successful registration is in the tree *)

Ltac eqb_true := rewrite (proj2 (Nat.eqb_eq _ _)) by lia.
Ltac eqb_false := rewrite (proj2 (Nat.eqb_neq _ _)) by lia.

Lemma reachLoop_exact Q R segment n rest :
  0 < Js.len segment → label n = segment → Q n →
  reachLoop Q R segment (n :: rest).
Proof.
  intros Hpos Hl HQ. simpl. rewrite Hl, cpl_refl.
  eqb_false. eqb_true. by simpl.
Qed.

Lemma insertLoop_reach Q k segment cs :
  0 < Js.len segment →
  (∀ n n', k n = (n', None) → Q n') →
  (∀ n, label (k n).1 = label n) →
  Forall (λ c, ∀ s c', 0 < Js.len s → _insertStatic k c s = (c', None) →
                       reachStatic Q c' s) cs →
  ∀ cs', insertLoop k (_insertStatic k) segment cs = (cs', None) →
         reachLoop Q (reachStatic Q) segment cs'.
Proof.
  intros Hpos HQ Hlab. induction 1 as [|c cs Hc _ IH]; intros cs' Hins;
    simpl in Hins.
  - destruct (k (newNode segment)) as [n t] eqn:E. injection Hins as <- ->.
    apply reachLoop_exact; [done| |by eapply HQ].
    specialize (Hlab (newNode segment)). by rewrite E in Hlab.
  - pose proof (cpl_le_l (label c) segment) as Hle_l.
    pose proof (cpl_le_r (label c) segment) as Hle_r.
    set (a := _commonPrefixLength (label c) segment) in *.
    destruct (Nat.eqb_spec a 0) as [H0|H0].
    { destruct (insertLoop _ _ segment cs) as [rest' t]. injection Hins as <- ->.
      simpl. fold a. eqb_true. by apply IH. }
    destruct (Nat.eqb_spec a (Js.len (label c))) as [Hl|Hl];
      destruct (Nat.eqb_spec a (Js.len segment)) as [Hs|Hs]; simpl in Hins.
    + (* the child is the segment *)
      destruct (k c) as [c' t] eqn:E. injection Hins as <- ->.
      assert (label c' = label c) as Hc'.
      { specialize (Hlab c). by rewrite E in Hlab. }
      simpl. rewrite Hc'. fold a. eqb_false. do 2 eqb_true. simpl.
      by eapply HQ.
    + (* the child's label is a proper prefix of the segment *)
      destruct (_insertStatic k c (Js.slice a segment)) as [c' t] eqn:E.
      injection Hins as <- ->.
      assert (label c' = label c) as Hc'.
      { pose proof (_insertStatic_shell k c (Js.slice a segment)) as Hsh.
        rewrite E in Hsh. apply Hsh. }
      simpl. rewrite Hc'. fold a. eqb_false. eqb_true.
      rewrite (proj2 (Nat.eqb_neq a (Js.len segment))) by lia. simpl.
      apply Hc; [|done]. rewrite len_slice. lia.
    + (* the segment is a proper prefix of the child's label *)
      rewrite (proj2 (Nat.ltb_lt _ _)) in Hins by lia.
      destruct (k _) as [s' t] eqn:E. injection Hins as <- ->.
      assert (label s' = Js.slice_to a (label c)) as Hs'.
      { match type of E with k ?n = _ => specialize (Hlab n) end.
        by rewrite E in Hlab. }
      simpl. rewrite Hs', cpl_slice_to by (unfold a; lia).
      rewrite len_slice_to by lia. eqb_false. do 2 eqb_true. simpl.
      by eapply HQ.
    + (* the two diverge inside the child's label *)
      rewrite (proj2 (Nat.ltb_lt _ _)) in Hins by lia.
      destruct (k _) as [n t] eqn:E. injection Hins as <- ->.
      assert (label n = Js.slice a segment) as Hn.
      { match type of E with k ?n = _ => specialize (Hlab n) end.
        by rewrite E in Hlab. }
      simpl. rewrite cpl_slice_to by (unfold a; lia).
      rewrite len_slice_to by lia. eqb_false. eqb_true.
      rewrite (proj2 (Nat.eqb_neq a (Js.len segment))) by lia. simpl.
      unfold a at 1 2. rewrite cpl_slice_cpl. simpl. fold a.
      rewrite Hn, cpl_refl, len_slice. eqb_false. eqb_true. simpl.
      by eapply HQ.
Qed.

Lemma _insertStatic_reach Q k :
  (∀ n n', k n = (n', None) → Q n') →
  (∀ n, label (k n).1 = label n) →
  ∀ parent segment parent',
    0 < Js.len segment →
    _insertStatic k parent segment = (parent', None) →
    reachStatic Q parent' segment.
Proof.
  intros HQ Hlab parent.
  induction parent as [l cs hs pn iw pc wc IHcs _ _] using RadixNode_nested_ind.
  intros segment parent' Hpos Hins. rewrite _insertStatic_unfold in Hins.
  simpl in Hins.
  destruct (insertLoop _ _ segment cs) as [cs' t] eqn:E.
  injection Hins as <- ->. rewrite reachStatic_unfold. simpl.
  by apply (insertLoop_reach Q k segment cs).
Qed.

Lemma walk_holds method entry segments :
  Forall (λ s, 0 < Js.len s) segments →
  ∀ node node',
    walk method entry segments node = (node', None) →
    ∃ steps, classify segments = Some steps ∧ holds method entry steps node'.
Proof.
  induction 1 as [|segment rest Hpos _ IH]; intros node node' Hwalk.
  - rewrite walk_nil in Hwalk. destruct (handlers node !! method); [done|].
    injection Hwalk as <-. exists []. split; [done|]. simpl.
    by rewrite lookup_insert_eq.
  - rewrite walk_cons in Hwalk. cbv zeta in Hwalk. rewrite classify_cons.
    destruct (Js.startsWith ":" segment).
    + destruct (Js.truthy (Js.slice 1 segment)); [|done]. simpl in Hwalk.
      destruct (paramChild node) as [pc|] eqn:Hpc.
      * case_bool_decide as Hname; [|done]. simpl in Hwalk.
        destruct (walk method entry rest pc) as [c t] eqn:E.
        injection Hwalk as <- ->.
        destruct (IH pc c E) as (steps & -> & Hholds).
        exists (Param (Js.slice 1 segment) :: steps). split; [done|].
        exists c. repeat split; [|done].
        pose proof (walk_shell method entry rest pc) as [_ Hsh].
        rewrite E in Hsh. simpl in Hsh. by rewrite Hsh.
      * destruct (walk method entry rest (newParamNode _ _)) as [c t] eqn:E.
        injection Hwalk as <- ->.
        destruct (IH _ c E) as (steps & -> & Hholds).
        exists (Param (Js.slice 1 segment) :: steps). split; [done|].
        exists c. repeat split; [|done].
        pose proof (walk_shell method entry rest
                      (newParamNode segment (Js.slice 1 segment))) as [_ Hsh].
        rewrite E in Hsh. simpl in Hsh. by rewrite Hsh.
    + destruct (String.eqb segment "*").
      * destruct rest; [|done].
        destruct (walk method entry [] _) as [c t] eqn:E.
        injection Hwalk as <- ->.
        destruct (IH _ c E) as (steps & Hcl & Hholds).
        injection Hcl as <-. exists [Wild]. split; [done|]. by exists c.
      * destruct (classify rest) as [steps|] eqn:Hcl.
        -- exists (Static segment :: steps). split; [done|]. simpl.
           apply (_insertStatic_reach (holds method entry steps)
                    (walk method entry rest)) with (parent := node); try done.
           ++ intros n n' Hn. destruct (IH n n' Hn) as (steps' & Hcl' & Hholds).
              by injection Hcl' as <-.
           ++ intros n. apply walk_shell.
        -- exfalso.
           assert (∀ n, (walk method entry rest n).2 ≠ None) as Hk.
           { intros n Hn.
             destruct (walk method entry rest n) as [n' t] eqn:E.
             simpl in Hn. subst t.
             by destruct (IH n n' E) as (steps' & Hcl' & _). }
           apply (_insertStatic_thrown (λ t, t ≠ None)
                    (walk method entry rest) Hk node segment).
           by rewrite Hwalk.
Qed.

(** *** Later registrations do not move a registered route *)

Lemma holds_setLabel method e steps l node :
  holds method e steps node → holds method e steps (setLabel l node).
Proof.
  destruct steps as [|[s|name|] rest]; simpl; try done.
  intros H. by rewrite reachStatic_unfold in H.
Qed.

(** The query for [segment] at a list of children whose first child
    has the label [l], in terms of that child. *)
Lemma reachLoop_cons Q R segment c rest :
  reachLoop Q R segment (c :: rest) =
  let b := _commonPrefixLength (label c) segment in
  if b =? 0 then reachLoop Q R segment rest
  else if (b =? Js.len (label c)) && (b =? Js.len segment) then Q c
  else if b =? Js.len (label c) then R c (Js.slice b segment)
  else False.
Proof. reflexivity. Qed.

(** A query that the child [c] answers is answered alike by a node
    that took its place with the same label, as long as [Q] and the
    deeper queries carry over. *)
Lemma reachLoop_replace Q segment c c' rest rest' :
  label c' = label c →
  (Q c → Q c') →
  (∀ s, reachStatic Q c s → reachStatic Q c' s) →
  (reachLoop Q (reachStatic Q) segment rest →
   reachLoop Q (reachStatic Q) segment rest') →
  reachLoop Q (reachStatic Q) segment (c :: rest) →
  reachLoop Q (reachStatic Q) segment (c' :: rest').
Proof.
  intros Hl HQ HR Hrest. rewrite !reachLoop_cons, Hl. cbv zeta.
  repeat case_match; auto.
Qed.

(** After a split at [a] characters, the child [c], with what is left
    of its label, is the first child of the split node: a query that
    went through [c] goes through it there. *)
Lemma reachStatic_split_child Q c a lbl others segment :
  a < Js.len (label c) →
  (∀ l n, Q n → Q (setLabel l n)) →
  _commonPrefixLength (label c) segment = Js.len (label c) →
  (if Js.len (label c) =? Js.len segment then Q c
   else reachStatic Q c (Js.slice (Js.len (label c)) segment)) →
  reachStatic Q
    (setChildren (setLabel (Js.slice a (label c)) c :: others) (newNode lbl))
    (Js.slice a segment).
Proof.
  intros Ha Hset Hb Hq. rewrite reachStatic_unfold. simpl.
  pose proof (cpl_le_r (label c) segment) as Hle.
  rewrite cpl_slice_prefix by (done || lia). rewrite !len_slice.
  eqb_false. eqb_true. simpl.
  destruct (Nat.eqb_spec (Js.len (label c)) (Js.len segment)) as [E|E].
  - eqb_true. by apply Hset.
  - eqb_false. rewrite slice_slice.
    replace (a + (Js.len (label c) - a)) with (Js.len (label c)) by lia.
    by rewrite reachStatic_unfold in Hq.
Qed.

(** A query answered through the child [c] is answered through a node
    [N] that took its place with the first [a] characters of its label,
    provided the rest of the query is answered inside [N]. *)
Lemma reachLoop_via_prefix Q segment c N a rest :
  0 < a → a < Js.len (label c) →
  label N = Js.slice_to a (label c) →
  (_commonPrefixLength (label c) segment = Js.len (label c) →
   (if Js.len (label c) =? Js.len segment then Q c
    else reachStatic Q c (Js.slice (Js.len (label c)) segment)) →
   reachStatic Q N (Js.slice a segment)) →
  reachLoop Q (reachStatic Q) segment (c :: rest) →
  reachLoop Q (reachStatic Q) segment (N :: rest).
Proof.
  intros Ha0 Ha HN Hinner. rewrite !reachLoop_cons, HN. cbv zeta.
  pose proof (cpl_le_r (label c) segment) as Hle.
  destruct (Nat.eqb_spec (_commonPrefixLength (label c) segment) 0) as [H0|H0].
  { by rewrite cpl_slice_to_0, Nat.eqb_refl. }
  destruct (Nat.eqb_spec (_commonPrefixLength (label c) segment)
                         (Js.len (label c))) as [Hb|Hb]; [|by simpl].
  rewrite cpl_slice_to, len_slice_to by lia. rewrite Hb in Hle |- *.
  rewrite (proj2 (Nat.eqb_neq a 0)), Nat.eqb_refl,
    (proj2 (Nat.eqb_neq a (Js.len segment))) by lia.
  simpl. intros Hq. by apply Hinner.
Qed.

Lemma insertLoop_stable Q k inserted cs :
  (∀ n, Q n → Q (k n).1) →
  (∀ n s, reachStatic Q n s → reachStatic Q (k n).1 s) →
  (∀ n, label (k n).1 = label n) →
  (∀ l n, Q n → Q (setLabel l n)) →
  Forall (λ c, (∀ s seg, reachStatic Q c s →
                         reachStatic Q (_insertStatic k c seg).1 s)
               ∧ (∀ seg, Q c → Q (_insertStatic k c seg).1)) cs →
  ∀ s, reachLoop Q (reachStatic Q) s cs →
       reachLoop Q (reachStatic Q) s
                 (insertLoop k (_insertStatic k) inserted cs).1.
Proof.
  intros HQ HR Hlab Hset. induction 1 as [|c cs [HcR HcQ] _ IH]; intros s Hq.
  { done. }
  simpl.
  pose proof (cpl_le_l (label c) inserted) as Hle_l.
  pose proof (cpl_le_r (label c) inserted) as Hle_r.
  set (a := _commonPrefixLength (label c) inserted) in *.
  destruct (Nat.eqb_spec a 0) as [H0|H0].
  { specialize (IH s). destruct (insertLoop _ _ inserted cs) as [others t].
    simpl in *. revert Hq. by apply reachLoop_replace. }
  destruct (Nat.eqb_spec a (Js.len (label c))) as [Hl|Hl];
    destruct (Nat.eqb_spec a (Js.len inserted)) as [Hs|Hs]; simpl.
  - (* the child is the inserted segment *)
    specialize (HQ c). specialize (HR c). specialize (Hlab c).
    destruct (k c) as [c2 t]. simpl in *. revert Hq.
    by apply reachLoop_replace.
  - (* the insertion goes on below the child *)
    pose proof (_insertStatic_shell k c (Js.slice a inserted)) as [Hsh _].
    specialize (HcQ (Js.slice a inserted)).
    assert (∀ s0, reachStatic Q c s0 →
                  reachStatic Q (_insertStatic k c (Js.slice a inserted)).1 s0)
      as HcR2 by (intros s0; apply HcR).
    destruct (_insertStatic k c (Js.slice a inserted)) as [c2 t].
    simpl in *. revert Hq. by apply reachLoop_replace.
  - (* the inserted segment ends inside the child's label *)
    rewrite (proj2 (Nat.ltb_lt _ _)) by lia.
    match goal with |- context [k ?n] => set (splitNode := n) end.
    specialize (HR splitNode). specialize (Hlab splitNode).
    destruct (k splitNode) as [N t]. cbn [fst] in HR, Hlab |- *. revert Hq.
    apply (reachLoop_via_prefix Q s c N a cs); [lia|lia|done|].
    intros Hb Hinner. apply HR. unfold splitNode.
    apply (reachStatic_split_child Q c a (Js.slice_to a (label c)) [] s);
      [lia | done | done | done].
  - (* the two diverge inside the child's label *)
    rewrite (proj2 (Nat.ltb_lt _ _)) by lia.
    destruct (k (newNode (Js.slice a inserted))) as [n t]. cbn [fst]. revert Hq.
    apply (reachLoop_via_prefix Q s c
             (setChildren [setLabel (Js.slice a (label c)) c; n]
                          (newNode (Js.slice_to a (label c)))) a cs);
      [lia|lia|done|].
    intros Hb Hinner.
    apply (reachStatic_split_child Q c a (Js.slice_to a (label c)) [n] s);
      [lia | done | done | done].
Qed.

Lemma _insertStatic_children k parent segment :
  children (_insertStatic k parent segment).1 =
  (insertLoop k (_insertStatic k) segment (children parent)).1.
Proof.
  rewrite _insertStatic_unfold.
  by destruct (insertLoop _ _ segment (children parent)).
Qed.

Lemma _insertStatic_stable method e k :
  (∀ steps n, holds method e steps n → holds method e steps (k n).1) →
  (∀ n, label (k n).1 = label n) →
  ∀ parent steps inserted,
    holds method e steps parent →
    holds method e steps (_insertStatic k parent inserted).1.
Proof.
  intros Hk Hlab parent.
  induction parent as [l cs hs pn iw pc wc IHcs _ _] using RadixNode_nested_ind.
  intros steps inserted Hholds.
  destruct (_insertStatic_shell k (mkNode l cs hs pn iw pc wc) inserted)
    as (_ & Hhs & _ & Hpc & Hwc).
  destruct steps as [|[s|name|] rest]; cbn [holds] in *.
  - by rewrite Hhs.
  - rewrite reachStatic_unfold in Hholds |- *.
    rewrite _insertStatic_children. simpl in Hholds |- *.
    apply insertLoop_stable; try done.
    + apply Hk.
    + intros n s0. apply (Hk (Static s0 :: rest)).
    + intros l0 n. apply holds_setLabel.
    + eapply List.Forall_impl; [|exact IHcs]. intros c Hc. split.
      * intros s0 seg. apply (Hc (Static s0 :: rest)).
      * intros seg. apply Hc.
  - by rewrite Hpc.
  - by rewrite Hwc.
Qed.

Lemma walk_stable method e inserting entry segments :
  ∀ steps node,
    holds method e steps node →
    holds method e steps (walk inserting entry segments node).1.
Proof.
  induction segments as [|segment rest IH]; intros steps node Hholds.
  - rewrite walk_nil. destruct (handlers node !! inserting) eqn:Hnone; [done|].
    destruct steps as [|[s|name|] more]; cbn [holds fst] in *; try done.
    + simpl. rewrite lookup_insert_ne; [done|]. intros <-. congruence.
    + by rewrite reachStatic_unfold in Hholds |- *.
  - rewrite walk_cons. cbv zeta.
    destruct (Js.startsWith ":" segment).
    + destruct (negb (Js.truthy (Js.slice 1 segment))); [done|].
      destruct (paramChild node) as [pc|] eqn:Hpc.
      * destruct (negb (bool_decide (paramName pc = Some (Js.slice 1 segment))));
          [done|].
        pose proof (walk_shell inserting entry rest pc) as [_ Hname].
        specialize (IH steps pc) as IHsame.
        destruct (walk inserting entry rest pc) as [c t] eqn:E.
        destruct steps as [|[s|name|] more]; cbn [holds fst] in *; try done.
        -- by rewrite reachStatic_unfold in Hholds |- *.
        -- destruct Hholds as (pc' & Hpc' & Hn & Hh).
           rewrite Hpc in Hpc'. injection Hpc' as <-.
           exists c. simpl. split; [done|]. split; [congruence|].
           specialize (IH more pc Hh). by rewrite E in IH.
      * destruct (walk inserting entry rest _) as [c t].
        destruct steps as [|[s|name|] more]; cbn [holds fst] in *; try done.
        -- by rewrite reachStatic_unfold in Hholds |- *.
        -- destruct Hholds as (pc' & Hpc' & _). congruence.
    + destruct (String.eqb segment "*").
      * destruct rest as [|? ?]; [|done].
        destruct (wildcardChild node) as [w|] eqn:Hw.
        -- specialize (IH) as IHw.
           destruct (walk inserting entry [] w) as [c t] eqn:E.
           destruct steps as [|[s|name|] more]; cbn [holds fst] in *; try done.
           ++ by rewrite reachStatic_unfold in Hholds |- *.
           ++ destruct Hholds as (w' & Hw' & Hh).
              rewrite Hw in Hw'. injection Hw' as <-.
              exists c. simpl. split; [done|].
              specialize (IH more w Hh). by rewrite E in IH.
        -- destruct (walk inserting entry [] newWildcardNode) as [c t].
           destruct steps as [|[s|name|] more]; cbn [holds fst] in *; try done.
           ++ by rewrite reachStatic_unfold in Hholds |- *.
           ++ destruct Hholds as (w' & Hw' & _). congruence.
      * apply _insertStatic_stable; [|intros n; apply walk_shell|done].
        intros steps' n. apply IH.
Qed.

(** *** Registering the same method and path twice *)

Lemma registerAll_cons call later r :
  registerAll (call :: later) r =
  registerAll later (let '(method, path, mw, h) := call in
                     (add r method path mw h).1).
Proof. reflexivity. Qed.

Lemma registerAll_keeps_cached later :
  ∀ r key e,
    staticRoutes r !! key = Some e →
    staticRoutes (registerAll later r) !! key = Some e.
Proof.
  induction later as [|[[[method path] mw] h] later IH]; intros r key e Hkey.
  - done.
  - rewrite registerAll_cons. apply IH. by apply add_keeps_cached.
Qed.

Lemma add_root_stable method e steps r inserting path mw h :
  holds method e steps (root r) →
  holds method e steps (root (add r inserting path mw h).1).
Proof.
  intros Hholds. unfold add.
  destruct (negb (Js.startsWith "/" path)); [done|].
  destruct (_ && bool_decide _); [done|].
  pose proof (walk_stable method e (Js.toUpperCase inserting) (mkEntry h mw)
                (_splitPath path) steps (root r) Hholds) as H.
  by destruct (walk _ _ _ (root r)).
Qed.

Lemma registerAll_root_stable method e steps later :
  ∀ r, holds method e steps (root r) →
       holds method e steps (root (registerAll later r)).
Proof.
  induction later as [|[[[inserting path] mw] h] later IH]; intros r Hholds.
  - done.
  - rewrite registerAll_cons. apply IH. by apply add_root_stable.
Qed.

Lemma _splitPath_positive path : Forall (λ s, 0 < Js.len s) (_splitPath path).
Proof.
  eapply List.Forall_impl; [|apply _splitPath_nonempty].
  intros [|c s] H; [done|]. unfold Js.len. simpl. lia.
Qed.

(** The counterexample to C7 as stated.  GET [/x/*] is registered,
    then GET [/x/:id]; a second registration of GET [/x/*] throws
    [RouteConflictError], but [find] on the path [/x/*] answers the
    parametric route (handler 2), which has precedence over the
    wildcard route, not the handler registered for [/x/*]. *)
Lemma pattern_answered_by_another_route :
  let r1 := add emptyRouter "GET" "/x/*" [] 1 in
  let r2 := add r1.1 "GET" "/x/:id" [] 2 in
  r1.2 = None ∧ r2.2 = None
  ∧ add r2.1 "GET" "/x/*" [] 3 = (r2.1, Some RouteConflictError)
  ∧ find r2.1 "GET" "/x/*" = Some (mkMatch 2 {["id" := "*"]} [])
  ∧ ¬ ∃ res, find r2.1 "GET" "/x/*" = Some res ∧ m_handler res = 1.
Proof.
  vm_compute. repeat split; try reflexivity.
  intros (res & Hres & Hh). inversion Hres; subst. discriminate.
Qed.

(** C7, amended.  In every router state reached, through any further
    calls of [add], after a call [add(method, path, mw, h)] that
    returned normally, a second call with the same method and path
    throws [RouteConflictError] and leaves the router as it was; and if
    the path is fully static (no [":"] and no ["*"]), [find] on that
    method and path answers the handler and middleware first
    registered, with no parameters. *)
Theorem second_registration_conflicts r0 method path mw h r1 :
  add r0 method path mw h = (r1, None) →
  ∀ later mw' h',
    add (registerAll later r1) method path mw' h' =
    (registerAll later r1, Some RouteConflictError)
    ∧ (Js.includes ":" path = false → Js.includes "*" path = false →
       find (registerAll later r1) method path = Some (mkMatch h ∅ mw)).
Proof.
  intros Hadd later mw' h'. unfold add in Hadd.
  destruct (Js.startsWith "/" path) eqn:Hslash; [|done]. simpl in Hadd.
  destruct (negb (Js.includes ":" path) && negb (Js.includes "*" path))
    eqn:Hstatic; simpl in Hadd.
  - (* a fully static route: the cache answers *)
    case_bool_decide as Hfresh; [done|]. simpl in Hadd.
    destruct (walk _ _ _ (root r0)) as [root1 t]. injection Hadd as <- ->.
    assert (staticRoutes (registerAll later (mkRouter root1
              (<[staticKey (Js.toUpperCase method) path := mkEntry h mw]>
                 (staticRoutes r0))))
            !! staticKey (Js.toUpperCase method) path = Some (mkEntry h mw))
      as Hcached.
    { apply registerAll_keeps_cached. simpl. apply lookup_insert_eq. }
    split.
    + unfold add. rewrite Hslash, Hstatic. simpl.
      rewrite bool_decide_eq_true_2; [done|]. by eexists.
    + intros _ _. unfold find. by rewrite Hcached.
  - (* a route with parameters or a wildcard: the tree answers *)
    destruct (walk _ _ _ (root r0)) as [root1 t] eqn:Hwalk.
    injection Hadd as <- ->.
    destruct (walk_holds _ _ _ (_splitPath_positive path) _ _ Hwalk)
      as (steps & Hcl & Hholds).
    split.
    + unfold add. rewrite Hslash, Hstatic. simpl.
      rewrite (walk_conflict _ (mkEntry h mw) (mkEntry h' mw') _ steps
                 (root (registerAll later (mkRouter root1 (staticRoutes r0))))
                 Hcl).
      * by destruct (registerAll later _).
      * by apply registerAll_root_stable.
    + intros Hcolon Hstar. by rewrite Hcolon, Hstar in Hstatic.
Qed.

Lemma second_registration_conflicts_witness :
  add emptyRouter "GET" "/users/:id" [] 1 =
  ((add emptyRouter "GET" "/users/:id" [] 1).1, None)
  ∧ add (registerAll [("GET", "/users/me", [], 2); ("POST", "/user", [], 3)]
           (add emptyRouter "GET" "/users/:id" [] 1).1)
        "GET" "/users/:id" [] 4 =
    (registerAll [("GET", "/users/me", [], 2); ("POST", "/user", [], 3)]
       (add emptyRouter "GET" "/users/:id" [] 1).1,
     Some RouteConflictError).
Proof.
  split; [vm_compute; reflexivity|].
  apply (second_registration_conflicts emptyRouter "GET" "/users/:id" [] 1
           (add emptyRouter "GET" "/users/:id" [] 1).1).
  vm_compute; reflexivity.
Defined.

(** ** Middleware resolution *)

Lemma startsWith_spec p s :
  Js.startsWith p s = true ↔ ∃ more, s = p +:+ more.
Proof.
  revert s. induction p as [|a p IH]; intros s.
  - split; [by exists s | done].
  - destruct s as [|b s].
    + split; [done | by intros [more H]].
    + change (Js.startsWith (String a p) (String b s))
        with (Ascii.eqb a b && Js.startsWith p s).
      rewrite andb_true_iff, Ascii.eqb_eq, IH. split.
      * intros [-> [more ->]]. by exists more.
      * intros [more H]. injection H as -> ->. split; [done | by exists more].
Qed.

Lemma append_assoc (a b c : string) : (a +:+ b) +:+ c = a +:+ (b +:+ c).
Proof.
  induction a as [|x a IH]; [reflexivity|].
  change (String x ((a +:+ b) +:+ c) = String x (a +:+ (b +:+ c))).
  by f_equal.
Qed.

Lemma applies_inScope requestPath layer :
  MiddlewareChain.applies requestPath layer = true ↔ inScope requestPath layer.
Proof.
  unfold MiddlewareChain.applies, inScope.
  destruct (MiddlewareChain.path layer) as [prefix|]; [|done].
  rewrite orb_true_iff, String.eqb_eq, startsWith_spec.
  split; (intros [?|[more H]]; [by left | right; exists more]);
    by rewrite H, ?append_assoc.
Qed.

Lemma resolve_loop requestPath layers :
  ∀ acc,
    fold_left (λ acc layer,
                 if MiddlewareChain.applies requestPath layer
                 then acc ++ [MiddlewareChain.fn layer] else acc) layers acc =
    acc ++ (MiddlewareChain.fn <$>
              List.filter (MiddlewareChain.applies requestPath) layers).
Proof.
  induction layers as [|layer layers IH]; intros acc; simpl.
  - by rewrite app_nil_r.
  - rewrite IH. destruct (MiddlewareChain.applies requestPath layer); [|done].
    by rewrite <- app_assoc.
Qed.

Lemma push_all (routeMiddleware : list Fn) :
  ∀ acc, fold_left (λ acc f, acc ++ [f]) routeMiddleware acc = acc ++ routeMiddleware.
Proof.
  induction routeMiddleware as [|f fs IH]; intros acc; simpl.
  - by rewrite app_nil_r.
  - by rewrite IH, <- app_assoc.
Qed.

Lemma addAll_layers calls :
  addAll calls =
  (λ '(p, f), MiddlewareChain.mkLayer (MiddlewareChain.normalize <$> p) f) <$> calls.
Proof.
  unfold addAll.
  assert (∀ acc,
            fold_left (λ layers '(p, f), MiddlewareChain.add layers p f) calls acc =
            acc ++ ((λ '(p, f), MiddlewareChain.mkLayer
                                  (MiddlewareChain.normalize <$> p) f) <$> calls))
    as H; [|apply H].
  induction calls as [|[p f] calls IH]; intros acc; simpl.
  - by rewrite app_nil_r.
  - rewrite IH. unfold MiddlewareChain.add. by rewrite <- app_assoc.
Qed.

(** C5. After any sequence of [add] calls, [resolve] answers the
    functions of the layers in scope of the request path (global
    layers, and scoped layers whose prefix is the request path or is
    followed by ["/"] in it), in their order of registration whether
    global or scoped, followed by the route-level middleware in the
    order given; the layers are those given to [add], in order, with
    the prefix normalised.  With the global layer G, then the layer S on
    ["/api"], and the route-level R, the path [/api/users] resolves to G,
    S, R, and so does [/api], while [/apiv2] resolves to G, R. *)
Theorem resolve_in_registration_order :
  (∀ calls requestPath routeMiddleware,
      MiddlewareChain.resolve (addAll calls) requestPath routeMiddleware =
      resolved (addAll calls) requestPath routeMiddleware)
  ∧ (∀ requestPath layer,
        MiddlewareChain.applies requestPath layer = true ↔ inScope requestPath layer)
  ∧ (∀ calls,
        addAll calls =
        (λ '(p, f), MiddlewareChain.mkLayer (MiddlewareChain.normalize <$> p) f)
          <$> calls)
  ∧ (∀ G S R,
        MiddlewareChain.resolve (addAll [(None, G); (Some "/api", S)])
                                "/api/users" [R] = [G; S; R]
        ∧ MiddlewareChain.resolve (addAll [(None, G); (Some "/api", S)])
                                  "/api" [R] = [G; S; R]
        ∧ MiddlewareChain.resolve (addAll [(None, G); (Some "/api", S)])
                                  "/apiv2" [R] = [G; R]).
Proof.
  split; [|split; [|split]].
  - intros calls requestPath routeMiddleware.
    unfold MiddlewareChain.resolve, resolved.
    by rewrite push_all, resolve_loop.
  - apply applies_inScope.
  - apply addAll_layers.
  - intros G S R. repeat split.
Qed.

(** ** Chain execution *)

Section ChainExecution.
Import MiddlewareChain.

Variable cfg : Config.

Lemma sumOf_app {A} (f : A → nat) l1 l2 :
  sumOf f (l1 ++ l2) = sumOf f l1 + sumOf f l2.
Proof. induction l1 as [|x l1 IH]; simpl; [done | rewrite IH; lia]. Qed.

Lemma invocations_next n :
  invocations n Running ++ [EvMiddleware n] = invocations (S n) Running.
Proof.
  unfold invocations. cbn [afterMiddleware].
  rewrite !app_nil_r, seq_S, fmap_app. done.
Qed.

Lemma callsOnce_lookup i m :
  callsOnce cfg → middlewareFns cfg !! i = Some m →
  callsLeft (mkFrame (body m) (completion m) false) ≤ 1.
Proof.
  intros Hall Hm. unfold callsOnce in Hall.
  rewrite List.Forall_forall in Hall. apply Hall.
  apply list_elem_of_In. by eapply list_elem_of_lookup_2.
Qed.

Ltac pending :=
  unfold callsPending, handlerRejections in *; simpl in *;
  repeat match goal with
         | H : stack ?s = _ |- context [stack ?s] => rewrite H
         end;
  rewrite ?sumOf_app in *; simpl in *;
  unfold callsLeft in *; simpl in *; lia.

(** A continuation call made when no other is still to come leaves
    the execution orderly. *)
Lemma next_orderly err st :
  callsOnce cfg →
  trace st = invocations (idx st) Running →
  callsPending st = 0 →
  handlerRejections st = 0 →
  (∀ e, In (HandlerRejected e) (queue st) →
        h_completion (routeHandler cfg) = Rejects e) →
  orderly cfg (next cfg err st).
Proof.
  intros Honce Htr Hcalls Hrej Hq. unfold next.
  destruct (truthy err).
  { exists (Errored err). unfold callErrorHandler. simpl.
    rewrite Htr. unfold invocations. simpl. rewrite app_nil_r.
    repeat split; try done. }
  destruct (sent st).
  { exists Running. repeat split; try done. lia. }
  destruct (length (middlewareFns cfg) <=? idx st).
  { unfold callHandler.
    destruct (h_completion (routeHandler cfg)) as [|e|e] eqn:Hh;
      rewrite <- Hh in Hq.
    - exists Done. simpl. rewrite Htr. unfold invocations. simpl.
      rewrite app_nil_r. repeat split; try done; pending.
    - exists (DoneErrored e). unfold callErrorHandler. simpl. rewrite Htr.
      unfold invocations. simpl. rewrite app_nil_r, <- app_assoc.
      repeat split; try done. by left.
    - exists Done. simpl. rewrite Htr. unfold invocations. simpl.
      rewrite app_nil_r. repeat split; try done; try pending.
      intros e' Hin. apply in_app_or in Hin as [Hin|[Hin|[]]]; [by apply Hq|].
      injection Hin as <-. by rewrite Hh. }
  destruct (middlewareFns cfg !! idx st) as [m|] eqn:Hm.
  - exists Running. simpl. rewrite Htr, invocations_next.
    repeat split; try done.
    pose proof (callsOnce_lookup _ _ Honce Hm). pending.
  - exists Running. repeat split; try done. lia.
Qed.

Lemma execute_orderly : callsOnce cfg → orderly cfg (execute cfg).
Proof. intros Honce. by apply next_orderly. Qed.
Lemma step_orderly st st' :
  callsOnce cfg → orderly cfg st → step cfg st st' → orderly cfg st'.
Proof.
  intros Honce (p & Htr & Hgen & Hq & Hp) Hstep.
  destruct Hstep as [st f rest Hstack | st pre t post Hstack Hqueue].
  - (* the innermost call in progress makes a step *)
    assert (callsPending st =
            callsLeft f + sumOf callsLeft rest + sumOf taskCallsLeft (queue st))
      as Hcalls by (unfold callsPending; by rewrite Hstack).
    unfold stepFrame. destruct f as [acts fin res]. cbn [todo MiddlewareChain.ending resumed].
    destruct acts as [|[err| |] acts].
    + destruct fin as [|e|e].
      * exists p. repeat split; try done. destruct p; pending.
      * destruct res.
        -- exists p. repeat split; try done.
           ++ intros e' Hin. apply in_app_or in Hin as [Hin|[Hin|[]]];
                [by apply Hq | done].
           ++ destruct p; pending.
        -- destruct p; try pending. apply next_orderly; try done; pending.
      * exists p. repeat split; try done.
        -- intros e' Hin. apply in_app_or in Hin as [Hin|[Hin|[]]];
             [by apply Hq | done].
        -- destruct p; pending.
    + destruct p; try pending. apply next_orderly; try done; pending.
    + exists p. repeat split; try done. destruct p; pending.
    + exists p. repeat split; try done.
      * intros e' Hin. apply in_app_or in Hin as [Hin|[Hin|[]]];
          [by apply Hq | done].
      * destruct p; pending.
  - (* a pending callback runs *)
    assert (callsPending st =
            sumOf taskCallsLeft pre + taskCallsLeft t + sumOf taskCallsLeft post)
      as Hcalls.
    { unfold callsPending. rewrite Hstack, Hqueue, sumOf_app. simpl. lia. }
    assert (handlerRejections st =
            sumOf (λ t, match t with HandlerRejected _ => 1 | _ => 0 end) pre
            + match t with HandlerRejected _ => 1 | _ => 0 end
            + sumOf (λ t, match t with HandlerRejected _ => 1 | _ => 0 end) post)
      as Hrejections.
    { unfold handlerRejections. rewrite Hqueue, sumOf_app. simpl. lia. }
    assert (∀ e, In (HandlerRejected e) (pre ++ post) →
                 h_completion (routeHandler cfg) = Rejects e) as Hq'.
    { intros e Hin. apply Hq. rewrite Hqueue.
      apply in_app_or in Hin as [Hin|Hin]; apply in_or_app;
        [by left | right; by right]. }
    unfold runTask. destruct t as [f|e|e].
    + exists p. repeat split; try done. destruct p; pending.
    + destruct p; try pending. apply next_orderly; try done; pending.
    + destruct p; try pending.
      exists (DoneErrored e). unfold callErrorHandler. simpl. rewrite Htr.
      unfold invocations. simpl. rewrite <- app_assoc.
      repeat split; try done; try pending.
      right. apply Hq. rewrite Hqueue. apply in_elt.
Qed.

Lemma reachable_orderly st :
  callsOnce cfg → reachable cfg st → orderly cfg st.
Proof.
  intros Honce. induction 1 as [|st st' _ IH Hstep].
  - by apply execute_orderly.
  - by eapply step_orderly.
Qed.

Lemma runFifo_reachable n :
  ∀ st, reachable cfg st → reachable cfg (runFifo cfg n st).
Proof.
  induction n as [|n IH]; intros st Hst; simpl; [done|].
  unfold stepFifo. destruct (stack st) as [|f rest] eqn:Hstack.
  - destruct (queue st) as [|t others] eqn:Hqueue; [done|].
    apply IH. eapply reach_step; [exact Hst|].
    by apply (step_task cfg st [] t others).
  - apply IH. eapply reach_step; [exact Hst|]. by apply step_frame.
Qed.

Lemma traceAfter_reachable n :
  reachable cfg (runFifo cfg n (execute cfg)).
Proof. apply runFifo_reachable. constructor. Qed.

(** *** Once the response is sent *)

Lemma next_when_sent err st :
  sent st = true →
  sent (next cfg err st) = true ∧ idx (next cfg err st) = idx st
  ∧ stack (next cfg err st) = stack st
  ∧ ∃ errs, trace (next cfg err st) = trace st ++ errs ∧ Forall isError errs.
Proof.
  intros Hsent. unfold next. destruct (truthy err).
  - unfold callErrorHandler. simpl. rewrite Hsent. repeat split.
    exists [EvError err]. split; [done|]. constructor; [by exists err | constructor].
  - rewrite Hsent. repeat split; try done. exists []. by rewrite app_nil_r.
Qed.

Lemma step_when_sent st st' :
  sent st = true → step cfg st st' →
  sent st' = true ∧ idx st' = idx st
  ∧ ∃ errs, trace st' = trace st ++ errs ∧ Forall isError errs.
Proof.
  intros Hsent Hstep.
  assert (∀ s, sent s = true → idx s = idx st → trace s = trace st →
               ∀ err, sent (next cfg err s) = true ∧ idx (next cfg err s) = idx st
                      ∧ ∃ errs, trace (next cfg err s) = trace st ++ errs
                                ∧ Forall isError errs) as Hnext.
  { intros s Hs Hi Ht err.
    destruct (next_when_sent err s Hs) as (? & ? & _ & errs & ? & ?).
    repeat split; [done | congruence|]. exists errs. split; [congruence | done]. }
  assert (∃ errs, trace st = trace st ++ errs ∧ Forall isError errs) as Hsame.
  { exists []. by rewrite app_nil_r. }
  destruct Hstep as [st f rest Hstack | st pre t post Hstack Hqueue].
  - unfold stepFrame. destruct (todo f) as [|[err| |] acts].
    + destruct (MiddlewareChain.ending f) as [|e|e]; [done| |done].
      destruct (resumed f); [done|]. by apply Hnext.
    + by apply Hnext.
    + done.
    + done.
  - unfold runTask. destruct t as [f|e|e].
    + done.
    + by apply Hnext.
    + unfold callErrorHandler. simpl. rewrite Hsent. repeat split.
      exists [EvError e]. split; [done|].
      constructor; [by exists e | constructor].
Qed.

Lemma first_sends_only_first acts fin rest st :
  middlewareFns cfg = mkMiddleware (Send :: acts) fin :: rest →
  initiallySent cfg = false →
  reachable cfg st →
  (st = execute cfg ∨ sent st = true)
  ∧ ∃ errs, trace st = EvMiddleware 0 :: errs ∧ Forall isError errs.
Proof.
  intros Hfns Hinit.
  assert (execute cfg =
          mkState 1 false [mkFrame (Send :: acts) fin false] [] [EvMiddleware 0])
    as Hexec.
  { unfold execute, next. simpl. by rewrite Hinit, Hfns. }
  induction 1 as [|st st' Hreach [Hcase (errs & Htr & Herrs)] Hstep].
  - split; [by left|]. exists []. by rewrite Hexec.
  - destruct Hcase as [-> | Hsent].
    + rewrite Hexec in Hstep |- *.
      inversion Hstep as [s f others Hstack | s pre t post Hstack]; subst;
        simpl in *; [|done].
      injection Hstack as <- <-. unfold stepFrame. simpl.
      split; [by right|]. exists []. done.
    + destruct (step_when_sent st st' Hsent Hstep) as (Hs & _ & more & Htr' & Hmore).
      split; [by right|]. exists (errs ++ more).
      split; [by rewrite Htr', Htr | by apply Forall_app].
Qed.

End ChainExecution.

(** The counterexample to C3 as stated.  With no middleware and a
    handler that throws, [execute] invokes the handler and then the
    error handler: both run.  And a middleware that calls [next(err)]
    and then [next()] gets the error handler invoked and, after it, the
    handler. *)
Lemma handler_and_error_handler_both_run :
  MiddlewareChain.trace (MiddlewareChain.execute throwingHandler) =
  [MiddlewareChain.EvHandler; MiddlewareChain.EvError boom]
  ∧ MiddlewareChain.traceAfter callsTwice 2 =
    [MiddlewareChain.EvMiddleware 0; MiddlewareChain.EvError boom;
     MiddlewareChain.EvHandler]
  ∧ MiddlewareChain.reachable callsTwice
      (MiddlewareChain.runFifo callsTwice 2 (MiddlewareChain.execute callsTwice))
  ∧ ¬ (∀ cfg st,
         MiddlewareChain.reachable cfg st →
         ¬ (In MiddlewareChain.EvHandler (MiddlewareChain.trace st)
            ∧ ∃ e, In (MiddlewareChain.EvError e) (MiddlewareChain.trace st))).
Proof.
  split; [reflexivity|]. split; [reflexivity|]. split.
  - apply traceAfter_reachable.
  - intros H.
    apply (H throwingHandler (MiddlewareChain.execute throwingHandler)).
    + constructor.
    + split; [by left|]. exists boom. right. by left.
Qed.

(** C3, amended.  In an execution in which no middleware function
    calls its continuation more than once (a throw and a rejected promise
    count as a call, since [execute] answers them by calling [next]), the
    invocations are at every moment: the middleware functions entered so
    far, in order, then possibly the error handler alone, or the handler
    alone, or the handler followed by the error handler, this last only
    for the handler's own throw or rejection.  So the handler runs at
    most once, the error handler at most once, and whenever the error
    handler has been invoked it is the last invocation: no middleware
    function and no handler runs after it. *)
Theorem chain_invocations_in_order cfg st :
  callsOnce cfg →
  MiddlewareChain.reachable cfg st →
  (∃ p, MiddlewareChain.trace st = invocations (MiddlewareChain.idx st) p
        ∧ genuine cfg p)
  ∧ (∀ e, In (MiddlewareChain.EvError e) (MiddlewareChain.trace st) →
          ∃ before, MiddlewareChain.trace st = before ++ [MiddlewareChain.EvError e]).
Proof.
  intros Honce Hreach.
  destruct (reachable_orderly cfg st Honce Hreach) as (p & Htr & Hgen & _).
  split; [by exists p|]. intros e Hin. rewrite Htr in Hin |- *.
  unfold invocations in *. apply in_app_or in Hin as [Hin|Hin].
  { apply in_map_iff in Hin as (i & Hi & _). discriminate. }
  destruct p as [|e'| |e']; simpl in Hin.
  - done.
  - destruct Hin as [[= <-]|[]]. by eexists.
  - by destruct Hin as [|[]].
  - destruct Hin as [|[[= <-]|[]]]; [done|].
    exists ((MiddlewareChain.EvMiddleware <$> seq 0 (MiddlewareChain.idx st))
              ++ [MiddlewareChain.EvHandler]).
    by rewrite <- app_assoc.
Qed.

Lemma chain_invocations_in_order_witness :
  callsOnce wellBehaved
  ∧ MiddlewareChain.traceAfter wellBehaved 5 =
    [MiddlewareChain.EvMiddleware 0; MiddlewareChain.EvHandler;
     MiddlewareChain.EvError boom]
  ∧ ∃ before,
      MiddlewareChain.traceAfter wellBehaved 5 =
      before ++ [MiddlewareChain.EvError boom].
Proof.
  assert (callsOnce wellBehaved) as Honce.
  { repeat constructor. }
  split; [exact Honce|]. split; [reflexivity|].
  apply (chain_invocations_in_order wellBehaved
           (MiddlewareChain.runFifo wellBehaved 5
              (MiddlewareChain.execute wellBehaved)) Honce).
  - apply traceAfter_reachable.
  - vm_compute. right. right. by left.
Defined.

(** C9.  A continuation call without an error that finds the response
    already sent returns at once and changes nothing.  From then on
    every step of the execution keeps the response sent and the cursor
    where it is, and invokes nothing but the error handler (for a
    continuation call with an error, a throw or a rejection).  A first
    middleware that sends the response and then goes on, calling its
    continuation or not, has no later middleware function and no
    handler run. *)
Theorem sent_response_stops_chain :
  (∀ cfg err st,
      MiddlewareChain.truthy err = false →
      MiddlewareChain.sent st = true →
      MiddlewareChain.next cfg err st = st)
  ∧ (∀ cfg st st',
        MiddlewareChain.sent st = true →
        MiddlewareChain.step cfg st st' →
        MiddlewareChain.sent st' = true
        ∧ MiddlewareChain.idx st' = MiddlewareChain.idx st
        ∧ ∃ errs, MiddlewareChain.trace st' = MiddlewareChain.trace st ++ errs
                  ∧ Forall isError errs)
  ∧ (∀ cfg acts fin rest st,
        MiddlewareChain.middlewareFns cfg =
          MiddlewareChain.mkMiddleware (MiddlewareChain.Send :: acts) fin :: rest →
        MiddlewareChain.initiallySent cfg = false →
        MiddlewareChain.reachable cfg st →
        ∃ errs, MiddlewareChain.trace st = MiddlewareChain.EvMiddleware 0 :: errs
                ∧ Forall isError errs)
  ∧ (∀ n, MiddlewareChain.traceAfter sendsThenContinues (S n) =
          [MiddlewareChain.EvMiddleware 0]).
Proof.
  split; [|split; [|split]].
  - intros cfg err st Herr Hsent. unfold MiddlewareChain.next.
    by rewrite Herr, Hsent.
  - intros cfg st st'. apply step_when_sent.
  - intros cfg acts fin rest st Hfns Hinit Hreach.
    by destruct (first_sends_only_first cfg acts fin rest st Hfns Hinit Hreach).
  - intros [|[|[|n]]]; reflexivity.
Qed.

(** * Further properties of the router *)

(** ** Which paths [add] accepts *)

Lemma empty_name_segment s :
  Js.startsWith ":" s = true → Js.truthy (Js.slice 1 s) = false → s = ":".
Proof.
  destruct s as [|c [|d s]]; try done.
  intros H _. unfold Js.startsWith in H. apply andb_true_iff in H as [Hc _].
  apply Ascii.eqb_eq in Hc as <-. done.
Qed.

Lemma classify_malformed segments :
  classify segments = None ↔ malformed segments.
Proof.
  split.
  - induction segments as [|s rest IH]; [done|].
    rewrite classify_cons.
    assert (malformed rest → malformed (s :: rest)) as Hlater.
    { intros (before & segment & after & -> & Hbad).
      by exists (s :: before), segment, after. }
    destruct (Js.startsWith ":" s) eqn:Hcolon.
    + destruct (Js.truthy (Js.slice 1 s)) eqn:Hname.
      * destruct (classify rest); [done|]. intros _. by apply Hlater, IH.
      * intros _. exists [], s, rest. split; [done|]. left.
        by apply empty_name_segment.
    + destruct (String.eqb_spec s "*") as [->|_].
      * destruct rest as [|s' rest]; [done|]. intros _.
        exists [], "*", (s' :: rest). split; [done|]. by right.
      * destruct (classify rest); [done|]. intros _. by apply Hlater, IH.
  - intros (before & segment & after & -> & Hbad).
    induction before as [|s before IH].
    + destruct Hbad as [-> | [-> Hafter]]; [done|]. by destruct after.
    + change ((s :: before) ++ segment :: after)
        with (s :: (before ++ segment :: after)).
      rewrite classify_cons, IH.
      destruct (Js.startsWith ":" s); [by destruct (Js.truthy _)|].
      destruct (String.eqb s "*"); [by destruct before|done].
Qed.

Lemma walk_wellformed method entry segments :
  ∀ steps node,
    classify segments = Some steps →
    (walk method entry segments node).2 = None
    ∨ (walk method entry segments node).2 = Some RouteConflictError.
Proof.
  induction segments as [|s rest IH]; intros steps node Hcl.
  - rewrite walk_nil. destruct (handlers node !! method); [by right | by left].
  - rewrite walk_cons. cbv zeta. rewrite classify_cons in Hcl.
    destruct (Js.startsWith ":" s).
    + destruct (Js.truthy (Js.slice 1 s)); [|done]. cbn [negb].
      destruct (classify rest) as [steps'|] eqn:Hrest; [|done].
      destruct (paramChild node) as [pc|].
      * destruct (negb (bool_decide _)); [by right|].
        specialize (IH steps' pc eq_refl). by destruct (walk _ _ rest pc).
      * specialize (IH steps' (newParamNode s (Js.slice 1 s)) eq_refl).
        by destruct (walk _ _ rest _).
    + destruct (String.eqb s "*").
      * destruct rest; [|done].
        match goal with |- context [walk method entry [] ?n] =>
          specialize (IH [] n eq_refl); by destruct (walk method entry [] n)
        end.
      * destruct (classify rest) as [steps'|] eqn:Hrest; [|done].
        apply (_insertStatic_thrown
                 (λ t, t = None ∨ t = Some RouteConflictError)).
        intros n. by apply (IH steps').
Qed.

(** X5. [add] throws [InvalidRouteError] for malformed paths only: when
    the path starts with ["/"], has no parameter segment with an empty
    name and no ["*"] segment before the last, [add] either returns or
    throws [RouteConflictError], in every router state; and whenever
    [add] returns, the path is of that kind. *)
Theorem add_accepts_wellformed_paths :
  (∀ r method path mw h,
      Js.startsWith "/" path = true →
      ¬ malformed (_splitPath path) →
      (add r method path mw h).2 = None
      ∨ (add r method path mw h).2 = Some RouteConflictError)
  ∧ (∀ r method path mw h,
        (add r method path mw h).2 = None →
        Js.startsWith "/" path = true ∧ ¬ malformed (_splitPath path)).
Proof.
  split.
  - intros r method path mw h Hslash Hgood. unfold add. rewrite Hslash.
    cbn [negb]. destruct (_ && bool_decide _); [by right|].
    destruct (classify (_splitPath path)) as [steps|] eqn:Hcl.
    + pose proof (walk_wellformed (Js.toUpperCase method) (mkEntry h mw)
                    (_splitPath path) steps (root r) Hcl) as H.
      by destruct (walk _ _ _ (root r)).
    + by apply classify_malformed in Hcl.
  - intros r method path mw h Hadd. unfold add in Hadd.
    destruct (Js.startsWith "/" path); [|done]. split; [done|].
    cbn [negb] in Hadd. destruct (_ && bool_decide _); [done|].
    destruct (walk _ _ _ (root r)) as [root' t] eqn:Hwalk. simpl in Hadd. subst t.
    destruct (walk_holds _ _ _ (_splitPath_positive path) _ _ Hwalk)
      as (steps & Hcl & _).
    intros Hbad. apply classify_malformed in Hbad. congruence.
Qed.

(** ** [find] answers registered entries only *)

Lemma stored_inv method e n :
  stored method e n ↔
  handlers n !! method = Some e
  ∨ (∃ c, In c (children n) ∧ stored method e c)
  ∨ (∃ c, paramChild n = Some c ∧ stored method e c)
  ∨ (∃ c, wildcardChild n = Some c ∧ stored method e c).
Proof.
  split.
  - intros [n' H | n' c Hc H | n' c Hc H | n' c Hc H]; eauto 6.
  - intros [H | [(c & Hc & H) | [(c & Hc & H) | (c & Hc & H)]]].
    + by apply stored_here.
    + by eapply stored_static.
    + by eapply stored_param.
    + by eapply stored_wildcard.
Qed.

Lemma stored_setLabel method e l n :
  stored method e (setLabel l n) ↔ stored method e n.
Proof. by rewrite !stored_inv. Qed.

Lemma stored_leaf method e l pn iw :
  ¬ stored method e (mkNode l [] ∅ pn iw None None).
Proof.
  rewrite stored_inv. simpl. rewrite lookup_empty.
  intros [? | [(c & [] & _) | [(c & ? & _) | (c & ? & _)]]]; done.
Qed.

Lemma staticLoop_stored method remaining cs :
  Forall (λ c, ∀ segs params res,
            (_search method c segs params).1 = Some res →
            stored method (mkEntry (m_handler res) (m_middleware res)) c) cs →
  ∀ params res,
    (staticLoop (_search method) remaining cs params).1 = Some res →
    ∃ c, In c cs
         ∧ stored method (mkEntry (m_handler res) (m_middleware res)) c.
Proof.
  induction 1 as [|c cs Hc _ IH]; intros params res Hres; simpl in Hres.
  - done.
  - destruct (_matchStatic c remaining) as [next|].
    + specialize (Hc next params).
      destruct (_search method c next params) as [[found|] params'].
      * simpl in Hres. injection Hres as ->. exists c. split; [by left|].
        by apply Hc.
      * destruct (IH params' res Hres) as (c' & Hin & Hst).
        exists c'. split; [by right | done].
    + destruct (IH params res Hres) as (c' & Hin & Hst).
      exists c'. split; [by right | done].
Qed.

Lemma _search_stored method node :
  ∀ segs params res,
    (_search method node segs params).1 = Some res →
    stored method (mkEntry (m_handler res) (m_middleware res)) node.
Proof.
  induction node as [l cs hs pn iw pc wc IHcs IHpc IHwc] using RadixNode_nested_ind.
  intros [|segment rest] params res Hres.
  - rewrite _search_exhausted in Hres. simpl in Hres.
    destruct (hs !! method) as [[h mw]|] eqn:Hh; [|done].
    simpl in Hres. injection Hres as <-. by apply stored_here.
  - rewrite _search_segment in Hres. cbn [children paramChild wildcardChild] in Hres.
    pose proof (staticLoop_stored method (segment :: rest) cs IHcs params) as Hs.
    destruct (staticLoop _ _ cs params) as [[found|] params1].
    { destruct (Hs res Hres) as (c & Hin & Hst). by eapply stored_static. }
    clear Hs. unfold paramStep in Hres. destruct pc as [p|].
    + specialize (IHpc p eq_refl rest
                    (Js.assign (default "null" (paramName p)) segment params1)).
      destruct (_search method p rest _) as [[found|] params2].
      { eapply stored_param; [done|]. by apply IHpc. }
      unfold wildcardStep in Hres. destruct wc as [w|]; [|done].
      destruct (handlers w !! method) as [[h mw]|] eqn:Hh; [|done].
      simpl in Hres. injection Hres as <-.
      eapply stored_wildcard; [done|]. by apply stored_here.
    + unfold wildcardStep in Hres. destruct wc as [w|]; [|done].
      destruct (handlers w !! method) as [[h mw]|] eqn:Hh; [|done].
      simpl in Hres. injection Hres as <-.
      eapply stored_wildcard; [done|]. by apply stored_here.
Qed.

Lemma insertLoop_stored (P : Prop) method e k segment cs :
  (∀ n, stored method e (k n).1 → stored method e n ∨ P) →
  Forall (λ c, ∀ s, stored method e (_insertStatic k c s).1 →
                    stored method e c ∨ P) cs →
  ∀ c', In c' (insertLoop k (_insertStatic k) segment cs).1 →
        stored method e c' →
        (∃ c, In c cs ∧ stored method e c) ∨ P.
Proof.
  intros Hk. induction 1 as [|c cs Hc _ IH]; intros c' Hin Hst; simpl in Hin.
  - specialize (Hk (newNode segment)).
    destruct (k (newNode segment)) as [n t]. simpl in *.
    destruct Hin as [<-|[]]. destruct (Hk Hst) as [Hleaf|HP]; [|by right].
    by apply stored_leaf in Hleaf.
  - assert (∀ x, In x cs → stored method e x →
                 (∃ c0, In c0 (c :: cs) ∧ stored method e c0) ∨ P) as Htail.
    { intros x Hx Hsx. left. exists x. split; [by right | done]. }
    assert (stored method e c →
            (∃ c0, In c0 (c :: cs) ∧ stored method e c0) ∨ P) as Hhead.
    { intros Hsc. left. exists c. split; [by left | done]. }
    assert (∀ x, In x (insertLoop k (_insertStatic k) segment cs).1 →
                 stored method e x →
                 (∃ c0, In c0 (c :: cs) ∧ stored method e c0) ∨ P) as Hloop.
    { intros x Hx Hsx. destruct (IH x Hx Hsx) as [(c0 & Hc0 & Hs0)|HP];
        [|by right]. left. exists c0. split; [by right | done]. }
    destruct (_commonPrefixLength (label c) segment =? 0).
    { destruct (insertLoop _ _ segment cs) as [others t]. simpl in *.
      destruct Hin as [<-|Hin]; [by apply Hhead | by apply (Hloop c')]. }
    destruct ((_commonPrefixLength (label c) segment =? Js.len (label c))
              && (_commonPrefixLength (label c) segment =? Js.len segment)).
    { specialize (Hk c). destruct (k c) as [c2 t]. simpl in *.
      destruct Hin as [<-|Hin]; [|by apply (Htail c')].
      destruct (Hk Hst) as [?|?]; [by apply Hhead | by right]. }
    destruct (_commonPrefixLength (label c) segment =? Js.len (label c)).
    { specialize (Hc (Js.slice (_commonPrefixLength (label c) segment) segment)).
      destruct (_insertStatic k c _) as [c2 t]. simpl in *.
      destruct Hin as [<-|Hin]; [|by apply (Htail c')].
      destruct (Hc Hst) as [?|?]; [by apply Hhead | by right]. }
    destruct (_commonPrefixLength (label c) segment <? Js.len (label c)).
    + destruct (_commonPrefixLength (label c) segment =? Js.len segment).
      * match type of Hin with context [k ?n] =>
          specialize (Hk n); destruct (k n) as [s2 t]
        end.
        simpl in *. destruct Hin as [<-|Hin]; [|by apply (Htail c')].
        destruct (Hk Hst) as [Hsplit|?]; [|by right].
        apply stored_inv in Hsplit. simpl in Hsplit. rewrite lookup_empty in Hsplit.
        destruct Hsplit as [? | [(x & [<-|[]] & Hx) | [(x & ? & _) | (x & ? & _)]]];
          try done.
        apply Hhead. by apply stored_setLabel in Hx.
      * match type of Hin with context [k ?n] =>
          specialize (Hk n); destruct (k n) as [n2 t]
        end.
        simpl in *. destruct Hin as [<-|Hin]; [|by apply (Htail c')].
        apply stored_inv in Hst. simpl in Hst. rewrite lookup_empty in Hst.
        destruct Hst as [? | [(x & [<-|[<-|[]]] & Hx) | [(x & ? & _) | (x & ? & _)]]];
          try done.
        -- apply Hhead. by apply stored_setLabel in Hx.
        -- destruct (Hk Hx) as [Hleaf|?]; [|by right].
           by apply stored_leaf in Hleaf.
    + destruct (insertLoop _ _ segment cs) as [others t]. simpl in *.
      destruct Hin as [<-|Hin]; [by apply Hhead | by apply (Hloop c')].
Qed.

Lemma _insertStatic_stored (P : Prop) method e k :
  (∀ n, stored method e (k n).1 → stored method e n ∨ P) →
  ∀ parent segment,
    stored method e (_insertStatic k parent segment).1 →
    stored method e parent ∨ P.
Proof.
  intros Hk parent.
  induction parent as [l cs hs pn iw pc wc IHcs _ _] using RadixNode_nested_ind.
  intros segment Hst.
  destruct (_insertStatic_shell k (mkNode l cs hs pn iw pc wc) segment)
    as (_ & Hhs & _ & Hpc & Hwc).
  apply stored_inv in Hst. rewrite Hhs, Hpc, Hwc, _insertStatic_children in Hst.
  destruct Hst as [H | [(c & Hin & H) | [H | H]]].
  - left. apply stored_inv. by left.
  - destruct (insertLoop_stored P method e k segment cs Hk IHcs c Hin H)
      as [(c0 & Hc0 & Hs0)|HP]; [|by right].
    left. by eapply stored_static.
  - left. apply stored_inv. right. right. by left.
  - left. apply stored_inv. right. right. by right.
Qed.

Lemma walk_stored method e inserting entry segments :
  ∀ node,
    stored method e (walk inserting entry segments node).1 →
    stored method e node ∨ (inserting = method ∧ entry = e).
Proof.
  induction segments as [|segment rest IH]; intros node Hst.
  - rewrite walk_nil in Hst. destruct (handlers node !! inserting) eqn:Hh;
      [by left|].
    apply stored_inv in Hst. simpl in Hst.
    destruct Hst as [H | H].
    + apply lookup_insert_Some in H as [[-> ->] | [_ H]]; [by right|].
      left. by apply stored_here.
    + left. apply stored_inv. by right.
  - rewrite walk_cons in Hst. cbv zeta in Hst.
    destruct (Js.startsWith ":" segment).
    + destruct (negb (Js.truthy (Js.slice 1 segment))); [by left|].
      destruct (paramChild node) as [pc|] eqn:Hpc.
      * destruct (negb (bool_decide _)); [by left|].
        specialize (IH pc). destruct (walk inserting entry rest pc) as [c t].
        apply stored_inv in Hst. simpl in *.
        destruct Hst as [H | [H | [(x & [= <-] & H) | H]]].
        -- left. by apply stored_here.
        -- left. apply stored_inv. right. by left.
        -- destruct (IH H) as [?|?]; [|by right].
           left. by eapply stored_param.
        -- left. apply stored_inv. right. right. by right.
      * specialize (IH (newParamNode segment (Js.slice 1 segment))).
        destruct (walk inserting entry rest _) as [c t].
        apply stored_inv in Hst. simpl in *.
        destruct Hst as [H | [H | [(x & [= <-] & H) | H]]].
        -- left. by apply stored_here.
        -- left. apply stored_inv. right. by left.
        -- destruct (IH H) as [Hleaf|?]; [|by right].
           by apply stored_leaf in Hleaf.
        -- left. apply stored_inv. right. right. by right.
    + destruct (String.eqb segment "*").
      * destruct rest as [|? ?]; [|by left].
        destruct (wildcardChild node) as [w|] eqn:Hw.
        -- specialize (IH w). destruct (walk inserting entry [] w) as [c t].
           apply stored_inv in Hst. simpl in *.
           destruct Hst as [H | [H | [H | (x & [= <-] & H)]]].
           ++ left. by apply stored_here.
           ++ left. apply stored_inv. right. by left.
           ++ left. apply stored_inv. right. right. by left.
           ++ destruct (IH H) as [?|?]; [|by right].
              left. by eapply stored_wildcard.
        -- specialize (IH newWildcardNode).
           destruct (walk inserting entry [] newWildcardNode) as [c t].
           apply stored_inv in Hst. simpl in *.
           destruct Hst as [H | [H | [H | (x & [= <-] & H)]]].
           ++ left. by apply stored_here.
           ++ left. apply stored_inv. right. by left.
           ++ left. apply stored_inv. right. right. by left.
           ++ destruct (IH H) as [Hleaf|?]; [|by right].
              by apply stored_leaf in Hleaf.
      * revert Hst. apply _insertStatic_stored. intros n. apply IH.
Qed.

Lemma holdsOnly_more calls more r :
  holdsOnly calls r → holdsOnly (calls ++ more) r.
Proof.
  intros [Hcache Htree]. split.
  - intros key e H. destruct (Hcache key e H) as (call & Hin & Hc).
    exists call. split; [apply in_or_app; by left | done].
  - intros method e H. destruct (Htree method e H) as (call & Hin & Hc).
    exists call. split; [apply in_or_app; by left | done].
Qed.

Lemma add_holdsOnly calls r method path mw h :
  holdsOnly calls r →
  holdsOnly (calls ++ [(method, path, mw, h)]) (add r method path mw h).1.
Proof.
  intros Hr. pose proof (holdsOnly_more calls [(method, path, mw, h)] r Hr)
    as [Hcache Htree].
  assert (In (method, path, mw, h) (calls ++ [(method, path, mw, h)])) as Hlast.
  { apply in_or_app. right. by left. }
  unfold add. destruct (negb (Js.startsWith "/" path)); [done|].
  destruct (_ && bool_decide _); [done|].
  pose proof (walk_stored) as Hwalk.
  destruct (walk (Js.toUpperCase method) (mkEntry h mw) (_splitPath path) (root r))
    as [root' t] eqn:E.
  split; simpl.
  - intros key e H.
    destruct (negb (Js.includes ":" path) && negb (Js.includes "*" path));
      [|by apply Hcache].
    apply lookup_insert_Some in H as [[<- <-] | [_ H]]; [|by apply Hcache].
    by exists (method, path, mw, h).
  - intros method' e H.
    specialize (Hwalk method' e (Js.toUpperCase method) (mkEntry h mw)
                  (_splitPath path) (root r)).
    rewrite E in Hwalk. destruct (Hwalk H) as [Hold | [<- <-]];
      [by apply Htree|].
    by exists (method, path, mw, h).
Qed.

Lemma registerAll_holdsOnly later :
  ∀ calls r, holdsOnly calls r → holdsOnly (calls ++ later) (registerAll later r).
Proof.
  induction later as [|[[[method path] mw] h] later IH]; intros calls r Hr.
  - by rewrite app_nil_r.
  - rewrite registerAll_cons.
    change (calls ++ (method, path, mw, h) :: later)
      with (calls ++ [(method, path, mw, h)] ++ later).
    rewrite app_assoc. apply IH. by apply add_holdsOnly.
Qed.

(** X6. [find] never answers anything that was not registered: in a
    router built by any calls of [add] on a new router (calls that threw
    included, since a call can set its static cache entry before it
    throws), every result of [find] carries the handler and the
    middleware given to one of those calls, made for the same method in
    upper case or, when the static cache answered, with the same cache
    key. *)
Theorem find_answers_registered_entries calls method path res :
  find (registerAll calls emptyRouter) method path = Some res →
  ∃ m p mw h,
    In (m, p, mw, h) calls
    ∧ m_handler res = h ∧ m_middleware res = mw
    ∧ (Js.toUpperCase m = Js.toUpperCase method
       ∨ staticKey (Js.toUpperCase m) p = staticKey (Js.toUpperCase method) path).
Proof.
  intros Hfind.
  assert (holdsOnly calls (registerAll calls emptyRouter)) as [Hcache Htree].
  { apply (registerAll_holdsOnly calls [] emptyRouter). split.
    - intros key e H. simpl in H. by rewrite lookup_empty in H.
    - intros m e H. by apply stored_leaf in H. }
  unfold find in Hfind.
  destruct (staticRoutes _ !! staticKey (Js.toUpperCase method) path)
    as [[h mw]|] eqn:Hkey.
  - injection Hfind as <-.
    destruct (Hcache _ _ Hkey) as ([[[m p] mw'] h'] & Hin & Hc).
    simpl in Hc. destruct Hc as [Hk [= -> ->]].
    exists m, p, mw', h'. repeat split; try done. by right.
  - unfold treeWalk in Hfind. apply _search_stored in Hfind.
    destruct (Htree _ _ Hfind) as ([[[m p] mw'] h'] & Hin & Hc).
    simpl in Hc. destruct Hc as [Hm Heq]. injection Heq as Hh Hmw.
    exists m, p, mw', h'. repeat split; try done. by left.
Qed.

Lemma find_answers_registered_entries_witness :
  find (registerAll usersRoutes emptyRouter) "get" "/users/42" =
  Some (mkMatch 2 {["id" := "42"]} [])
  ∧ ∃ m p mw h,
      In (m, p, mw, h) usersRoutes ∧ 2 = h ∧ [] = mw
      ∧ (Js.toUpperCase m = "GET"
         ∨ staticKey (Js.toUpperCase m) p = staticKey "GET" "/users/42").
Proof.
  split; [vm_compute; reflexivity|].
  apply (find_answers_registered_entries usersRoutes "get" "/users/42"
           (mkMatch 2 {["id" := "42"]} [])).
  vm_compute; reflexivity.
Defined.

(** ** The shape of the tree *)

Lemma nonempty_len s : s ≠ "" ↔ 0 < Js.len s.
Proof. destruct s; unfold Js.len; simpl; split; (done || lia). Qed.

Lemma compact_inv n :
  compact n ↔
  Forall compact (children n)
  ∧ Forall (λ c, label c ≠ "") (children n)
  ∧ apart (label <$> children n)
  ∧ (∀ p, paramChild n = Some p → compact p)
  ∧ (∀ p, paramChild n = Some p →
          ∃ name, name ≠ "" ∧ paramName p = Some name ∧ label p = ":" +:+ name)
  ∧ (∀ w, wildcardChild n = Some w → compact w)
  ∧ (∀ w, wildcardChild n = Some w → label w = "*" ∧ isWildcard w = true).
Proof.
  split.
  - by intros [n' ? ? ? ? ? ? ?].
  - intros (? & ? & ? & ? & ? & ? & ?). by constructor.
Qed.

Ltac tidy := try fast_done; try (intros ? [=]; fail); try solve [constructor].

Lemma compact_leaf l hs pn iw : compact (mkNode l [] hs pn iw None None).
Proof. apply compact_inv. simpl. split_and!; try done; by constructor. Qed.

Lemma compact_setLabel l n : compact (setLabel l n) ↔ compact n.
Proof. by rewrite !compact_inv. Qed.

Lemma compact_setHandlers hs n : compact (setHandlers hs n) ↔ compact n.
Proof. by rewrite !compact_inv. Qed.

Lemma commonPrefix_slice_to_r n y l :
  _commonPrefixLength y l = 0 → _commonPrefixLength y (Js.slice_to n l) = 0.
Proof.
  intros H. rewrite commonPrefix_sym. apply cpl_slice_to_0.
  by rewrite commonPrefix_sym.
Qed.

Lemma insertLoop_compact k segment cs :
  (∀ n, compact n → compact (k n).1) →
  (∀ n, label (k n).1 = label n) →
  0 < Js.len segment →
  Forall (λ c, ∀ s, 0 < Js.len s → compact c →
                    compact (_insertStatic k c s).1) cs →
  Forall compact cs →
  Forall (λ c, label c ≠ "") cs →
  apart (label <$> cs) →
  Forall compact (insertLoop k (_insertStatic k) segment cs).1
  ∧ Forall (λ c, label c ≠ "") (insertLoop k (_insertStatic k) segment cs).1
  ∧ apart (label <$> (insertLoop k (_insertStatic k) segment cs).1)
  ∧ ∀ y, _commonPrefixLength y segment = 0 →
         Forall (λ c, _commonPrefixLength y (label c) = 0) cs →
         Forall (λ c, _commonPrefixLength y (label c) = 0)
                (insertLoop k (_insertStatic k) segment cs).1.
Proof.
  intros Hk Hlab Hpos.
  induction 1 as [|c cs Hc _ IH]; intros Hcompact Hlabels Hapart.
  - simpl. pose proof (Hk (newNode segment) (compact_leaf _ _ _ _)) as Hn.
    specialize (Hlab (newNode segment)).
    destruct (k (newNode segment)) as [n t]. simpl in *.
    split_and!; try done.
    + by constructor.
    + constructor; [|constructor]. rewrite Hlab. by apply nonempty_len.
    + intros y Hy _. constructor; [by rewrite Hlab | constructor].
  - apply Forall_cons_1 in Hcompact as [Hcc Hcompact].
    apply Forall_cons_1 in Hlabels as [Hcl Hlabels].
    destruct Hapart as [Hcapart Hapart]. fold (apart (label <$> cs)) in Hapart.
    rewrite Forall_fmap in Hcapart.
    specialize (IH Hcompact Hlabels Hapart) as (IH1 & IH2 & IH3 & IH4).
    apply nonempty_len in Hcl.
    pose proof (cpl_le_l (label c) segment) as Hle_l.
    pose proof (cpl_le_r (label c) segment) as Hle_r.
    simpl insertLoop.
    set (a := _commonPrefixLength (label c) segment) in *.
    (* what holds when the first child is replaced by a node [N] whose
       label is a non-empty prefix of the child's *)
    assert (∀ N m, compact N → 0 < m → m <= Js.len (label c) →
                   label N = Js.slice_to m (label c) →
                   Forall compact (N :: cs)
                   ∧ Forall (λ c0, label c0 ≠ "") (N :: cs)
                   ∧ apart (label <$> N :: cs)
                   ∧ ∀ y, _commonPrefixLength y segment = 0 →
                          Forall (λ c0, _commonPrefixLength y (label c0) = 0)
                                 (c :: cs) →
                          Forall (λ c0, _commonPrefixLength y (label c0) = 0)
                                 (N :: cs)) as Hreplace.
    { intros N m HN Hm Hml HNl. split_and!.
      - by constructor.
      - constructor; [|done]. apply nonempty_len. rewrite HNl, len_slice_to; lia.
      - split; [|done]. fold (label <$> cs). rewrite Forall_fmap.
        eapply List.Forall_impl; [|exact Hcapart].
        intros x Hx. simpl. rewrite HNl. by apply cpl_slice_to_0.
      - intros y _ Hy. apply Forall_cons_1 in Hy as [Hyc Hy].
        constructor; [|done]. rewrite HNl. by apply commonPrefix_slice_to_r. }
    assert (∀ l, Js.slice_to (Js.len l) l = l) as Hwhole.
    { clear. induction l as [|x l IH]; [done|].
      change (Js.slice_to (Js.len (String x l)) (String x l))
        with (String x (Js.slice_to (Js.len l) l)). by rewrite IH. }
    assert (∀ N, compact N → label N = label c →
                 Forall compact (N :: cs)
                 ∧ Forall (λ c0, label c0 ≠ "") (N :: cs)
                 ∧ apart (label <$> N :: cs)
                 ∧ ∀ y, _commonPrefixLength y segment = 0 →
                        Forall (λ c0, _commonPrefixLength y (label c0) = 0)
                               (c :: cs) →
                        Forall (λ c0, _commonPrefixLength y (label c0) = 0)
                               (N :: cs)) as Hsame.
    { intros N HN HNl. apply (Hreplace N (Js.len (label c))); try fast_done.
      by rewrite Hwhole. }
    assert (∀ others,
              Forall compact others → Forall (λ c0, label c0 ≠ "") others →
              apart (label <$> others) →
              (∀ y, _commonPrefixLength y segment = 0 →
                    Forall (λ c0, _commonPrefixLength y (label c0) = 0) cs →
                    Forall (λ c0, _commonPrefixLength y (label c0) = 0) others) →
              a = 0 →
              Forall compact (c :: others)
              ∧ Forall (λ c0, label c0 ≠ "") (c :: others)
              ∧ apart (label <$> c :: others)
              ∧ ∀ y, _commonPrefixLength y segment = 0 →
                     Forall (λ c0, _commonPrefixLength y (label c0) = 0)
                            (c :: cs) →
                     Forall (λ c0, _commonPrefixLength y (label c0) = 0)
                            (c :: others)) as Hskip.
    { intros others H1 H2 H3 H4 Ha. split_and!.
      - by constructor.
      - constructor; [by apply nonempty_len | done].
      - split; [|done]. fold (label <$> others). rewrite Forall_fmap.
        by apply (H4 (label c)).
      - intros y Hy Hyc. apply Forall_cons_1 in Hyc as [Hyc Hycs].
        constructor; [done | by apply H4]. }
    destruct (Nat.eqb_spec a 0) as [H0|H0].
    { destruct (insertLoop _ _ segment cs) as [others t]. by apply Hskip. }
    destruct (Nat.eqb_spec a (Js.len (label c))) as [Hl|Hl];
      destruct (Nat.eqb_spec a (Js.len segment)) as [Hs|Hs]; cbn [andb].
    + specialize (Hk c Hcc). specialize (Hlab c).
      destruct (k c) as [c2 t]. by apply Hsame.
    + specialize (Hc (Js.slice a segment)).
      pose proof (_insertStatic_shell k c (Js.slice a segment)) as [Hsh _].
      destruct (_insertStatic k c (Js.slice a segment)) as [c2 t].
      apply Hsame; [|done]. apply Hc; [|done]. rewrite len_slice. lia.
    + rewrite (proj2 (Nat.ltb_lt _ _)) by lia.
      match goal with |- context [k ?n] =>
        pose proof (Hk n) as HkN; specialize (Hlab n); destruct (k n) as [N t]
      end.
      apply (Hreplace N a); try fast_done; try lia.
      apply HkN. apply compact_inv. simpl. split_and!; tidy.
      * constructor; [by apply compact_setLabel | constructor].
      * constructor; [|constructor]. simpl. apply nonempty_len.
        rewrite len_slice. lia.
    + rewrite (proj2 (Nat.ltb_lt _ _)) by lia.
      pose proof (Hk (newNode (Js.slice a segment)) (compact_leaf _ _ _ _)) as Hn.
      specialize (Hlab (newNode (Js.slice a segment))).
      destruct (k (newNode (Js.slice a segment))) as [n t]. simpl in Hn, Hlab.
      apply (Hreplace _ a); try fast_done; try lia.
      apply compact_inv. simpl. split_and!; tidy.
      * constructor; [by apply compact_setLabel|]. by constructor.
      * constructor; [|constructor; [|constructor]].
        -- simpl. apply nonempty_len. rewrite len_slice. lia.
        -- rewrite Hlab. apply nonempty_len. rewrite len_slice. lia.
      * constructor; [|constructor]. rewrite Hlab. unfold a. apply cpl_slice_cpl.
Qed.

Lemma _insertStatic_compact k :
  (∀ n, compact n → compact (k n).1) →
  (∀ n, label (k n).1 = label n) →
  ∀ parent segment,
    0 < Js.len segment → compact parent →
    compact (_insertStatic k parent segment).1.
Proof.
  intros Hk Hlab parent.
  induction parent as [l cs hs pn iw pc wc IHcs _ _] using RadixNode_nested_ind.
  intros segment Hpos Hparent.
  apply compact_inv in Hparent as (H1 & H2 & H3 & H4 & H5 & H6 & H7).
  cbn [children paramChild wildcardChild] in H1, H2, H3, H4, H5, H6, H7.
  destruct (insertLoop_compact k segment cs Hk Hlab Hpos IHcs H1 H2 H3)
    as (L1 & L2 & L3 & _).
  rewrite _insertStatic_unfold. cbn [children].
  destruct (insertLoop k (_insertStatic k) segment cs) as [cs' t].
  apply compact_inv. split_and!; assumption.
Qed.

Lemma param_segment s :
  Js.startsWith ":" s = true → s = ":" +:+ Js.slice 1 s.
Proof.
  destruct s as [|c s]; [done|]. intros H.
  unfold Js.startsWith in H. apply andb_true_iff in H as [Hc _].
  apply Ascii.eqb_eq in Hc as <-. done.
Qed.

Lemma walk_compact method entry segments :
  Forall (λ s, 0 < Js.len s) segments →
  ∀ node, compact node → compact (walk method entry segments node).1.
Proof.
  induction 1 as [|segment rest Hpos _ IH]; intros node Hnode.
  - rewrite walk_nil. destruct (handlers node !! method); [done|].
    by apply compact_setHandlers.
  - rewrite walk_cons. cbv zeta.
    pose proof Hnode as Hinv.
    apply compact_inv in Hinv as (H1 & H2 & H3 & H4 & H5 & H6 & H7).
    destruct (Js.startsWith ":" segment) eqn:Hcolon.
    + destruct (Js.truthy (Js.slice 1 segment)) eqn:Hname; [|done]. cbn [negb].
      destruct (paramChild node) as [pc|] eqn:Hpc.
      * case_bool_decide as Hsame; [|done]. cbn [negb].
        pose proof (walk_shell method entry rest pc) as [Hl Hn].
        specialize (IH pc (H4 pc eq_refl)).
        destruct (walk method entry rest pc) as [c t]. simpl in *.
        apply compact_inv. simpl. split_and!; tidy.
        -- by intros p [= <-].
        -- intros p [= <-]. rewrite Hl, Hn. by apply H5.
      * pose proof (walk_shell method entry rest
                      (newParamNode segment (Js.slice 1 segment))) as [Hl Hn].
        specialize (IH (newParamNode segment (Js.slice 1 segment))
                      (compact_leaf _ _ _ _)).
        destruct (walk method entry rest _) as [c t]. simpl in *.
        apply compact_inv. simpl. split_and!; tidy.
        -- by intros p [= <-].
        -- intros p [= <-]. exists (Js.slice 1 segment). rewrite Hl, Hn.
           split_and!; [| reflexivity | by apply param_segment].
           intros Hempty. by rewrite Hempty in Hname.
    + destruct (String.eqb_spec segment "*") as [->|_].
      * destruct rest as [|? ?]; [|done].
        destruct (wildcardChild node) as [w|] eqn:Hw.
        -- pose proof (walk_shell method entry [] w) as [Hl _].
           assert (isWildcard (walk method entry [] w).1 = isWildcard w) as Hflag.
           { rewrite walk_nil. by destruct (handlers w !! method). }
           specialize (IH w (H6 w eq_refl)).
           destruct (walk method entry [] w) as [c t]. simpl in *.
           apply compact_inv. simpl. split_and!; tidy.
           ++ by intros x [= <-].
           ++ intros x [= <-]. rewrite Hl, Hflag. by apply H7.
        -- specialize (IH newWildcardNode (compact_leaf _ _ _ _)).
           assert (label (walk method entry [] newWildcardNode).1 = "*"
                   ∧ isWildcard (walk method entry [] newWildcardNode).1 = true)
             as [Hl Hflag].
           { rewrite walk_nil. by destruct (handlers newWildcardNode !! method). }
           destruct (walk method entry [] newWildcardNode) as [c t]. simpl in *.
           apply compact_inv. simpl. split_and!; tidy;
             by intros x [= <-].
      * apply _insertStatic_compact; try fast_done.
        intros n. apply walk_shell.
Qed.

(** X7. Every router built by calls of [add] on a new router, whether
    the calls return or throw, keeps its tree compact: below every node
    the static children have non-empty labels and no two of them share
    a common prefix, the parametric child carries the name of its label
    [":name"] and the name is not empty, and the wildcard child is
    labelled ["*"] and flagged as wildcard. *)
Theorem add_keeps_tree_compact :
  compact (root emptyRouter)
  ∧ (∀ r method path mw h,
        compact (root r) → compact (root (add r method path mw h).1))
  ∧ (∀ calls, compact (root (registerAll calls emptyRouter))).
Proof.
  assert (∀ r method path mw h,
            compact (root r) → compact (root (add r method path mw h).1))
    as Hadd.
  { intros r method path mw h Hr. unfold add.
    destruct (negb (Js.startsWith "/" path)); [done|].
    destruct (_ && bool_decide _); [done|].
    pose proof (walk_compact (Js.toUpperCase method) (mkEntry h mw)
                  (_splitPath path) (_splitPath_positive path) (root r) Hr) as H.
    by destruct (walk _ _ _ (root r)). }
  split; [apply compact_leaf|]. split; [exact Hadd|].
  intros calls.
  assert (∀ r, compact (root r) → compact (root (registerAll calls r))) as H.
  { induction calls as [|[[[method path] mw] h] calls IH]; intros r Hr; [done|].
    rewrite registerAll_cons. by apply IH, Hadd. }
  apply H, compact_leaf.
Qed.

(** ** A router with one route *)

Lemma _search_leaf method node segment rest params :
  children node = [] → paramChild node = None → wildcardChild node = None →
  (_search method node (segment :: rest) params).1 = None.
Proof.
  intros Hc Hp Hw. by rewrite _search_segment, Hc, Hp, Hw.
Qed.

Lemma single_route method e segments :
  ∀ steps node,
    bare node →
    ¬ In ":__proto__" segments →
    classify segments = Some steps →
    (walk method e segments node).2 = None
    ∧ ∀ asked asking params,
        (_search asked (walk method e segments node).1 asking params).1 =
        if bool_decide (asked = method)
        then (λ p, mkMatch (handler e) p (middleware e)) <$> bind steps asking params
        else None.
Proof.
  induction segments as [|segment rest IH];
    intros steps node (Hcs & Hhs & Hpc & Hwc) Hplain Hcl.
  - injection Hcl as <-. rewrite walk_nil, Hhs, lookup_empty. split; [done|].
    intros asked [|s asking] params.
    + rewrite _search_exhausted. simpl.
      case_bool_decide as Hm.
      * subst asked. by rewrite lookup_insert_eq.
      * rewrite lookup_insert_ne by done. by rewrite lookup_empty.
    + rewrite _search_leaf by done. by case_bool_decide.
  - assert (segment ≠ ":__proto__" ∧ ¬ In ":__proto__" rest) as [Hseg Hrest'].
    { split; intros ?; apply Hplain; [by left | by right]. }
    rewrite classify_cons in Hcl. rewrite walk_cons. cbv zeta.
    destruct (Js.startsWith ":" segment) eqn:Hcolon.
    + (* a parameter *)
      destruct (Js.truthy (Js.slice 1 segment)); [|done]. cbn [negb].
      destruct (classify rest) as [steps'|] eqn:Hrest; [|done].
      injection Hcl as <-. rewrite Hpc.
      assert (bare (newParamNode segment (Js.slice 1 segment))) as Hbare by done.
      destruct (IH steps' _ Hbare Hrest' eq_refl) as [Hok Hfind].
      pose proof (walk_shell method e rest
                    (newParamNode segment (Js.slice 1 segment))) as [_ Hname].
      destruct (walk method e rest _) as [c t]. simpl in *. split; [done|].
      intros asked [|s asking] params.
      * rewrite Hhs, lookup_empty. by case_bool_decide.
      * rewrite Hcs, Hwc. simpl.
        rewrite Hname. simpl.
        rewrite assign_ordinary.
        2:{ intros Hproto. apply Hseg.
            by rewrite (param_segment segment Hcolon), Hproto. }
        specialize (Hfind asked asking (<[Js.slice 1 segment := s]> params)).
        destruct (_search asked c asking _) as [[res|] params'];
          simpl in *; rewrite <- Hfind; done.
    + destruct (String.eqb_spec segment "*") as [->|Hstar].
      * (* the wildcard *)
        destruct rest as [|? ?]; [|done]. injection Hcl as <-.
        rewrite Hwc, walk_nil. simpl. rewrite lookup_empty. split; [done|].
        intros asked [|s asking] params.
        -- rewrite _search_exhausted. simpl. rewrite Hhs, lookup_empty.
           by case_bool_decide.
        -- rewrite _search_segment. simpl. rewrite Hcs, Hpc. simpl.
           case_bool_decide as Hm.
           ++ subst asked. by rewrite lookup_insert_eq.
           ++ rewrite lookup_insert_ne by done. by rewrite lookup_empty.
      * (* a static segment *)
        destruct (classify rest) as [steps'|] eqn:Hrest; [|done].
        injection Hcl as <-. rewrite _insertStatic_unfold, Hcs. simpl.
        assert (bare (newNode segment)) as Hbare by done.
        destruct (IH steps' _ Hbare Hrest' eq_refl) as [Hok Hfind].
        pose proof (walk_shell method e rest (newNode segment)) as [Hlabel _].
        destruct (walk method e rest (newNode segment)) as [c t]. simpl in *.
        split; [done|].
        intros asked [|s asking] params.
        -- rewrite Hhs, lookup_empty. by case_bool_decide.
        -- rewrite Hpc, Hwc. unfold _matchStatic. rewrite Hlabel. simpl.
           destruct (String.eqb segment s); [|by case_bool_decide].
           specialize (Hfind asked asking params).
           destruct (_search asked c asking params) as [[res|] params'];
             simpl in *; rewrite <- Hfind; done.
Qed.

Lemma upper_ascii_colon c :
  Ascii.eqb (Js.upper_ascii c) ":" = Ascii.eqb c ":".
Proof. destruct c as [[] [] [] [] [] [] [] []]; reflexivity. Qed.

Lemma includes_toUpperCase method :
  Js.includes ":" (Js.toUpperCase method) = Js.includes ":" method.
Proof.
  induction method as [|c method IH]; [done|].
  simpl. by rewrite upper_ascii_colon, IH.
Qed.

Lemma includes_append c a b : Js.includes c (a +:+ String c b) = true.
Proof.
  induction a as [|x a IH].
  - change ("" +:+ String c b) with (String c b). simpl.
    by rewrite Ascii.eqb_refl.
  - change (String x a +:+ String c b) with (String x (a +:+ String c b)).
    simpl. rewrite IH. apply orb_true_r.
Qed.

(** With no [":"] in the method nor in the path, the cache key tells
    both. *)
Lemma staticKey_inj method path method' path' :
  Js.includes ":" method = false → Js.includes ":" path = false →
  staticKey method' path' = staticKey method path →
  method' = method ∧ path' = path.
Proof.
  unfold staticKey. revert method'.
  induction method as [|x method IH]; intros method' Hm Hp Hkey.
  - destruct method' as [|y method'].
    + change (String ":" path' = String ":" path) in Hkey.
      by injection Hkey as ->.
    + change (String y (method' +:+ String ":" path') = String ":" path) in Hkey.
      injection Hkey as -> Hkey.
      by rewrite <- Hkey, includes_append in Hp.
  - simpl in Hm. apply orb_false_iff in Hm as [Hx Hm].
    destruct method' as [|y method'].
    + change (String ":" path' = String x (method +:+ ":" +:+ path)) in Hkey.
      injection Hkey as <- _. done.
    + change (String y method' +:+ ":" +:+ path' = String x method +:+ ":" +:+ path)
        with (String y (method' +:+ ":" +:+ path') = String x (method +:+ ":" +:+ path))
        in Hkey.
      injection Hkey as -> Hkey. destruct (IH method' Hm Hp Hkey) as [-> ->]. done.
Qed.

Lemma startsWith_includes c s :
  Js.startsWith (String c "") s = true → Js.includes c s = true.
Proof.
  destruct s as [|x s]; [done|]. unfold Js.startsWith. simpl.
  intros H. apply andb_true_iff in H as [H _].
  rewrite Ascii.eqb_sym in H. by rewrite H.
Qed.

Lemma static_segments segments params :
  Forall (λ s, Js.includes ":" s = false ∧ Js.includes "*" s = false) segments →
  classify segments = Some (Static <$> segments)
  ∧ bind (Static <$> segments) segments params = Some params.
Proof.
  induction 1 as [|s rest [Hcolon Hstar] _ [IH1 IH2]]; [done|].
  rewrite classify_cons.
  destruct (Js.startsWith ":" s) eqn:Hstart.
  { apply startsWith_includes in Hstart. congruence. }
  destruct (String.eqb_spec s "*") as [->|_]; [done|].
  rewrite IH1. split; [done|]. simpl. by rewrite String.eqb_refl.
Qed.

Lemma static_path_segments path :
  Js.includes ":" path = false → Js.includes "*" path = false →
  Forall (λ s, Js.includes ":" s = false ∧ Js.includes "*" s = false)
         (_splitPath path).
Proof.
  intros Hcolon Hstar. apply List.Forall_forall. intros s Hs.
  unfold _splitPath in Hs. apply List.filter_In in Hs as [Hs _].
  split.
  - destruct (Js.includes ":" s) eqn:E; [|done].
    by rewrite (includes_split ":" path s Hs E) in Hcolon.
  - destruct (Js.includes "*" s) eqn:E; [|done].
    by rewrite (includes_split "*" path s Hs E) in Hstar.
Qed.

(** X8. A router with one route answers exactly the paths that fit the
    route.  After [add(method, path, mw, h)] has returned on a new
    router, for a method without [":"] and a path with no parameter
    named [__proto__] (assigning a string to that name of the [params]
    object binds nothing), [find(asked, asking)] answers
    the handler and middleware of the route exactly when the methods
    agree in upper case and the segments of [asking] fit the pattern
    segment by segment, with each parameter bound to its segment and
    ["*"] to the segments left joined by ["/"]; and it answers nothing in
    every other case. *)
Theorem single_route_matching method path mw h r :
  Js.includes ":" method = false →
  ¬ In ":__proto__" (_splitPath path) →
  add emptyRouter method path mw h = (r, None) →
  ∃ steps,
    classify (_splitPath path) = Some steps
    ∧ ∀ asked asking,
        find r asked asking =
        if bool_decide (Js.toUpperCase asked = Js.toUpperCase method)
        then (λ p, mkMatch h p mw) <$> bind steps (_splitPath asking) ∅
        else None.
Proof.
  intros Hmethod Hplain Hadd. rewrite <- includes_toUpperCase in Hmethod.
  unfold add in Hadd.
  destruct (Js.startsWith "/" path); [|done]. cbn [negb] in Hadd.
  assert (bare (root emptyRouter)) as Hbare by done.
  destruct (classify (_splitPath path)) as [steps|] eqn:Hcl.
  2:{ exfalso. destruct (_ && bool_decide _); [done|].
      destruct (walk _ _ _ (root emptyRouter)) as [root' t] eqn:Hwalk.
      injection Hadd as _ ->.
      destruct (walk_holds _ _ _ (_splitPath_positive path) _ _ Hwalk)
        as (steps & Hsome & _). congruence. }
  destruct (single_route (Js.toUpperCase method) (mkEntry h mw) (_splitPath path)
              steps (root emptyRouter) Hbare Hplain Hcl) as [_ Hsearch].
  exists steps. split; [done|]. intros asked asking.
  destruct (negb (Js.includes ":" path) && negb (Js.includes "*" path))
    eqn:Hstatic; cbn [andb] in Hadd.
  - rewrite bool_decide_eq_false_2 in Hadd
      by (simpl; rewrite lookup_empty; by intros [? ?]).
    destruct (walk _ _ _ (root emptyRouter)) as [root' t].
    injection Hadd as <- ->. unfold find. simpl staticRoutes.
    apply andb_true_iff in Hstatic as [Hcolon Hstar].
    apply negb_true_iff in Hcolon, Hstar.
    destruct (decide (staticKey (Js.toUpperCase asked) asking
                      = staticKey (Js.toUpperCase method) path)) as [Hkey|Hkey].
    + rewrite Hkey, lookup_insert_eq. simpl.
      destruct (staticKey_inj _ _ _ _ Hmethod Hcolon Hkey) as [-> ->].
      rewrite bool_decide_eq_true_2 by done.
      destruct (static_segments (_splitPath path) ∅
                  (static_path_segments path Hcolon Hstar)) as [Hcl' Hbind].
      rewrite Hcl in Hcl'. injection Hcl' as ->. by rewrite Hbind.
    + rewrite lookup_insert_ne by done. rewrite lookup_empty.
      unfold treeWalk. simpl root. rewrite Hsearch. done.
  - destruct (walk _ _ _ (root emptyRouter)) as [root' t].
    injection Hadd as <- ->. unfold find. simpl staticRoutes.
    rewrite lookup_empty. unfold treeWalk. simpl root. by rewrite Hsearch.
Qed.

(** A parameter named [__proto__] binds nothing: the route matches
    and the [params] of the result are empty. *)
Lemma proto_parameter_binds_nothing :
  (add emptyRouter "GET" "/:__proto__" [] 1).2 = None
  ∧ find (add emptyRouter "GET" "/:__proto__" [] 1).1 "GET" "/a"
    = Some (mkMatch 1 ∅ []).
Proof. split; vm_compute; reflexivity. Qed.

Lemma single_route_matching_witness :
  Js.includes ":" "get" = false
  ∧ ¬ In ":__proto__" (_splitPath "/users/:id/files/*")
  ∧ add emptyRouter "get" "/users/:id/files/*" [7] 1 =
    ((add emptyRouter "get" "/users/:id/files/*" [7] 1).1, None)
  ∧ ∃ steps,
      classify (_splitPath "/users/:id/files/*") = Some steps
      ∧ ∀ asked asking,
          find (add emptyRouter "get" "/users/:id/files/*" [7] 1).1 asked asking =
          if bool_decide (Js.toUpperCase asked = Js.toUpperCase "get")
          then (λ p, mkMatch 1 p [7]) <$> bind steps (_splitPath asking) ∅
          else None.
Proof.
  assert (¬ In ":__proto__" (_splitPath "/users/:id/files/*")) as Hplain.
  { vm_compute. intros [H|[H|[H|[H|[]]]]]; discriminate. }
  split; [reflexivity|]. split; [exact Hplain|].
  split; [vm_compute; reflexivity|].
  apply (single_route_matching "get" "/users/:id/files/*" [7] 1).
  - reflexivity.
  - exact Hplain.
  - vm_compute; reflexivity.
Defined.

(** * Further properties of the middleware chain *)

Section ChainOrder.
Import MiddlewareChain.

Variable cfg : Config.

Lemma entered_app tr more : entered (tr ++ more) = entered tr ++ entered more.
Proof. unfold entered. apply List.flat_map_app. Qed.

Lemma handlerRuns_app tr more :
  handlerRuns (tr ++ more) = handlerRuns tr + handlerRuns more.
Proof. unfold handlerRuns. by rewrite List.filter_app, length_app. Qed.

Lemma callErrorHandler_inOrder e st :
  inOrder cfg st → inOrder cfg (callErrorHandler cfg e st).
Proof.
  intros (H1 & H2 & H3). unfold inOrder, callErrorHandler. simpl.
  rewrite entered_app, handlerRuns_app. simpl. rewrite app_nil_r, Nat.add_0_r.
  done.
Qed.

Lemma next_inOrder err st : inOrder cfg st → inOrder cfg (next cfg err st).
Proof.
  intros Hst. pose proof Hst as (H1 & H2 & H3). unfold next.
  destruct (truthy err); [by apply callErrorHandler_inOrder|].
  destruct (sent st); [done|].
  destruct (Nat.leb_spec (length (middlewareFns cfg)) (idx st)) as [Hle|Hlt].
  - assert (idx st = length (middlewareFns cfg)) as Hall by lia.
    unfold callHandler.
    assert (inOrder cfg (mkState (idx st) (sent st || h_sends (routeHandler cfg))
                       (stack st) (queue st) (trace st ++ [EvHandler]))) as Hh.
    { unfold inOrder. simpl. rewrite entered_app. simpl. by rewrite app_nil_r. }
    destruct (h_completion (routeHandler cfg)); [done | | done].
    by apply callErrorHandler_inOrder.
  - destruct (middlewareFns cfg !! idx st) as [m|]; [|done].
    unfold inOrder. cbn [idx trace].
    rewrite entered_app, handlerRuns_app, seq_S. simpl.
    rewrite H2. split_and!; [lia | done |]. intros Hruns.
    rewrite Nat.add_0_r in Hruns. specialize (H3 Hruns). lia.
Qed.

Lemma step_inOrder st st' : inOrder cfg st → step cfg st st' → inOrder cfg st'.
Proof.
  intros Hst Hstep.
  destruct Hstep as [st f rest Hstack | st pre t post Hstack Hqueue].
  - unfold stepFrame. destruct (todo f) as [|[err| |] acts].
    + destruct (MiddlewareChain.ending f) as [|e|e]; [done| |done].
      destruct (resumed f); [done|]. by apply next_inOrder.
    + by apply next_inOrder.
    + done.
    + done.
  - unfold runTask. destruct t as [f|e|e].
    + done.
    + by apply next_inOrder.
    + by apply callErrorHandler_inOrder.
Qed.

Lemma reachable_inOrder st : reachable cfg st → inOrder cfg st.
Proof.
  induction 1 as [|st st' _ IH Hstep].
  - apply next_inOrder. unfold inOrder. simpl. split_and!; [lia | done | unfold handlerRuns; simpl; lia].
  - by eapply step_inOrder.
Qed.
End ChainOrder.

(** X9. Whatever the middleware functions, the handler and the error
    handler do (calling [next] several times, after an error, from the
    event loop), [execute] enters the middleware functions in the order
    of the array, each at most once and none skipped, and invokes the
    handler only once all of them have been entered. *)
Theorem middleware_entered_in_order cfg st :
  MiddlewareChain.reachable cfg st →
  MiddlewareChain.idx st <= length (MiddlewareChain.middlewareFns cfg)
  ∧ entered (MiddlewareChain.trace st) = seq 0 (MiddlewareChain.idx st)
  ∧ (0 < handlerRuns (MiddlewareChain.trace st) →
     entered (MiddlewareChain.trace st)
     = seq 0 (length (MiddlewareChain.middlewareFns cfg))).
Proof.
  intros Hreach. destruct (reachable_inOrder cfg st Hreach) as (H1 & H2 & H3).
  split_and!; [done | done |]. intros Hruns. by rewrite H2, (H3 Hruns).
Qed.

Lemma middleware_entered_in_order_witness :
  MiddlewareChain.reachable callsTwice
    (MiddlewareChain.runFifo callsTwice 2 (MiddlewareChain.execute callsTwice))
  ∧ entered (MiddlewareChain.traceAfter callsTwice 2) = [0]
  ∧ handlerRuns (MiddlewareChain.traceAfter callsTwice 2) = 1.
Proof.
  split; [apply traceAfter_reachable|]. split; [|reflexivity].
  exact (proj1 (proj2 (middleware_entered_in_order callsTwice
           (MiddlewareChain.runFifo callsTwice 2
              (MiddlewareChain.execute callsTwice))
           (traceAfter_reachable callsTwice 2)))).
Defined.

(** ** A chain whose middleware functions all pass on *)

Section ChainPassesOn.
Import MiddlewareChain.

Variable cfg : Config.
Hypothesis Hpass : Forall passesOn (middlewareFns cfg).
Hypothesis Hsent : initiallySent cfg = false.

Lemma runFifo_stuck n st : stepFifo cfg st = None → runFifo cfg n st = st.
Proof. intros H. destruct n; [done|]. simpl. by rewrite H. Qed.

Lemma runFifo_add a b :
  ∀ st, runFifo cfg (a + b) st = runFifo cfg b (runFifo cfg a st).
Proof.
  induction a as [|a IH]; intros st; [done|]. simpl.
  destruct (stepFifo cfg st) as [st'|] eqn:Hstep; [apply IH|].
  by rewrite runFifo_stuck.
Qed.

Lemma passesOn_lookup k :
  k < length (middlewareFns cfg) →
  ∃ v, truthy v = false
       ∧ (callOf cfg k = mkFrame [CallNext v] Returns false
          ∨ callOf cfg k = mkFrame [] (Throws v) false).
Proof.
  intros Hk. destruct (lookup_lt_is_Some_2 _ _ Hk) as [m Hm].
  destruct (Forall_lookup_1 _ _ _ _ Hpass Hm) as (v & Hv & [[Hb Hc]|[Hb Hc]]);
    exists v; (split; [done|]); unfold callOf; rewrite Hm, Hb, Hc; auto.
Qed.

Lemma callOf_lookup k :
  k < length (middlewareFns cfg) →
  ∃ m, middlewareFns cfg !! k = Some m
       ∧ callOf cfg k = mkFrame (body m) (completion m) false.
Proof.
  intros Hk. destruct (lookup_lt_is_Some_2 _ _ Hk) as [m Hm].
  exists m. split; [done|]. unfold callOf. by rewrite Hm.
Qed.

Lemma execute_entering :
  0 < length (middlewareFns cfg) → execute cfg = entering cfg 0 0.
Proof.
  intros Hlen. destruct (callOf_lookup 0 Hlen) as (m & Hm & Hcall).
  unfold execute, next, entering. rewrite Hsent, Hcall. cbn [truthy undefined sent idx].
  rewrite (proj2 (Nat.leb_gt _ _)) by done. by rewrite Hm.
Qed.

Lemma execute_handling :
  length (middlewareFns cfg) = 0 → execute cfg = handling cfg 0.
Proof.
  intros Hlen. unfold execute, next, handling. rewrite Hsent, Hlen. done.
Qed.

Lemma stepFifo_entering j k :
  S k < length (middlewareFns cfg) →
  ∃ j', j' <= S j ∧ stepFifo cfg (entering cfg j k) = Some (entering cfg j' (S k)).
Proof.
  intros Hk. destruct (passesOn_lookup k) as (v & Hv & [Hcall|Hcall]); [lia| |];
    destruct (callOf_lookup (S k) Hk) as (m & Hm & Hcall');
    [exists (S j) | exists j]; (split; [lia|]);
    unfold stepFifo, entering; cbn [stack]; rewrite Hcall, Hcall';
    unfold stepFrame; cbn [todo ending resumed]; unfold next, popFrame;
    cbn [idx sent stack queue trace]; rewrite Hv;
    rewrite (proj2 (Nat.leb_gt _ _)) by done; rewrite Hm;
    by rewrite (seq_S (S k)), fmap_app.
Qed.

Lemma stepFifo_last j k :
  S k = length (middlewareFns cfg) →
  ∃ j', j' <= S j ∧ stepFifo cfg (entering cfg j k) = Some (handling cfg j').
Proof.
  intros Hk. destruct (passesOn_lookup k) as (v & Hv & [Hcall|Hcall]); [lia| |];
    [exists (S j) | exists j]; (split; [lia|]);
    unfold stepFifo, entering; cbn [stack]; rewrite Hcall;
    unfold stepFrame; cbn [todo ending resumed]; unfold next, popFrame;
    cbn [idx sent stack queue trace]; rewrite Hv;
    rewrite (proj2 (Nat.leb_le _ _)) by lia; unfold handling; by rewrite <- Hk.
Qed.

Lemma runFifo_entering i :
  ∀ j k, k + i < length (middlewareFns cfg) →
         ∃ j', j' <= j + i
               ∧ runFifo cfg i (entering cfg j k) = entering cfg j' (k + i).
Proof.
  induction i as [|i IH]; intros j k Hk.
  - exists j. split; [lia|]. by rewrite Nat.add_0_r.
  - destruct (stepFifo_entering j k) as (j1 & Hj1 & Hstep); [lia|].
    destruct (IH j1 (S k)) as (j2 & Hj2 & Hrun); [lia|].
    exists j2. split; [lia|]. cbn [runFifo]. rewrite Hstep, Hrun.
    f_equal. lia.
Qed.

Lemma runFifo_handling :
  ∃ j, j <= length (middlewareFns cfg)
       ∧ runFifo cfg (length (middlewareFns cfg)) (execute cfg) = handling cfg j.
Proof.
  destruct (length (middlewareFns cfg)) as [|l] eqn:Hlen.
  - exists 0. split; [done|]. by apply execute_handling.
  - rewrite execute_entering by lia.
    destruct (runFifo_entering l 0 0) as (j1 & Hj1 & Hrun); [lia|].
    change (0 + l) with l in Hrun.
    destruct (stepFifo_last j1 l) as (j2 & Hj2 & Hstep); [lia|].
    exists j2. split; [lia|].
    replace (S l) with (l + 1) by lia. rewrite runFifo_add, Hrun.
    cbn [runFifo]. by rewrite Hstep.
Qed.

Lemma runFifo_returning j :
  ∀ st, stack st = replicate j returning →
        runFifo cfg j st = popFrame st [].
Proof.
  induction j as [|j IH]; intros st Hst.
  - destruct st. simpl in Hst. by subst.
  - simpl. unfold stepFifo. rewrite Hst. simpl. unfold stepFrame. simpl.
    by rewrite IH.
Qed.
End ChainPassesOn.

(** X10. A chain in which every middleware function passes control on
    runs to its end.  When each middleware function either calls
    [next()] and returns or throws a falsy value, [execute], on a
    response not yet sent, enters every middleware function in the
    order of the array, then invokes the handler, once, and reports the
    handler's failure, thrown or rejected, to the error handler, once;
    the falsy values thrown never reach the error handler; after
    [2 * length + 1] steps nothing is left to run. *)
Theorem chain_runs_to_handler cfg n :
  Forall passesOn (MiddlewareChain.middlewareFns cfg) →
  MiddlewareChain.initiallySent cfg = false →
  2 * length (MiddlewareChain.middlewareFns cfg) + 1 <= n →
  MiddlewareChain.traceAfter cfg n
  = (MiddlewareChain.EvMiddleware
       <$> seq 0 (length (MiddlewareChain.middlewareFns cfg)))
    ++ MiddlewareChain.EvHandler
       :: reported (MiddlewareChain.h_completion
                      (MiddlewareChain.routeHandler cfg))
  ∧ MiddlewareChain.stepFifo cfg
      (MiddlewareChain.runFifo cfg n (MiddlewareChain.execute cfg)) = None.
Proof.
  intros Hpass Hsent Hn. unfold MiddlewareChain.traceAfter.
  destruct (runFifo_handling cfg Hpass Hsent) as (j & Hj & Hh).
  pose proof (runFifo_returning cfg j (handling cfg j)) as Hr.
  rewrite <- Hh in Hr at 2.
  set (len := length (MiddlewareChain.middlewareFns cfg)) in *.
  replace n with (len + (j + (n - len - j))) by lia.
  rewrite !runFifo_add, Hr.
  2:{ unfold handling, MiddlewareChain.callHandler.
      by destruct (MiddlewareChain.h_completion _). }
  destruct (n - len - j) as [|m] eqn:Hm; [lia|]. clear Hh Hr.
  unfold handling, MiddlewareChain.callHandler.
  destruct (MiddlewareChain.h_completion (MiddlewareChain.routeHandler cfg))
    as [|e|e]; simpl.
  - done.
  - by rewrite <- app_assoc.
  - rewrite runFifo_stuck by done. simpl. by rewrite <- app_assoc.
Qed.

Lemma chain_runs_to_handler_witness :
  MiddlewareChain.traceAfter throwsNothing 5
  = [MiddlewareChain.EvMiddleware 0; MiddlewareChain.EvMiddleware 1;
     MiddlewareChain.EvHandler; MiddlewareChain.EvError boom]
  ∧ MiddlewareChain.stepFifo throwsNothing
      (MiddlewareChain.runFifo throwsNothing 5
         (MiddlewareChain.execute throwsNothing)) = None.
Proof.
  apply (chain_runs_to_handler throwsNothing 5).
  - repeat constructor; exists MiddlewareChain.undefined; auto.
  - reflexivity.
  - simpl. lia.
Defined.

(** ** A middleware function that does not call [next] *)

Section ChainHalts.
Import MiddlewareChain.

Variable cfg : Config.
Variable k : nat.
Variable m : Middleware.
Hypothesis Honce : callsOnce cfg.
Hypothesis Hm : middlewareFns cfg !! k = Some m.
Hypothesis Hquiet : callsLeft (mkFrame (body m) (completion m) false) = 0.

Ltac tally :=
  unfold haltedAt, callsPending, callErrorHandler, popFrame, enqueue in *;
  cbn [idx sent stack queue trace] in *;
  repeat match goal with
         | H : stack ?s = _ |- _ => rewrite H in *
         | H : queue ?s = _ |- _ => rewrite H in *
         end;
  rewrite ?handlerRuns_app, ?sumOf_app in *;
  cbn [sumOf fold_right taskCallsLeft] in *;
  unfold callsLeft, handlerRuns in *; simpl in *; lia.

Lemma next_haltedAt err st :
  idx st <= k → callsPending st = 0 → handlerRuns (trace st) = 0 →
  haltedAt k (next cfg err st).
Proof.
  intros Hidx Hcalls Hruns. unfold next.
  destruct (truthy err); [tally|].
  destruct (sent st); [unfold haltedAt; lia|].
  pose proof (lookup_lt_Some _ _ _ Hm) as Hlen.
  rewrite (proj2 (Nat.leb_gt _ _)) by lia.
  destruct (middlewareFns cfg !! idx st) as [m'|] eqn:Hm';
    [|unfold haltedAt; lia].
  pose proof (callsOnce_lookup cfg _ _ Honce Hm') as Hle.
  assert (idx st = k → callsLeft (mkFrame (body m') (completion m') false) = 0)
    as Hlast.
  { intros Hk. rewrite Hk, Hm in Hm'. by injection Hm' as <-. }
  assert (∀ x l, sumOf callsLeft (x :: l) = callsLeft x + sumOf callsLeft l)
    as Hcons by done.
  unfold haltedAt, callsPending in *. cbn [idx stack queue trace].
  rewrite handlerRuns_app, Hcons, Hruns.
  split_and!; [lia | lia | | done].
  intros Hk. rewrite Hlast by lia. lia.
Qed.

Lemma step_haltedAt st st' :
  haltedAt k st → step cfg st st' → haltedAt k st'.
Proof.
  intros (Hidx & Hle & Hlast & Hruns) Hstep.
  destruct Hstep as [st f rest Hstack | st pre t post Hstack Hqueue].
  - assert (callsPending st =
            callsLeft f + sumOf callsLeft rest + sumOf taskCallsLeft (queue st))
      as Hcalls by (unfold callsPending; by rewrite Hstack).
    unfold stepFrame. destruct f as [acts fin res].
    cbn [todo MiddlewareChain.ending resumed].
    destruct acts as [|[err| |] acts].
    + destruct fin as [|e|e].
      * tally.
      * destruct res; [tally|].
        apply next_haltedAt; [|tally|tally].
        destruct (decide (idx st = S k)) as [Heq|]; [|simpl; lia].
        specialize (Hlast Heq). tally.
      * tally.
    + apply next_haltedAt; [|tally|tally].
      destruct (decide (idx st = S k)) as [Heq|]; [|simpl; lia].
      specialize (Hlast Heq). tally.
    + tally.
    + tally.
  - assert (callsPending st =
            sumOf taskCallsLeft pre + taskCallsLeft t + sumOf taskCallsLeft post)
      as Hcalls.
    { unfold callsPending. rewrite Hstack, Hqueue, sumOf_app. simpl. lia. }
    unfold runTask. destruct t as [f|e|e].
    + tally.
    + apply next_haltedAt; [|tally|tally].
      destruct (decide (idx st = S k)) as [Heq|]; [|simpl; lia].
      specialize (Hlast Heq). tally.
    + tally.
Qed.

Lemma reachable_haltedAt st : reachable cfg st → haltedAt k st.
Proof.
  induction 1 as [|st st' _ IH Hstep].
  - apply next_haltedAt; simpl; [lia | done | done].
  - by eapply step_haltedAt.
Qed.
End ChainHalts.

(** X11. A middleware function that never calls [next] stops the
    chain.  When no middleware function calls [next] more than once
    (counting the call [execute] makes for it when it throws or
    rejects) and the function at index [k] neither calls [next] nor
    throws nor rejects, then [execute] never enters a function after
    it and never invokes the handler. *)
Theorem chain_stops_without_next cfg k m st :
  callsOnce cfg →
  MiddlewareChain.middlewareFns cfg !! k = Some m →
  callsLeft (MiddlewareChain.mkFrame (MiddlewareChain.body m)
               (MiddlewareChain.completion m) false) = 0 →
  MiddlewareChain.reachable cfg st →
  MiddlewareChain.idx st <= S k
  ∧ Forall (λ i, i <= k) (entered (MiddlewareChain.trace st))
  ∧ handlerRuns (MiddlewareChain.trace st) = 0.
Proof.
  intros Honce Hm Hquiet Hreach.
  destruct (reachable_haltedAt cfg k m Honce Hm Hquiet st Hreach)
    as (Hidx & _ & _ & Hruns).
  destruct (reachable_inOrder cfg st Hreach) as (_ & Hentered & _).
  split_and!; [done | | done].
  rewrite Hentered. apply Forall_seq. intros i Hi. lia.
Qed.

Lemma chain_stops_without_next_witness :
  entered (MiddlewareChain.traceAfter answersItself 6) = [0; 1]
  ∧ MiddlewareChain.idx
      (MiddlewareChain.runFifo answersItself 6
         (MiddlewareChain.execute answersItself)) <= 2
  ∧ Forall (λ i, i <= 1) (entered (MiddlewareChain.traceAfter answersItself 6))
  ∧ handlerRuns (MiddlewareChain.traceAfter answersItself 6) = 0.
Proof.
  split; [reflexivity|].
  apply (chain_stops_without_next answersItself 1
           (MiddlewareChain.mkMiddleware [MiddlewareChain.Send]
              MiddlewareChain.Returns)).
  - unfold callsOnce. simpl. repeat constructor.
  - reflexivity.
  - reflexivity.
  - apply traceAfter_reachable.
Defined.

(** ** The scope of an added layer *)

Lemma resolve_add layers p f requestPath routeMiddleware :
  MiddlewareChain.resolve (MiddlewareChain.add layers p f) requestPath
    routeMiddleware
  = MiddlewareChain.resolve layers requestPath []
    ++ (if MiddlewareChain.applies requestPath
             (MiddlewareChain.mkLayer (MiddlewareChain.normalize <$> p) f)
        then [f] else [])
    ++ routeMiddleware.
Proof.
  unfold MiddlewareChain.resolve, MiddlewareChain.add.
  rewrite !push_all, !resolve_loop, List.filter_app, fmap_app, app_nil_r.
  cbn [app List.filter]. rewrite <- app_assoc.
  by destruct (MiddlewareChain.applies requestPath _).
Qed.

(** X12. Which request paths a layer given to [add] acts on.  A layer
    added under a prefix written [p], ["/" p], [p "/"] or ["/" p "/"]
    acts on the request path ["/" p] and on the paths that continue it
    after a ["/"], and on no other; a layer added under ["/"] acts only
    on the request path ["/"] and on paths beginning with ["//"], not
    on every path; a layer added under the empty string acts on every
    path beginning with ["/"]; and [resolve] answers, after an [add],
    what it answered before for no route middleware, then the function
    added if its layer acts on the path, then the route middleware. *)
Theorem added_layer_scope f requestPath :
  (∀ p spelled,
      bareprefix p →
      In spelled [p; "/" +:+ p; p +:+ "/"; "/" +:+ p +:+ "/"] →
      MiddlewareChain.applies requestPath
        (MiddlewareChain.mkLayer (Some (MiddlewareChain.normalize spelled)) f)
      = true
      ↔ requestPath = "/" +:+ p
        ∨ ∃ more, requestPath = "/" +:+ p +:+ "/" +:+ more)
  ∧ (MiddlewareChain.applies requestPath
       (MiddlewareChain.mkLayer (Some (MiddlewareChain.normalize "/")) f)
     = true
     ↔ requestPath = "/" ∨ ∃ more, requestPath = "//" +:+ more)
  ∧ (MiddlewareChain.applies requestPath
       (MiddlewareChain.mkLayer (Some (MiddlewareChain.normalize "")) f)
     = true
     ↔ requestPath = "" ∨ ∃ more, requestPath = "/" +:+ more)
  ∧ (∀ layers p routeMiddleware,
        MiddlewareChain.resolve (MiddlewareChain.add layers p f) requestPath
          routeMiddleware
        = MiddlewareChain.resolve layers requestPath []
          ++ (if MiddlewareChain.applies requestPath
                   (MiddlewareChain.mkLayer (MiddlewareChain.normalize <$> p) f)
              then [f] else [])
          ++ routeMiddleware).
Proof.
  split_and!.
  - intros p spelled Hp Hin.
    destruct (normalize_spellings p Hp) as (H1 & H2 & H3 & H4).
    assert (MiddlewareChain.normalize spelled = "/" +:+ p) as ->.
    { destruct Hin as [<-|[<-|[<-|[<-|[]]]]]; done. }
    rewrite applies_inScope. unfold inScope. cbn [MiddlewareChain.path].
    split; (intros [?|[more H]]; [by left | right; by exists more]).
  - rewrite applies_inScope. unfold inScope. done.
  - rewrite applies_inScope. unfold inScope. done.
  - intros layers p routeMiddleware. apply resolve_add.
Qed.
